(** * Graph: adjacency-matrix store, algorithm suite and graph registry

    A shallow embedding of [Algo/Graph.hpp] and [Application/GraphManager.hpp].

    Conventions.
    - [uint16_t], [uint32_t], [uint64_t] and [int32_t] values are integers in
      [Z]; unsigned arithmetic wraps explicitly ([u32], [u64]); signed
      overflow has no defined behaviour and is reported as [Undefined].
    - The heap buffer [data_] is a [list Z]; an access outside of the
      allocation has no defined behaviour and is reported as [Undefined].
    - A C++ exception is a value [Throw e]; the object keeps the state it had
      when the exception left the member function. *)

From Stdlib Require Import ZArith List Lia Bool String Sorted Permutation Uint63 Floats.
From stdpp Require Import base tactics option list list_numbers gmap.

Local Open Scope Z_scope.

(** ** Outcomes of a call *)

(** The exception classes of [<stdexcept>]; the sources only ever throw
    [std::out_of_range]. *)
Inductive exn_class : Set :=
| logic_error | invalid_argument | domain_error | length_error
| out_of_range | runtime_error | range_error | overflow_error.

Record exn : Set := mk_exn { cls : exn_class; what : string }.

Inductive outcome (A : Type) : Type :=
| Ret (a : A)          (* normal return *)
| Throw (e : exn)      (* an exception propagates to the caller *)
| Undefined            (* undefined behaviour was executed *)
| OutOfFuel.           (* the loop bound of the model was exhausted *)

Arguments Ret {A} a.
Arguments Throw {A} e.
Arguments Undefined {A}.
Arguments OutOfFuel {A}.

#[global] Instance outcome_bind : MBind outcome := fun A B f x =>
  match x with
  | Ret a => f a
  | Throw e => Throw e
  | Undefined => Undefined
  | OutOfFuel => OutOfFuel
  end.

#[global] Instance outcome_ret : MRet outcome := fun A a => Ret a.

(** [for (x : l) body], threading the loop-carried state. *)
Fixpoint foldM {S A} (body : S -> A -> outcome S) (l : list A) (s : S) : outcome S :=
  match l with
  | [] => Ret s
  | x :: l' => s' ← body s x; foldM body l' s'
  end.

Definition throw_oor {A} (msg : string) : outcome A := Throw (mk_exn out_of_range msg).

(** ** Machine integers *)

Definition u16_max : Z := 65535.
Definition u32 (x : Z) : Z := x mod 2 ^ 32.
Definition u64 (x : Z) : Z := x mod 2 ^ 64.
Definition INT32_MAX : Z := 2147483647.
Definition INT32_MIN : Z := -2147483648.

(** [a + b] on [int32_t] (after integer promotion [int] is 32 bits wide). *)
Definition add_i32 (a b : Z) : outcome Z :=
  let r := a + b in
  if (INT32_MIN <=? r) && (r <=? INT32_MAX) then Ret r else Undefined.

(** ** Unchecked array and [std::vector] accesses *)

Definition load {A} (buf : list A) (k : Z) : outcome A :=
  if k <? 0 then Undefined else
  match buf !! Z.to_nat k with
  | Some v => Ret v
  | None => Undefined
  end.

Definition store {A} (buf : list A) (k : Z) (v : A) : outcome (list A) :=
  if (k <? 0) || (Z.of_nat (length buf) <=? k) then Undefined
  else Ret (<[Z.to_nat k := v]> buf).

(** ** Matrix store: [graph::AdjMat] *)

Module AdjMat.

Record t : Type := mk { n_ : Z; data_ : list Z }.

(** [AdjMat(uint32_t n)]: [n * n] is a [uint32_t] product, the buffer is
    value-initialised. *)
Definition alloc_len (n : Z) : Z := u32 (n * n).

Definition make (n : Z) : t :=
  mk n (replicate (Z.to_nat (alloc_len n)) 0).

Definition size (m : t) : Z := n_ m.
Definition raw (m : t) : list Z := data_ m.

Definition check_bounds (m : t) (i : Z) : bool :=
  if i >=? n_ m then false else true.

(** [i * n_ + j] with all three operands [uint32_t]. *)
Definition offset (m : t) (i j : Z) : Z := u32 (i * n_ m + j).

Definition msg_bounds : string := "Index out of bounds".
Definition msg_diag : string := "Should not modify diagonal".

(** [uint16_t operator()(uint32_t i, uint32_t j) const] *)
Definition read (m : t) (i j : Z) : outcome Z :=
  if negb (check_bounds m i && check_bounds m j) then throw_oor msg_bounds
  else load (data_ m) (offset m i j).

(** Mutating members return the outcome together with the object as the
    call leaves it. *)
Definition set (m : t) (i j w : Z) : outcome unit * t :=
  if negb (check_bounds m i && check_bounds m j) then (throw_oor msg_bounds, m)
  else if i =? j then (throw_oor msg_diag, m)
  else match store (data_ m) (offset m i j) w with
       | Ret d => (Ret tt, mk (n_ m) d)
       | Throw e => (Throw e, m)
       | Undefined => (Undefined, m)
       | OutOfFuel => (OutOfFuel, m)
       end.

Definition bi_set (m : t) (i j w : Z) : outcome unit * t :=
  if negb (check_bounds m i && check_bounds m j) then (throw_oor msg_bounds, m)
  else if i =? j then (throw_oor msg_diag, m)
  else match store (data_ m) (offset m i j) w with
       | Ret d =>
           match store d (offset m j i) w with
           | Ret d' => (Ret tt, mk (n_ m) d')
           | Throw e => (Throw e, mk (n_ m) d)
           | Undefined => (Undefined, mk (n_ m) d)
           | OutOfFuel => (OutOfFuel, mk (n_ m) d)
           end
       | Throw e => (Throw e, m)
       | Undefined => (Undefined, m)
       | OutOfFuel => (OutOfFuel, m)
       end.

(** The representation the data model describes: an [n]x[n] buffer of
    16-bit weights, which is also what the constructor allocated. *)
Record wf (m : t) : Prop := {
  wf_n : 0 <= n_ m < 2 ^ 32;
  wf_alloc : Z.of_nat (length (data_ m)) = alloc_len (n_ m);
  wf_square : Z.of_nat (length (data_ m)) = n_ m * n_ m;
  wf_cells : Forall (fun w => 0 <= w <= u16_max) (data_ m)
}.

(** The invariant as a test. *)
Definition wfb (m : t) : bool :=
  (0 <=? n_ m) && (n_ m <? 2 ^ 32) &&
  (Z.of_nat (length (data_ m)) =? alloc_len (n_ m)) &&
  (Z.of_nat (length (data_ m)) =? n_ m * n_ m) &&
  forallb (fun w => (0 <=? w) && (w <=? u16_max)) (data_ m).

(** Total view of a cell, used to state properties of the algorithms. *)
Definition cell (m : t) (i j : Z) : Z :=
  default 0 (data_ m !! Z.to_nat (i * n_ m + j)).

(** The matrices of size [n] the public interface can produce: the
    constructor followed by successful [set] and [bi_set] calls (whose index
    arguments are [uint32_t] values). *)
Inductive built (n : Z) : t -> Prop :=
| built_make : built n (make n)
| built_set m i j w :
    built n m -> 0 <= i -> 0 <= j -> (set m i j w).1 = Ret tt ->
    built n (set m i j w).2
| built_bi_set m i j w :
    built n m -> 0 <= i -> 0 <= j -> (bi_set m i j w).1 = Ret tt ->
    built n (bi_set m i j w).2.

(** The shape of a matrix that no product has wrapped on. *)
Definition diag_inv (n : Z) (m : t) : Prop :=
  n_ m = n /\ Z.of_nat (length (data_ m)) = n * n /\
  forall i, 0 <= i < n -> data_ m !! Z.to_nat (i * n + i) = Some 0.

End AdjMat.


(** ** Algorithm suite: [graph::algorithms] *)

Module Algorithms.

Definition NO_EDGE : Z := 0.
Definition INF : Z := INT32_MAX.
Definition msg_node : string := "Node index out of bounds".

(** *** [ColIter]: a column read from row [0] to row [stride - 1], the
    excluded row reading as [NO_EDGE] *)

Record ColIter : Type := mkColIter {
  base_ : list Z; stride_ : Z; col_ : Z; exclude_ : Z; i_ : Z
}.

Definition ColIter_new (base : list Z) (stride fixed_col exclude : Z) : ColIter :=
  mkColIter base stride fixed_col exclude 0.

Definition ColIter_neq (a b : ColIter) : bool := negb (i_ a =? i_ b).

Definition ColIter_incr (it : ColIter) : ColIter :=
  mkColIter (base_ it) (stride_ it) (col_ it) (exclude_ it) (i_ it + 1).

(** [operator*]; the index is a [size_t] expression. *)
Definition ColIter_deref (it : ColIter) : outcome Z :=
  if i_ it =? exclude_ it then Ret NO_EDGE
  else load (base_ it) (u64 (i_ it * stride_ it + col_ it)).

Definition ColIter_begin (it : ColIter) : ColIter := it.

Definition ColIter_end (it : ColIter) : ColIter :=
  mkColIter (base_ it) (stride_ it) (col_ it) (exclude_ it) (stride_ it).

(** [std::count_if(first, last, pred)] over a [ColIter] range; [pred] is a
    lambda that updates captured state of type [S]. *)
Fixpoint col_count_if {S} (fuel : nat) (first last : ColIter)
    (pred : S -> Z -> outcome (bool * S)) (st : S) (ret : Z) : outcome (Z * S) :=
  if negb (ColIter_neq first last) then Ret (ret, st)
  else match fuel with
       | O => OutOfFuel
       | Datatypes.S fuel' =>
           v ← ColIter_deref first;
           '(b, st') ← pred st v;
           col_count_if fuel' (ColIter_incr first) last pred st'
             (if b : bool then ret + 1 else ret)
       end.

(** [std::count_if(p, q, pred)] over the pointer range of buffer offsets
    [lo, lo + 1, ..., hi - 1]. *)
Definition ptr_count_if {S} (data : list Z) (lo hi : Z)
    (pred : S -> Z -> outcome (bool * S)) (st : S) : outcome (Z * S) :=
  foldM (fun '(ret, st) p =>
           v ← load data p;
           '(b, st') ← pred st v;
           Ret (if b : bool then ret + 1 else ret, st'))
        (seqZ lo (hi - lo)) (0, st).

(** *** Q3: triangle counting *)

(** The lambda of the undirected scan; [k] is the captured column. *)
Definition tri_pred_undirected (data : list Z) (row_i : Z) (k val_jk : Z)
    : outcome (bool * Z) :=
  r ← load data (row_i + k);
  Ret (negb (r =? NO_EDGE) && negb (val_jk =? NO_EDGE), k + 1).

(** The lambda of the directed scan. *)
Definition tri_pred_directed (data : list Z) (row_j i j : Z) (k v_k_i : Z)
    : outcome (bool * Z) :=
  if (k =? i) || (k =? j) then Ret (false, k + 1)
  else r ← load data (row_j + k);
       Ret (negb (r =? NO_EDGE) && negb (v_k_i =? NO_EDGE), k + 1).

Definition tri_undirected_j (m : AdjMat.t) (n i : Z) (count j : Z) : outcome Z :=
  mij ← AdjMat.read m (u32 i) (u32 j);
  if mij =? NO_EDGE then Ret count
  else
    let data := AdjMat.raw m in
    let row_i := i * n in
    let row_j := j * n in
    let k := j + 1 in
    '(c, _) ← ptr_count_if data (row_j + k) (row_j + n)
                 (tri_pred_undirected data row_i) k;
    Ret (u64 (count + c)).

Definition tri_directed_j (m : AdjMat.t) (n i : Z) (count j : Z) : outcome Z :=
  if i =? j then Ret count
  else
    mij ← AdjMat.read m (u32 i) (u32 j);
    if mij =? NO_EDGE then Ret count
    else
      let data := AdjMat.raw m in
      let row_j := j * n in
      let col := ColIter_new data n i i in
      '(c, _) ← col_count_if (Z.to_nat n) (ColIter_begin col) (ColIter_end col)
                   (tri_pred_directed data row_j i j) 0 0;
      Ret (u64 (count + c)).

(** The scan sum of the directed branch, before [count /= 3]. *)
Definition tri_directed_raw (m : AdjMat.t) : outcome Z :=
  let n := AdjMat.size m in
  foldM (fun count i => foldM (tri_directed_j m n i) (seqZ 0 n) count) (seqZ 0 n) 0.

Definition count_triangles (m : AdjMat.t) (directed : bool) : outcome Z :=
  let n := AdjMat.size m in
  if negb directed then
    foldM (fun count i =>
             foldM (tri_undirected_j m n i) (seqZ (i + 1) (n - (i + 1))) count)
          (seqZ 0 n) 0
  else
    count ← tri_directed_raw m;
    Ret (count / 3).

(** *** Q4: shortest paths *)

(** [std::priority_queue<pair<int32_t, uint32_t>, ..., std::greater<>>]: a
    bag of pairs from which [top]/[pop] take the least pair. *)
Definition pair_leb (a b : Z * Z) : bool :=
  (a.1 <? b.1) || ((a.1 =? b.1) && (a.2 <=? b.2)).

Fixpoint pq_extract (x : Z * Z) (l : list (Z * Z)) : (Z * Z) * list (Z * Z) :=
  match l with
  | [] => (x, [])
  | y :: l' =>
      if pair_leb x y
      then let '(mn, rest) := pq_extract x l' in (mn, y :: rest)
      else let '(mn, rest) := pq_extract y l' in (mn, x :: rest)
  end.

Definition bfs_relax (m : AdjMat.t) (u : Z) (st : list Z * list Z) (v : Z)
    : outcome (list Z * list Z) :=
  let '(dist, q) := st in
  if u =? v then Ret st
  else
    w ← AdjMat.read m u v;
    if w =? NO_EDGE then Ret st
    else
      dv ← load dist v;
      if dv =? INF then
        du ← load dist u;
        d' ← add_i32 du 1;
        dist' ← store dist v d';
        Ret (dist', q ++ [v])
      else Ret st.

Fixpoint bfs_loop (fuel : nat) (m : AdjMat.t) (n : Z) (dist : list Z) (q : list Z)
    : outcome (list Z) :=
  match q with
  | [] => Ret dist
  | u :: q' =>
      match fuel with
      | O => OutOfFuel
      | S fuel' =>
          '(dist', q'') ← foldM (bfs_relax m u) (seqZ 0 n) (dist, q');
          bfs_loop fuel' m n dist' q''
      end
  end.

Definition dijkstra_relax (m : AdjMat.t) (u : Z) (st : list Z * list (Z * Z)) (v : Z)
    : outcome (list Z * list (Z * Z)) :=
  let '(dist, pq) := st in
  if u =? v then Ret st
  else
    w ← AdjMat.read m u v;
    if w =? NO_EDGE then Ret st
    else
      du ← load dist u;
      w' ← AdjMat.read m u v;
      alt ← add_i32 du w';
      dv ← load dist v;
      if alt <? dv then
        dist' ← store dist v alt;
        Ret (dist', (alt, v) :: pq)
      else Ret st.

Fixpoint dijkstra_loop (fuel : nat) (m : AdjMat.t) (n : Z) (dist : list Z)
    (pq : list (Z * Z)) : outcome (list Z) :=
  match pq with
  | [] => Ret dist
  | x :: l =>
      match fuel with
      | O => OutOfFuel
      | S fuel' =>
          let '((d, u), pq') := pq_extract x l in
          du ← load dist u;
          if d >? du then dijkstra_loop fuel' m n dist pq'
          else
            '(dist', pq'') ← foldM (dijkstra_relax m u) (seqZ 0 n) (dist, pq');
            dijkstra_loop fuel' m n dist' pq''
      end
  end.

(** Loop bounds of the model: a breadth-first search dequeues every node at
    most once; Dijkstra's queue receives at most [n - 1] entries per settled
    node. *)
Definition bfs_fuel (n : Z) : nat := Z.to_nat n.
Definition dijkstra_fuel (n : Z) : nat := Z.to_nat (n * n + 1).

Definition shortest_path (m : AdjMat.t) (start : Z) (weighed : bool) : outcome (list Z) :=
  let n := AdjMat.size m in
  if start >=? n then throw_oor msg_node
  else
    dist ← store (replicate (Z.to_nat n) INF) start 0;
    if negb weighed then bfs_loop (bfs_fuel n) m n dist [start]
    else dijkstra_loop (dijkstra_fuel n) m n dist [(0, start)].

(** *** Helper queries *)

Definition get_from (m : AdjMat.t) (node : Z) : outcome (list Z) :=
  let n := AdjMat.size m in
  if node >=? n then throw_oor msg_node
  else
    let row := u32 (node * n) in
    foldM (fun result j =>
             if j =? node then Ret result
             else v ← load (AdjMat.raw m) (row + j);
                  if v =? NO_EDGE then Ret result else Ret (result ++ [j]))
          (seqZ 0 n) [].

Definition get_to (m : AdjMat.t) (node : Z) : outcome (list Z) :=
  let n := AdjMat.size m in
  if node >=? n then throw_oor msg_node
  else
    foldM (fun result i =>
             if i =? node then Ret result
             else v ← load (AdjMat.raw m) (u32 (i * n + node));
                  if v =? NO_EDGE then Ret result else Ret (result ++ [i]))
          (seqZ 0 n) [].

Definition get_neighbours (m : AdjMat.t) (node : Z) (bi : bool) : outcome (list Z) :=
  let n := AdjMat.size m in
  if node >=? n then throw_oor msg_node
  else
    let data := AdjMat.raw m in
    let row := u32 (node * n) in
    foldM (fun result i =>
             if i =? node then Ret result
             else if bi then
               v ← load data (row + i);
               if v =? NO_EDGE then Ret result else Ret (result ++ [i])
             else
               v ← load data (row + i);
               if v =? NO_EDGE then
                 v' ← load data (u32 (i * n + node));
                 if v' =? NO_EDGE then Ret result else Ret (result ++ [i])
               else Ret (result ++ [i]))
          (seqZ 0 n) [].

(** *** Specification of the counts *)

Definition edge (m : AdjMat.t) (i j : Z) : bool :=
  negb (AdjMat.cell m i j =? NO_EDGE).

(** All index triples below [n]. *)
Definition triples (n : Z) : list (Z * Z * Z) :=
  flat_map (fun i => flat_map (fun j => map (fun k => (i, j, k)) (seqZ 0 n)) (seqZ 0 n))
           (seqZ 0 n).

(** [i < j < k] with the upper-triangle entries (i,j), (i,k), (j,k) set. *)
Definition is_triangle (m : AdjMat.t) (t : Z * Z * Z) : bool :=
  let '(i, j, k) := t in
  (i <? j) && (j <? k) && edge m i j && edge m i k && edge m j k.

(** Distinct [i], [j], [k] with edges [i -> j], [j -> k], [k -> i]: one of
    the three ways to walk a directed 3-cycle. *)
Definition is_cycle_walk (m : AdjMat.t) (t : Z * Z * Z) : bool :=
  let '(i, j, k) := t in
  negb (i =? j) && edge m i j &&
  (negb (k =? i) && negb (k =? j) && edge m j k && edge m k i).

(** The walk of a directed 3-cycle that starts at its least node: one per
    cycle. *)
Definition is_cycle (m : AdjMat.t) (t : Z * Z * Z) : bool :=
  let '(i, j, k) := t in
  is_cycle_walk m t && (i <? j) && (i <? k).

Definition rotate (t : Z * Z * Z) : Z * Z * Z :=
  let '(i, j, k) := t in (j, k, i).

Definition count_of (p : Z * Z * Z -> bool) (n : Z) : Z :=
  Z.of_nat (length (List.filter p (triples n))).

(** Sums over index lists. *)
Definition Zsum (f : Z -> Z) (l : list Z) : Z :=
  foldr (fun x s => f x + s) 0 l.

Definition sum3 (n : Z) (F : Z -> Z -> Z -> Z) : Z :=
  Zsum (fun i => Zsum (fun j => Zsum (fun k => F i j k) (seqZ 0 n)) (seqZ 0 n)) (seqZ 0 n).

(** The node sets the helper queries are specified by. *)
Definition out_edge (m : AdjMat.t) (node j : Z) : bool :=
  negb (j =? node) && negb (AdjMat.cell m node j =? NO_EDGE).

Definition in_edge (m : AdjMat.t) (node i : Z) : bool :=
  negb (i =? node) && negb (AdjMat.cell m i node =? NO_EDGE).

End Algorithms.

(** *** Q5: betweenness centrality (Brandes) *)

Module Brandes.
Import Algorithms.

(** The per-source working set: [dist], [preds], [sigma], [delta], [stack]
    (top of the stack first). *)
Record work : Type := mkWork {
  dist : list Z;
  preds : list (list Z);
  sigma : list Z;
  delta : list float;
  stack : list Z
}.

Definition to_double (x : Z) : float := PrimFloat.of_uint63 (Uint63.of_Z x).

Definition init_work (n s : Z) : outcome work :=
  let k := Z.to_nat n in
  d ← store (replicate k INF) s 0;
  sg ← store (replicate k 0) s 1;
  Ret (mkWork d (replicate k []) sg (replicate k 0%float) []).

(** [sigma[w] += sigma[v]; preds[w].push_back(v);] *)
Definition add_pred (wk : work) (v w : Z) : outcome work :=
  sw ← load (sigma wk) w;
  sv ← load (sigma wk) v;
  sg ← store (sigma wk) w (u32 (sw + sv));
  pw ← load (preds wk) w;
  ps ← store (preds wk) w (pw ++ [v]);
  Ret (mkWork (dist wk) ps sg (delta wk) (stack wk)).

Definition bfs_visit (m : AdjMat.t) (v : Z) (st : work * list Z) (w : Z)
    : outcome (work * list Z) :=
  let '(wk, q) := st in
  if v =? w then Ret st
  else
    e ← AdjMat.read m v w;
    if e =? NO_EDGE then Ret st
    else
      dw ← load (dist wk) w;
      '(wk1, q1) ←
        (if dw =? INF then
           dv ← load (dist wk) v;
           d' ← add_i32 dv 1;
           ds ← store (dist wk) w d';
           Ret (mkWork ds (preds wk) (sigma wk) (delta wk) (stack wk), q ++ [w])
         else Ret (wk, q));
      dw' ← load (dist wk1) w;
      dv ← load (dist wk1) v;
      d' ← add_i32 dv 1;
      if dw' =? d' then
        wk2 ← add_pred wk1 v w;
        Ret (wk2, q1)
      else Ret (wk1, q1).

Definition push_stack (wk : work) (v : Z) : work :=
  mkWork (dist wk) (preds wk) (sigma wk) (delta wk) (v :: stack wk).

Fixpoint bfs_phase (fuel : nat) (m : AdjMat.t) (n : Z) (wk : work) (q : list Z)
    : outcome work :=
  match q with
  | [] => Ret wk
  | v :: q' =>
      match fuel with
      | O => OutOfFuel
      | S fuel' =>
          '(wk', q'') ← foldM (bfs_visit m v) (seqZ 0 n) (push_stack wk v, q');
          bfs_phase fuel' m n wk' q''
      end
  end.

Definition dijkstra_visit (m : AdjMat.t) (v : Z) (st : work * list (Z * Z)) (w : Z)
    : outcome (work * list (Z * Z)) :=
  let '(wk, pq) := st in
  if v =? w then Ret st
  else
    e ← AdjMat.read m v w;
    if e =? NO_EDGE then Ret st
    else
      weight ← AdjMat.read m v w;
      dv ← load (dist wk) v;
      alt ← add_i32 dv weight;
      dw ← load (dist wk) w;
      if alt <? dw then
        ds ← store (dist wk) w alt;
        sv ← load (sigma wk) v;
        sg ← store (sigma wk) w sv;
        ps0 ← store (preds wk) w [];
        pw ← load ps0 w;
        ps ← store ps0 w (pw ++ [v]);
        Ret (mkWork ds ps sg (delta wk) (stack wk), (alt, w) :: pq)
      else
        dw' ← load (dist wk) w;
        if alt =? dw' then
          wk' ← add_pred wk v w;
          Ret (wk', pq)
        else Ret st.

Fixpoint dijkstra_phase (fuel : nat) (m : AdjMat.t) (n : Z) (wk : work)
    (pq : list (Z * Z)) : outcome work :=
  match pq with
  | [] => Ret wk
  | x :: l =>
      match fuel with
      | O => OutOfFuel
      | S fuel' =>
          let '((d, v), pq') := pq_extract x l in
          dv ← load (dist wk) v;
          if d >? dv then dijkstra_phase fuel' m n wk pq'
          else
            '(wk', pq'') ← foldM (dijkstra_visit m v) (seqZ 0 n) (push_stack wk v, pq');
            dijkstra_phase fuel' m n wk' pq''
      end
  end.

(** [delta[v] += (double(sigma[v]) / sigma[w]) * (1.0 + delta[w]);] *)
Definition back_edge (sg : list Z) (w : Z) (dl : list float) (v : Z)
    : outcome (list float) :=
  dv ← load dl v;
  sv ← load sg v;
  sw ← load sg w;
  dw ← load dl w;
  store dl v (dv + (to_double sv / to_double sw) * (1 + dw))%float.

(** The accumulation loop: pops [w], credits its predecessors, and adds
    [delta[w]] to the centrality of [w] unless [w] is the source. *)
Fixpoint accumulate (s : Z) (pr : list (list Z)) (sg : list Z) (stk : list Z)
    (st : list float * list float) : outcome (list float * list float) :=
  match stk with
  | [] => Ret st
  | w :: stk' =>
      let '(dl, centrality) := st in
      pw ← load pr w;
      dl' ← foldM (back_edge sg w) pw dl;
      if negb (w =? s) then
        cw ← load centrality w;
        dw ← load dl' w;
        c' ← store centrality w (cw + dw)%float;
        accumulate s pr sg stk' (dl', c')
      else accumulate s pr sg stk' (dl', centrality)
  end.

(** The traversal from one source. *)
Definition traverse (m : AdjMat.t) (weighed : bool) (s : Z) : outcome work :=
  let n := AdjMat.size m in
  wk ← init_work n s;
  if negb weighed then bfs_phase (bfs_fuel n) m n wk [s]
  else dijkstra_phase (dijkstra_fuel n) m n wk [(0, s)].

(** One round of the outer loop. *)
Definition source_round (m : AdjMat.t) (weighed : bool) (centrality : list float)
    (s : Z) : outcome (list float) :=
  wk ← traverse m weighed s;
  '(_, c') ← accumulate s (preds wk) (sigma wk) (stack wk) (delta wk, centrality);
  Ret c'.

(** The centrality vector when the outer loop over the sources is left. *)
Definition accumulate_sources (m : AdjMat.t) (weighed : bool) : outcome (list float) :=
  let n := AdjMat.size m in
  foldM (source_round m weighed) (seqZ 0 n) (replicate (Z.to_nat n) 0%float).


(** [val / 2.0] *)
Definition half (x : float) : float := (x / 2)%float.

(** [for (auto &val : centrality) val /= 2.0;] *)
Definition halve_all (c : list float) : outcome (list float) :=
  foldM (fun c i => x ← load c i; store c i (x / 2)%float)
        (seqZ 0 (Z.of_nat (length c))) c.

Definition betweenness_centrality (m : AdjMat.t) (weighed : bool) : outcome (list float) :=
  c ← accumulate_sources m weighed;
  halve_all c.

End Brandes.

(** ** Graph registry: [GraphManager] *)

Module GraphManager.

(** [struct line { uint16_t u, v, weight; }] *)
Record line : Set := mkLine { u : Z; v : Z; weight : Z }.

Record t : Type := mk {
  registry_ : gmap Z AdjMat.t;
  next_id_ : Z
}.

Definition msg_invalid_id : string := "Invalid graph ID".

(** The state of [GraphManager::instance()] when the process starts. *)
Definition init : t := mk ∅ 1.

Definition create (g : t) (size : Z) : outcome Z * t :=
  let id := next_id_ g in
  (Ret id, mk (<[id := AdjMat.make size]> (registry_ g)) (u64 (id + 1))).

Definition exists_ (g : t) (id : Z) : bool :=
  bool_decide (is_Some (registry_ g !! id)).

(** One edge write on a matrix, directed or bidirectional. *)
Definition write_line (mat : AdjMat.t) (l : line) (bi : bool) : outcome unit * AdjMat.t :=
  if bi then AdjMat.bi_set mat (u l) (v l) (weight l)
  else AdjMat.set mat (u l) (v l) (weight l).

Definition set (g : t) (id : Z) (l : line) (bi : bool) : outcome unit * t :=
  match registry_ g !! id with
  | None => (throw_oor msg_invalid_id, g)
  | Some mat =>
      let '(r, mat') := write_line mat l bi in
      (r, mk (<[id := mat']> (registry_ g)) (next_id_ g))
  end.

(** The loop of [bash_set]: the first failing write ends it. *)
Fixpoint write_lines (mat : AdjMat.t) (lines : list line) (bi : bool)
    : outcome unit * AdjMat.t :=
  match lines with
  | [] => (Ret tt, mat)
  | l :: rest =>
      match write_line mat l bi with
      | (Ret _, mat') => write_lines mat' rest bi
      | (r, mat') => (r, mat')
      end
  end.

Definition bash_set (g : t) (id : Z) (lines : list line) (bi : bool) : outcome unit * t :=
  match registry_ g !! id with
  | None => (throw_oor msg_invalid_id, g)
  | Some mat =>
      let '(r, mat') := write_lines mat lines bi in
      (r, mk (<[id := mat']> (registry_ g)) (next_id_ g))
  end.

Definition destroy (g : t) (id : Z) : outcome bool * t :=
  (Ret (bool_decide (is_Some (registry_ g !! id))),
   mk (delete id (registry_ g)) (next_id_ g)).

Definition atexit (g : t) : t := mk ∅ (next_id_ g).

(** The calls that change the registry, and a run of them from a state,
    collecting the handles that [create] returned, oldest first. *)
Inductive op : Type :=
| Create (size : Z)
| Set_ (id : Z) (l : line) (bi : bool)
| BashSet (id : Z) (lines : list line) (bi : bool)
| Destroy (id : Z)
| AtExit.

Definition step (g : t) (o : op) : t * list Z :=
  match o with
  | Create size => let '(r, g') := create g size in
                   (g', match r with Ret id => [id] | _ => [] end)
  | Set_ id l bi => ((set g id l bi).2, [])
  | BashSet id ls bi => ((bash_set g id ls bi).2, [])
  | Destroy id => ((destroy g id).2, [])
  | AtExit => (atexit g, [])
  end.

Fixpoint run (g : t) (ops : list op) : t * list Z :=
  match ops with
  | [] => (g, [])
  | o :: rest =>
      let '(g1, hs1) := step g o in
      let '(g2, hs2) := run g1 rest in
      (g2, hs1 ++ hs2)
  end.

Definition is_create (o : op) : bool :=
  match o with Create _ => true | _ => false end.

(** Number of [create] calls in a run. *)
Definition creates (ops : list op) : Z :=
  Z.of_nat (length (List.filter is_create ops)).

End GraphManager.

(** ** Specification and invariants of the traversals *)

Module Paths.
Import Algorithms.

(** Total view of a vector element. *)
Definition at_ (l : list Z) (v : Z) : Z := default 0 (l !! Z.to_nat v).

Definition node (m : AdjMat.t) (v : Z) : Prop := 0 <= v < AdjMat.n_ m.

(** The edges a traversal follows: off-diagonal non-sentinel entries. *)
Definition arc (m : AdjMat.t) (u v : Z) : Prop :=
  node m u /\ node m v /\ u <> v /\ edge m u v = true.

(** [v] can be reached from [s] along edges. *)
Inductive reach (m : AdjMat.t) (s : Z) : Z -> Prop :=
| reach_here : reach m s s
| reach_arc u v : reach m s u -> arc m u v -> reach m s v.

(** Number of nodes still at the sentinel distance. *)
Definition unseen (dist : list Z) : Z :=
  Z.of_nat (length (List.filter (fun d => d =? INF) dist)).

(** What a distance vector of a graph with unit weights has to satisfy;
    there is one such vector (see [unit_distances_unique]). *)
Record unit_distances (m : AdjMat.t) (start : Z) (d : list Z) : Prop := {
  ud_len : Z.of_nat (length d) = AdjMat.n_ m;
  ud_start : at_ d start = 0;
  ud_range : forall v, node m v -> 0 <= at_ d v <= INF;
  ud_arc : forall u v, arc m u v -> at_ d u <> INF -> at_ d v <= at_ d u + 1;
  ud_pred : forall v, node m v -> v <> start -> at_ d v <> INF ->
            exists u, arc m u v /\ at_ d u <> INF /\ at_ d v = at_ d u + 1
}.

(** The same for weighted edges: what Dijkstra's algorithm establishes. *)
Record distances (m : AdjMat.t) (start : Z) (d : list Z) : Prop := {
  wd_len : Z.of_nat (length d) = AdjMat.n_ m;
  wd_start : at_ d start = 0;
  wd_range : forall v, node m v -> 0 <= at_ d v <= INF;
  wd_arc : forall u v, arc m u v -> at_ d u <> INF ->
           at_ d v <= at_ d u + AdjMat.cell m u v;
  wd_pred : forall v, node m v -> v <> start -> at_ d v <> INF ->
            exists u, arc m u v /\ at_ d u <> INF /\
                      at_ d v = at_ d u + AdjMat.cell m u v;
  wd_reach : forall v, node m v -> at_ d v <> INF -> reach m start v
}.

(** Invariant of the breadth-first loop. [P] are the nodes whose row has
    been scanned, [cur] the node being scanned (if any) and [seen] the
    columns scanned so far; the queue is [qa ++ qb], [qa] at distance [D] and
    [qb] at distance [D + 1]; [pops] counts the dequeued nodes. *)
Record bfs_inv (m : AdjMat.t) (start : Z) (P cur seen qa qb : list Z)
    (D pops : Z) (dist : list Z) : Prop := {
  bi_len : Z.of_nat (length dist) = AdjMat.n_ m;
  bi_node : node m start;
  bi_start : at_ dist start = 0;
  bi_range : forall v, node m v -> at_ dist v = INF \/ 0 <= at_ dist v <= pops;
  bi_D : 0 <= D /\ D + Z.of_nat (length cur) <= pops;
  bi_pops : pops + Z.of_nat (length qa) + Z.of_nat (length qb) + unseen dist = AdjMat.n_ m;
  bi_qa : forall x, In x (cur ++ qa) -> node m x /\ at_ dist x = D;
  bi_qb : forall x, In x qb -> node m x /\ at_ dist x = D + 1;
  bi_level : forall v, node m v -> at_ dist v <> INF -> at_ dist v <= D + 1;
  bi_P : forall p, In p P -> node m p /\ at_ dist p <> INF;
  bi_closed : forall p v, In p P -> arc m p v ->
              at_ dist v <> INF /\ at_ dist v <= at_ dist p + 1;
  bi_cur : forall u v, In u cur -> In v seen -> arc m u v ->
           at_ dist v <> INF /\ at_ dist v <= at_ dist u + 1;
  bi_cover : forall v, node m v -> at_ dist v <> INF ->
             In v P \/ In v cur \/ In v qa \/ In v qb;
  bi_reach : forall v, node m v -> at_ dist v <> INF -> reach m start v;
  bi_pred : forall v, node m v -> v <> start -> at_ dist v <> INF ->
            exists u, arc m u v /\ at_ dist u <> INF /\ at_ dist v = at_ dist u + 1;
  bi_P_le : forall p, In p P -> at_ dist p <= D;
  bi_sorted : StronglySorted (fun a b => at_ dist b <= at_ dist a) P
}.

(** Invariant of Dijkstra's loop. [E] are the settled nodes (their row has
    been scanned), [cur] the node being scanned and [seen] the columns
    scanned so far, [D] the key of the last settled node; [W] bounds the
    weights and [phi] the number of queue entries still to be popped. *)
Record dij_inv (m : AdjMat.t) (start W : Z) (E cur seen : list Z)
    (pq : list (Z * Z)) (D phi : Z) (dist : list Z) : Prop := {
  di_len : Z.of_nat (length dist) = AdjMat.n_ m;
  di_node : node m start;
  di_start : at_ dist start = 0;
  di_range : forall v, node m v -> 0 <= at_ dist v <= INF;
  di_D : 0 <= D <= Z.of_nat (length E) * W;
  di_pq : forall k x, In (k, x) pq ->
          node m x /\ at_ dist x <= k /\ D <= k /\
          k <= Z.of_nat (length (cur ++ E)) * W;
  di_nodup : NoDup pq;
  di_set : forall x, In x E -> node m x /\ at_ dist x <= D;
  di_cur_at : forall x, In x cur -> node m x /\ at_ dist x = D;
  di_settled : NoDup (cur ++ E);
  di_stale : forall x k, In x (cur ++ E) -> In (k, x) pq -> at_ dist x < k;
  di_closed : forall x v, In x E -> arc m x v ->
              at_ dist v <= at_ dist x + AdjMat.cell m x v;
  di_cur : forall x v, In x cur -> In v seen -> arc m x v ->
           at_ dist v <= at_ dist x + AdjMat.cell m x v;
  di_cover : forall v, node m v -> at_ dist v <> INF ->
             In v (cur ++ E) \/ In (at_ dist v, v) pq;
  di_reach : forall v, node m v -> at_ dist v <> INF -> reach m start v;
  di_pred : forall v, node m v -> v <> start -> at_ dist v <> INF ->
            exists x, In x (cur ++ E) /\ arc m x v /\
                      at_ dist v = at_ dist x + AdjMat.cell m x v;
  di_phi : Z.of_nat (length pq)
           + AdjMat.n_ m * (AdjMat.n_ m - Z.of_nat (length (cur ++ E)))
           + Z.of_nat (length cur) * (AdjMat.n_ m - Z.of_nat (length seen)) <= phi;
  di_sorted : StronglySorted (fun a b => at_ dist b <= at_ dist a) E
}.

(** The [n]x[n] matrix with entry [f i j] at [(i, j)]. *)
Definition tabulate (n : Z) (f : Z -> Z -> Z) : AdjMat.t :=
  AdjMat.mk n ((fun k => f (k / n) (k mod n)) <$> seqZ 0 (n * n)).

(** The directed ring 0 -> 1 -> ... -> n-1 -> 0 whose edges all have the
    largest weight. *)
Definition heavy_ring (n : Z) : AdjMat.t :=
  tabulate n (fun i j => if (j =? i + 1) || ((i =? n - 1) && (j =? 0))
                         then u16_max else 0).

(** The distance vector of Dijkstra's algorithm on [heavy_ring n] when the
    nodes [0 .. k] have been reached. *)
Fixpoint ring_dist (n : Z) (k : nat) : list Z :=
  match k with
  | O => <[Z.to_nat 0 := 0]> (replicate (Z.to_nat n) INF)
  | S k' => <[Z.to_nat (Z.of_nat k) := Z.of_nat k * u16_max]> (ring_dist n k')
  end.

(** Every weight of the matrix is at most [W]. *)
Definition weights_le (m : AdjMat.t) (W : Z) : Prop :=
  forall i j, node m i -> node m j -> AdjMat.cell m i j <= W.

(** Every edge of the matrix has weight 1. *)
Definition unit_weights (m : AdjMat.t) : Prop :=
  forall i j, node m i -> node m j ->
    AdjMat.cell m i j <> NO_EDGE -> AdjMat.cell m i j = 1.

Definition unit_weightsb (m : AdjMat.t) : bool :=
  forallb (fun w => (w =? NO_EDGE) || (w =? 1)) (AdjMat.data_ m).

End Paths.

(** ** The non-const element access of [graph::AdjMat] *)

Module AdjMatRef.
Import AdjMat.

Definition msg_nonconst : string := "Diagonal not available in non-const mode".

(** [uint16_t &operator()(uint32_t i, uint32_t j)]: the reference is the
    buffer offset of the element it is bound to; binding a reference to an
    element outside of the allocation has no defined behaviour. *)
Definition at_ref (m : t) (i j : Z) : outcome Z :=
  if negb (check_bounds m i && check_bounds m j) then throw_oor msg_bounds
  else if i =? j then throw_oor msg_nonconst
  else
    let k := offset m i j in
    if (k <? 0) || (Z.of_nat (length (data_ m)) <=? k) then Undefined else Ret k.

(** [m(i, j) = w]: an assignment through the reference. *)
Definition assign (m : t) (i j w : Z) : outcome unit * t :=
  match at_ref m i j with
  | Ret k =>
      match store (data_ m) k w with
      | Ret d => (Ret tt, mk (n_ m) d)
      | Throw e => (Throw e, m)
      | Undefined => (Undefined, m)
      | OutOfFuel => (OutOfFuel, m)
      end
  | Throw e => (Throw e, m)
  | Undefined => (Undefined, m)
  | OutOfFuel => (OutOfFuel, m)
  end.

End AdjMatRef.

(** ** Q2: degrees, degree statistics and isolated nodes *)

Module Degrees.
Import Algorithms.

(** [struct degree { uint32_t out; uint32_t in; }] *)
Record degree : Set := mkDegree { out : Z; in_ : Z }.

(** [struct stats { double avg; uint32_t min_deg; uint32_t max_deg;
    double edge_density; }] *)
Record stats : Set := mkStats {
  avg : float; min_deg : Z; max_deg : Z; edge_density : float
}.

(** The lambda [[](uint16_t val) { return val != NO_EDGE; }]; it captures
    nothing. *)
Definition is_edge_val (st : unit) (val : Z) : outcome (bool * unit) :=
  Ret (negb (val =? NO_EDGE), st).

(** [static_cast<uint32_t>(std::count_if(data + lo, data + hi, ...))]; a
    range whose end lies before its start is never exhausted. *)
Definition row_degree (data : list Z) (lo hi : Z) : outcome Z :=
  if hi <? lo then Undefined
  else '(c, _) ← ptr_count_if data lo hi is_edge_val tt;
       Ret (u32 c).

(** The loop over the column of [node] in [get_degree]. *)
Definition in_degree_step (data : list Z) (n node : Z) (in_deg i : Z) : outcome Z :=
  if i =? node then Ret in_deg
  else v ← load data (u32 (i * n + node));
       if negb (v =? NO_EDGE) then Ret (u32 (in_deg + 1)) else Ret in_deg.

Definition get_degree (m : AdjMat.t) (node : Z) (directed : bool) : outcome degree :=
  let n := AdjMat.size m in
  let data := AdjMat.raw m in
  if node >=? n then throw_oor msg_node
  else
    out_deg ← row_degree data (u32 (node * n)) (u32 ((node + 1) * n));
    in_deg ← (if directed then foldM (in_degree_step data n node) (seqZ 0 n) 0
              else Ret out_deg);
    Ret (mkDegree out_deg in_deg).

(** [*std::min_element(first, last)] and [*std::max_element(first, last)]:
    on an empty range the end iterator is dereferenced. *)
Fixpoint min_from (best : Z) (l : list Z) : Z :=
  match l with
  | [] => best
  | x :: l' => min_from (if x <? best then x else best) l'
  end.

Fixpoint max_from (best : Z) (l : list Z) : Z :=
  match l with
  | [] => best
  | x :: l' => max_from (if best <? x then x else best) l'
  end.

Definition min_element (l : list Z) : outcome Z :=
  match l with [] => Undefined | x :: l' => Ret (min_from x l') end.

Definition max_element (l : list Z) : outcome Z :=
  match l with [] => Undefined | x :: l' => Ret (max_from x l') end.

(** [std::accumulate(first, last, uint32_t(0))] *)
Definition accumulate_u32 (l : list Z) : Z :=
  fold_left (fun a d => u32 (a + d)) l 0.

(** The first loop of [degree_stats]: the out-degree of every row. *)
Definition row_degrees (m : AdjMat.t) : outcome (list Z) :=
  let n := AdjMat.size m in
  foldM (fun degrees i =>
           deg ← row_degree (AdjMat.raw m) (u32 (i * n)) (u32 ((i + 1) * n));
           Ret (degrees ++ [deg]))
        (seqZ 0 n) [].

Definition degree_stats (m : AdjMat.t) (directed : bool) : outcome stats :=
  let n := AdjMat.size m in
  degrees ← row_degrees m;
  let total := accumulate_u32 degrees in
  min_d ← min_element degrees;
  max_d ← max_element degrees;
  let edge_count := if directed then total else total / 2 in
  let pairs := if directed then u32 (n * u32 (n - 1)) else u32 (n * u32 (n - 1)) / 2 in
  let density := (Brandes.to_double edge_count / Brandes.to_double pairs)%float in
  Ret (mkStats (Brandes.to_double total / Brandes.to_double n)%float min_d max_d density).

(** [std::none_of(p, q, pred)] over the buffer offsets [ps]; the scan stops
    at the first element that satisfies the predicate. *)
Fixpoint ptr_none_of (data : list Z) (ps : list Z) : outcome bool :=
  match ps with
  | [] => Ret true
  | p :: ps' =>
      v ← load data p;
      if negb (v =? NO_EDGE) then Ret false else ptr_none_of data ps'
  end.

(** [std::none_of(col.begin(), col.end(), pred)] over a [ColIter] range. *)
Fixpoint col_none_of (fuel : nat) (first last : ColIter) : outcome bool :=
  if negb (ColIter_neq first last) then Ret true
  else match fuel with
       | O => OutOfFuel
       | Datatypes.S fuel' =>
           v ← ColIter_deref first;
           if negb (v =? NO_EDGE) then Ret false
           else col_none_of fuel' (ColIter_incr first) last
       end.

(** Step 1 of [isolated_nodes]: the rows without a non-sentinel entry. *)
Definition no_out_candidates (m : AdjMat.t) : outcome (list Z) :=
  let n := AdjMat.size m in
  foldM (fun candidates i =>
           no_out ← ptr_none_of (AdjMat.raw m) (seqZ (u32 (i * n)) n);
           Ret (if no_out : bool then candidates ++ [i] else candidates))
        (seqZ 0 n) [].

Definition isolated_nodes (m : AdjMat.t) (directed : bool) : outcome (list Z) :=
  let n := AdjMat.size m in
  let data := AdjMat.raw m in
  candidates ← no_out_candidates m;
  if negb directed then Ret candidates
  else
    foldM (fun result i =>
             let col := ColIter_new data n i i in
             b ← col_none_of (Z.to_nat n) (ColIter_begin col) (ColIter_end col);
             Ret (if b : bool then result ++ [i] else result))
          candidates [].

(** *** Specification side *)

(** Number of elements of a list that pass a test. *)
Definition count_if (p : Z -> bool) (l : list Z) : Z :=
  Z.of_nat (length (List.filter p l)).

(** Non-sentinel entries of row [i], the diagonal included. *)
Definition row_count (m : AdjMat.t) (i : Z) : Z :=
  count_if (edge m i) (seqZ 0 (AdjMat.n_ m)).

(** Non-sentinel entries of column [j], the diagonal left out. *)
Definition col_count (m : AdjMat.t) (j : Z) : Z :=
  count_if (in_edge m j) (seqZ 0 (AdjMat.n_ m)).

(** No non-sentinel entry in row [i]. *)
Definition row_empty (m : AdjMat.t) (i : Z) : bool :=
  forallb (fun j => negb (edge m i j)) (seqZ 0 (AdjMat.n_ m)).

(** No non-sentinel entry in column [j] outside of the diagonal. *)
Definition col_empty (m : AdjMat.t) (j : Z) : bool :=
  forallb (fun i => negb (in_edge m j i)) (seqZ 0 (AdjMat.n_ m)).

Definition zero_diag (m : AdjMat.t) : Prop :=
  forall i, 0 <= i < AdjMat.n_ m -> AdjMat.cell m i i = 0.

Definition symmetric (m : AdjMat.t) : Prop :=
  forall i j, 0 <= i < AdjMat.n_ m -> 0 <= j < AdjMat.n_ m ->
    AdjMat.cell m i j = AdjMat.cell m j i.

(** No cell holds an edge. *)
Definition no_edges (m : AdjMat.t) : Prop :=
  forall i j, 0 <= i < AdjMat.n_ m -> 0 <= j < AdjMat.n_ m -> AdjMat.cell m i j = 0.

(** Unordered pairs [i < j] joined by an edge. *)
Definition edge_pairs (m : AdjMat.t) : Z :=
  Zsum (fun i => Zsum (fun j => Z.b2z ((i <? j) && edge m i j))
                      (seqZ 0 (AdjMat.n_ m)))
       (seqZ 0 (AdjMat.n_ m)).

End Degrees.

(** ** Read-only queries of the registry *)

Module Manager.
Import GraphManager.

Definition msg_not_found : string := "Graph not found".

(** [GraphManager::get_graph] *)
Definition get_graph (g : t) (id : Z) : outcome AdjMat.t :=
  match registry_ g !! id with
  | None => throw_oor msg_not_found
  | Some mat => Ret mat
  end.

Definition get_degree (g : t) (id node : Z) (directed : bool) : outcome Degrees.degree :=
  mat ← get_graph g id; Degrees.get_degree mat node directed.

Definition degree_stats (g : t) (id : Z) (directed : bool) : outcome Degrees.stats :=
  mat ← get_graph g id; Degrees.degree_stats mat directed.

Definition isolated_nodes (g : t) (id : Z) (directed : bool) : outcome (list Z) :=
  mat ← get_graph g id; Degrees.isolated_nodes mat directed.

Definition count_triangles (g : t) (id : Z) (directed : bool) : outcome Z :=
  mat ← get_graph g id; Algorithms.count_triangles mat directed.

Definition shortest_path (g : t) (id start : Z) (weighed : bool) : outcome (list Z) :=
  mat ← get_graph g id; Algorithms.shortest_path mat start weighed.

Definition betweenness_centrality (g : t) (id : Z) (weighed : bool) : outcome (list float) :=
  mat ← get_graph g id; Brandes.betweenness_centrality mat weighed.

Definition get_from (g : t) (id node : Z) : outcome (list Z) :=
  mat ← get_graph g id; Algorithms.get_from mat node.

Definition get_to (g : t) (id node : Z) : outcome (list Z) :=
  mat ← get_graph g id; Algorithms.get_to mat node.

Definition get_neighbours (g : t) (id node : Z) (bi : bool) : outcome (list Z) :=
  mat ← get_graph g id; Algorithms.get_neighbours mat node bi.

(** [list_ids]: the keys in the iteration order of the [unordered_map],
    which the standard leaves open; the model fixes one. *)
Definition list_ids (g : t) : list Z := (map_to_list (registry_ g)).*1.

(** A line that [set] and [bi_set] accept on a matrix of [n] nodes. *)
Definition valid_line (n : Z) (l : line) : Prop :=
  0 <= u l < n /\ 0 <= v l < n /\ u l <> v l /\ 0 <= weight l <= u16_max.

(** Whether writing [l] stores into cell [(i, j)]. *)
Definition hits (l : line) (bi : bool) (i j : Z) : bool :=
  ((i =? u l) && (j =? v l)) || (bi && (i =? v l) && (j =? u l)).

(** The content of cell [(i, j)] after the lines have been written in
    order over the content [old]: the weight of the last line that hits the
    cell. *)
Fixpoint written (lines : list line) (bi : bool) (i j : Z) (old : Z) : Z :=
  match lines with
  | [] => old
  | l :: rest => written rest bi i j (if hits l bi i j then weight l else old)
  end.

(** Every live handle is below the counter. *)
Definition handles_below (g : t) : Prop :=
  1 <= next_id_ g /\
  forall id, is_Some (registry_ g !! id) -> 1 <= id < next_id_ g.

End Manager.

(** ** Walks *)

Module Walks.
Import Algorithms Paths.

(** A walk from [s] along edges, with its number of edges and the sum of
    its weights. *)
Inductive walk (m : AdjMat.t) (s : Z) : Z -> Z -> Z -> Prop :=
| walk_nil : walk m s s 0 0
| walk_step u v hops len :
    walk m s u hops len -> arc m u v ->
    walk m s v (hops + 1) (len + AdjMat.cell m u v).

End Walks.
(** * Properties *)

(** ** Basic facts about outcomes and machine integers *)

Lemma bind_Ret_inv {A B} (x : outcome A) (f : A -> outcome B) (b : B) :
  x ≫= f = Ret b -> exists a, x = Ret a /\ f a = Ret b.
Proof. destruct x; simpl; intros H; try discriminate. eauto. Qed.

Lemma u32_small x : 0 <= x < 2 ^ 32 -> u32 x = x.
Proof. intros. unfold u32. apply Z.mod_small. lia. Qed.

Lemma u32_range x : 0 <= u32 x < 2 ^ 32.
Proof. unfold u32. apply Z.mod_pos_bound. lia. Qed.

Lemma load_Ret {A} (buf : list A) k v :
  load buf k = Ret v <-> 0 <= k /\ buf !! Z.to_nat k = Some v.
Proof.
  unfold load. destruct (Z.ltb_spec k 0).
  - split; [discriminate | lia].
  - destruct (buf !! Z.to_nat k) eqn:E; split; intros H1;
      try discriminate; try (destruct H1; congruence).
    inversion H1; subst. auto.
Qed.

Lemma load_past_end {A} (buf : list A) k :
  Z.of_nat (length buf) <= k -> load buf k = Undefined.
Proof.
  intros. unfold load. destruct (Z.ltb_spec k 0); [done|].
  rewrite lookup_ge_None_2; [done | lia].
Qed.

Lemma store_past_end {A} (buf : list A) k v :
  Z.of_nat (length buf) <= k -> store buf k v = Undefined.
Proof.
  intros. unfold store.
  destruct (Z.ltb_spec k 0); [done|].
  destruct (Z.leb_spec (Z.of_nat (length buf)) k); [done | lia].
Qed.

Lemma store_in_range {A} (buf : list A) k v :
  0 <= k < Z.of_nat (length buf) -> store buf k v = Ret (<[Z.to_nat k := v]> buf).
Proof.
  intros. unfold store.
  destruct (Z.ltb_spec k 0); [lia|].
  destruct (Z.leb_spec (Z.of_nat (length buf)) k); [lia | done].
Qed.

(** ** Matrix store *)

Module AdjMatFacts.
Import AdjMat.

Lemma check_bounds_true m i : check_bounds m i = true <-> i < n_ m.
Proof. unfold check_bounds. destruct (Z.geb_spec i (n_ m)); split; (done || lia). Qed.

Lemma check_bounds_false m i : check_bounds m i = false <-> n_ m <= i.
Proof. unfold check_bounds. destruct (Z.geb_spec i (n_ m)); split; (done || lia). Qed.

Lemma length_make n : Z.of_nat (length (data_ (make n))) = alloc_len n.
Proof.
  unfold make; simpl. rewrite length_replicate.
  rewrite Z2Nat.id; [done|]. apply u32_range.
Qed.

(** [(i, j)] with [i, j < n] is addressed at the row-major offset when the
    matrix is well formed. *)
Lemma offset_wf m i j :
  wf m -> 0 <= i < n_ m -> 0 <= j < n_ m ->
  offset m i j = i * n_ m + j /\ 0 <= i * n_ m + j < Z.of_nat (length (data_ m)).
Proof.
  intros [Hn Ha Hs _] Hi Hj.
  assert (i * n_ m + j < n_ m * n_ m) by nia.
  assert (n_ m * n_ m < 2 ^ 32).
  { rewrite <- Hs, Ha. apply u32_range. }
  unfold offset. rewrite u32_small by nia. nia.
Qed.

Lemma wfb_sound m : wfb m = true -> wf m.
Proof.
  unfold wfb. rewrite !andb_true_iff, forallb_forall.
  intros ((((H1 & H2) & H3) & H4) & H5).
  constructor; try lia.
  apply Forall_forall. intros w Hw. apply list_elem_of_In in Hw.
  specialize (H5 w Hw). lia.
Qed.

Lemma wf_sq m : wf m -> 0 <= n_ m /\ n_ m * n_ m < 2 ^ 32.
Proof.
  intros [Hn Ha Hs _]. split; [lia|]. rewrite <- Hs, Ha. apply u32_range.
Qed.

Lemma read_wf m i j :
  wf m -> 0 <= i < n_ m -> 0 <= j < n_ m -> read m i j = Ret (cell m i j).
Proof.
  intros Hwf Hi Hj. destruct (offset_wf m i j Hwf Hi Hj) as [Ho Hr].
  unfold read.
  assert (check_bounds m i = true) as -> by (apply check_bounds_true; lia).
  assert (check_bounds m j = true) as -> by (apply check_bounds_true; lia).
  simpl. rewrite Ho. unfold cell.
  destruct (lookup_lt_is_Some_2 (data_ m) (Z.to_nat (i * n_ m + j))) as [v Hv]; [lia|].
  rewrite Hv. simpl. apply load_Ret. split; [lia | done].
Qed.

Lemma cell_range m i j :
  wf m -> 0 <= i < n_ m -> 0 <= j < n_ m -> 0 <= cell m i j <= u16_max.
Proof.
  intros Hwf Hi Hj. destruct (offset_wf m i j Hwf Hi Hj) as [Ho Hr].
  unfold cell.
  destruct (lookup_lt_is_Some_2 (data_ m) (Z.to_nat (i * n_ m + j))) as [v Hv]; [lia|].
  rewrite Hv. simpl.
  destruct Hwf as [_ _ _ Hc]. rewrite Forall_lookup in Hc. eapply Hc; eauto.
Qed.

End AdjMatFacts.

(** ** Error results of the write operations *)

Module WriteErrors.
Import AdjMat AdjMatFacts.

Lemma set_bounds_fail m i j w :
  n_ m <= i \/ n_ m <= j ->
  set m i j w = (throw_oor msg_bounds, m) /\ bi_set m i j w = (throw_oor msg_bounds, m).
Proof.
  intros H. unfold set, bi_set.
  assert (check_bounds m i && check_bounds m j = false) as ->; [|done].
  apply andb_false_iff. rewrite !check_bounds_false. done.
Qed.

Lemma set_diag_fail m i w :
  i < n_ m ->
  set m i i w = (throw_oor msg_diag, m) /\ bi_set m i i w = (throw_oor msg_diag, m).
Proof.
  intros H. unfold set, bi_set.
  assert (check_bounds m i = true) as -> by (by apply check_bounds_true).
  simpl. rewrite Z.eqb_refl. done.
Qed.

(** C3 (as stated, refuted): a write to the diagonal cell (0,0) of a 2x2
    matrix does not fail with an error of a kind other than out-of-range:
    [set] and [bi_set] throw [std::out_of_range] there as well. *)
Lemma diagonal_error_is_out_of_range :
  ~ (exists e, (set (make 2) 0 0 1).1 = Throw e /\ cls e <> out_of_range) /\
  ~ (exists e, (bi_set (make 2) 0 0 1).1 = Throw e /\ cls e <> out_of_range).
Proof.
  split; intros (e & He & Hc); vm_compute in He; inversion He; subst; by apply Hc.
Qed.

(** C3 (amended): [set] and [bi_set] fail with [std::out_of_range] and the
    message "Index out of bounds" when [i >= n] or [j >= n], and with the
    same exception class [std::out_of_range], told apart only by its message
    "Should not modify diagonal", when [i == j] and both are in bounds. *)
Theorem write_errors (m : AdjMat.t) (i j w : Z) :
  (n_ m <= i \/ n_ m <= j ->
     exists e, (set m i j w).1 = Throw e /\ (bi_set m i j w).1 = Throw e /\
               cls e = out_of_range /\ what e = msg_bounds) /\
  (i < n_ m /\ j < n_ m /\ i = j ->
     exists e, (set m i j w).1 = Throw e /\ (bi_set m i j w).1 = Throw e /\
               cls e = out_of_range /\ what e = msg_diag) /\
  msg_bounds <> msg_diag.
Proof.
  split; [|split].
  - intros H. destruct (set_bounds_fail m i j w H) as [-> ->].
    eexists; repeat split; reflexivity.
  - intros (Hi & _ & <-). destruct (set_diag_fail m i w Hi) as [-> ->].
    eexists; repeat split; reflexivity.
  - discriminate.
Qed.

Lemma write_errors_witness :
  (exists e, (set (make 3) 5 0 7).1 = Throw e /\ (bi_set (make 3) 5 0 7).1 = Throw e /\
             cls e = out_of_range /\ what e = msg_bounds) /\
  (exists e, (set (make 3) 1 1 7).1 = Throw e /\ (bi_set (make 3) 1 1 7).1 = Throw e /\
             cls e = out_of_range /\ what e = msg_diag).
Proof.
  split.
  - apply (write_errors (make 3) 5 0 7). simpl. lia.
  - apply (write_errors (make 3) 1 1 7). simpl. lia.
Defined.

End WriteErrors.

(** ** The 32-bit product in the constructor *)

Module Allocation.
Import AdjMat AdjMatFacts.

Lemma alloc_len_lt n : 2 ^ 16 <= n -> alloc_len n < n * n.
Proof.
  intros H. unfold alloc_len.
  pose proof (u32_range (n * n)). nia.
Qed.

(** A square is never [-1] modulo [2^32]. *)
Lemma alloc_len_not_max n : alloc_len n <> 2 ^ 32 - 1.
Proof.
  unfold alloc_len, u32. intros H.
  pose proof (Z.div_mod (n * n) (2 ^ 32) ltac:(lia)) as Hq.
  rewrite H in Hq.
  pose proof (Z.div_mod n 4 ltac:(lia)) as Hn.
  pose proof (Z.mod_pos_bound n 4 ltac:(lia)) as Hr.
  set (a := n / 4) in *. set (r := n mod 4) in *. set (q := n * n / 2 ^ 32) in *.
  assert (n * n = 16 * (a * a) + 8 * (a * r) + r * r) as Hsq by (rewrite Hn at 1 2; ring).
  assert (r = 0 \/ r = 1 \/ r = 2 \/ r = 3) as [-> | [-> | [-> | ->]]] by lia; lia.
Qed.

(** C10: for every [n >= 2^16] the constructor allocates [n*n mod 2^32]
    cells, strictly fewer than [n^2], while [check_bounds] accepts every
    index below [n]; some in-bounds read and some in-bounds (off-diagonal)
    write address a cell past the end of that buffer. *)
Theorem construct_buffer_wraps (n : Z) :
  2 ^ 16 <= n < 2 ^ 32 ->
  Z.of_nat (length (data_ (make n))) = (n * n) mod 2 ^ 32 /\
  (n * n) mod 2 ^ 32 < n * n /\
  (forall i, 0 <= i < n -> check_bounds (make n) i = true) /\
  (exists i j, 0 <= i < n /\ 0 <= j < n /\
     Z.of_nat (length (data_ (make n))) <= offset (make n) i j /\
     read (make n) i j = Undefined) /\
  (exists i j w, 0 <= i < n /\ 0 <= j < n /\ i <> j /\
     Z.of_nat (length (data_ (make n))) <= offset (make n) i j /\
     (set (make n) i j w).1 = Undefined).
Proof.
  intros Hn.
  pose proof (length_make n) as HL.
  pose proof (alloc_len_lt n ltac:(lia)) as Hlt.
  pose proof (u32_range (n * n)) as Hr. fold (alloc_len n) in Hr.
  pose proof (alloc_len_not_max n) as Hmax.
  set (L := alloc_len n) in *.
  assert (Hoff : forall o, L <= o < 2 ^ 32 -> o < n * n ->
            0 <= o / n < n /\ 0 <= o mod n < n /\ offset (make n) (o / n) (o mod n) = o).
  { intros o Ho Hon.
    pose proof (Z.div_mod o n ltac:(lia)) as Hd.
    pose proof (Z.mod_pos_bound o n ltac:(lia)) as Hm.
    assert (0 <= o / n) by (apply Z.div_pos; lia).
    assert (o / n < n) by (apply Z.div_lt_upper_bound; lia).
    repeat split; try lia.
    unfold offset. simpl. replace (o / n * n + o mod n) with o by lia.
    apply u32_small. lia. }
  assert (Hchk : forall i, 0 <= i < n -> check_bounds (make n) i = true).
  { intros i Hi. apply check_bounds_true. simpl. lia. }
  split; [exact HL|]. split; [exact Hlt|]. split; [exact Hchk|]. split.
  - destruct (Hoff L ltac:(lia) ltac:(lia)) as (Hi & Hj & Ho).
    exists (L / n), (L mod n). repeat split; try lia.
    unfold read. rewrite !Hchk by lia. simpl negb. cbv iota.
    rewrite Ho. apply load_past_end. lia.
  - assert (exists o, L <= o < 2 ^ 32 /\ o < n * n /\ o / n <> o mod n) as (o & Ho & Hon & Hne).
    { destruct (Z.eq_dec (L / n) (L mod n)) as [He|He]; [|exists L; lia].
      exists (L + 1). split; [lia|]. split; [lia|].
      pose proof (Z.div_mod L n ltac:(lia)) as Hd.
      pose proof (Z.mod_pos_bound L n ltac:(lia)) as Hm.
      set (i := L mod n) in *. rewrite He in Hd.
      destruct (Z.eq_dec (i + 1) n) as [Hin|Hin].
      - exfalso. assert (L = n * n - 1) by nia. lia.
      - assert (L + 1 = n * i + (i + 1)) as Hq by lia.
        assert ((L + 1) mod n = i + 1) as ->.
        { symmetry. apply (Z.mod_unique _ _ i); lia. }
        assert ((L + 1) / n = i) as ->.
        { symmetry. apply (Z.div_unique _ _ i (i + 1)); lia. }
        lia. }
    destruct (Hoff o ltac:(lia) Hon) as (Hi & Hj & Hoo).
    exists (o / n), (o mod n), 1. repeat split; try lia.
    unfold set. rewrite !Hchk by lia. simpl negb. cbv iota.
    destruct (Z.eqb_spec (o / n) (o mod n)); [done|].
    rewrite Hoo. rewrite store_past_end by lia. done.
Qed.

Lemma construct_buffer_wraps_witness :
  Z.of_nat (length (data_ (make 65536))) = (65536 * 65536) mod 2 ^ 32 /\
  (65536 * 65536) mod 2 ^ 32 < 65536 * 65536.
Proof.
  pose proof (construct_buffer_wraps 65536 ltac:(lia)) as (H1 & H2 & _).
  split; assumption.
Defined.

End Allocation.

(** ** The diagonal *)

Module Diagonal.
Import AdjMat AdjMatFacts.

(** C8 (fails on the code): on a 65537-node matrix the 32-bit offset of the
    off-diagonal cell (65535, 1) wraps onto offset 0, the offset of the
    diagonal cell (0, 0); the write [set(65535, 1, 7)] succeeds and
    [read(0, 0)] then returns 7 instead of 0.  Both indices fit the 16-bit
    fields of a registry [line]. *)
Theorem diagonal_overwritten_by_wrapped_offset :
  built 65537 (set (make 65537) 65535 1 7).2 /\
  (set (make 65537) 65535 1 7).1 = Ret tt /\
  offset (make 65537) 65535 1 = offset (make 65537) 0 0 /\
  read (make 65537) 0 0 = Ret 0 /\
  read (set (make 65537) 65535 1 7).2 0 0 = Ret 7.
Proof.
  assert ((set (make 65537) 65535 1 7).1 = Ret tt) as H by (vm_compute; reflexivity).
  split; [|split; [exact H|split; [|split]]].
  - apply built_set; [apply built_make | lia | lia | exact H].
  - vm_compute. reflexivity.
  - vm_compute. reflexivity.
  - vm_compute. reflexivity.
Qed.

Lemma diag_inv_store n m i j w d :
  0 <= n -> n * n < 2 ^ 32 -> diag_inv n m ->
  0 <= i < n -> 0 <= j < n -> i <> j ->
  store (data_ m) (offset m i j) w = Ret d ->
  diag_inv n (mk (n_ m) d).
Proof.
  intros Hn Hsq (Hm & Hlen & Hdiag) Hi Hj Hij Hst.
  assert (offset m i j = i * n + j) as Ho.
  { unfold offset. rewrite Hm. apply u32_small. nia. }
  rewrite Ho in Hst. rewrite store_in_range in Hst by nia.
  inversion Hst; subst d; clear Hst.
  split; [done|]. split; simpl.
  - rewrite length_insert. done.
  - intros k Hk. rewrite list_lookup_insert_ne; [by apply Hdiag|].
    intros Heq. apply Z2Nat.inj in Heq; [|nia|nia].
    destruct (Z.lt_trichotomy i k) as [Hlt|[Heq'|Hgt]]; [|subst; lia|].
    + assert ((i + 1) * n <= k * n) by nia. lia.
    + assert ((k + 1) * n <= i * n) by nia. lia.
Qed.

(** On sizes whose square fits 32 bits the diagonal does read as zero. *)
Lemma diagonal_zero_small n m :
  0 <= n -> n * n < 2 ^ 32 -> built n m ->
  forall i, 0 <= i < n -> read m i i = Ret 0.
Proof.
  intros Hn Hsq Hb.
  assert (diag_inv n m) as (Hm & Hlen & Hdiag).
  { induction Hb as [|m i j w Hb IH Hi Hj Hr|m i j w Hb IH Hi Hj Hr].
    - split; [done|]. split.
      + rewrite length_make. unfold alloc_len. apply u32_small. lia.
      + intros i Hi. simpl. apply lookup_replicate_2.
        unfold alloc_len. rewrite u32_small by lia. nia.
    - pose proof IH as (Hm & _). revert Hr. unfold set.
      destruct (check_bounds m i) eqn:Ci; [|done].
      destruct (check_bounds m j) eqn:Cj; [|done]. simpl.
      apply check_bounds_true in Ci, Cj.
      destruct (Z.eqb_spec i j); [done|].
      destruct (store _ _ _) eqn:Hst; try done. intros _. simpl.
      eapply diag_inv_store; eauto; lia.
    - pose proof IH as (Hm & _). revert Hr. unfold bi_set.
      destruct (check_bounds m i) eqn:Ci; [|done].
      destruct (check_bounds m j) eqn:Cj; [|done]. simpl.
      apply check_bounds_true in Ci, Cj.
      destruct (Z.eqb_spec i j); [done|].
      destruct (store _ _ _) as [d| | |] eqn:Hst; try done.
      destruct (store d _ _) as [d'| | |] eqn:Hst'; try done. intros _. simpl.
      assert (diag_inv n (mk (n_ m) d)) as IH1
        by (eapply diag_inv_store; eauto; lia).
      change d with (data_ (mk (n_ m) d)) in Hst'.
      change (offset m j i) with (offset (mk (n_ m) d) j i) in Hst'.
      eapply (diag_inv_store n (mk (n_ m) d) j i); eauto; lia. }
  intros i Hi. unfold read.
  assert (check_bounds m i = true) as -> by (apply check_bounds_true; lia).
  simpl. unfold offset. rewrite Hm, u32_small by nia.
  apply load_Ret. split; [nia|]. by apply Hdiag.
Qed.

End Diagonal.

(** ** Effects of a failing write *)

Module FailingWrites.
Import AdjMat AdjMatFacts GraphManager.

Lemma set_throw_unchanged m i j w e :
  (AdjMat.set m i j w).1 = Throw e -> (AdjMat.set m i j w).2 = m.
Proof.
  unfold AdjMat.set.
  destruct (negb _); [done|]. destruct (i =? j); [done|].
  unfold store. destruct (_ || _); simpl; done.
Qed.

Lemma bi_set_throw_unchanged m i j w e :
  (AdjMat.bi_set m i j w).1 = Throw e -> (AdjMat.bi_set m i j w).2 = m.
Proof.
  unfold AdjMat.bi_set.
  destruct (negb _); [done|]. destruct (i =? j); [done|].
  unfold store. destruct (_ || _); simpl; [done|].
  destruct (_ || _); simpl; done.
Qed.

Lemma write_line_throw_unchanged mat l bi e :
  (write_line mat l bi).1 = Throw e -> (write_line mat l bi).2 = mat.
Proof.
  unfold write_line. destruct bi;
    [apply bi_set_throw_unchanged | apply set_throw_unchanged].
Qed.

(** A failing [write_lines] stops at its first rejected edge, the edges
    before it written. *)
Lemma write_lines_throw mat lines bi e mat' :
  write_lines mat lines bi = (Throw e, mat') ->
  exists pre l post,
    lines = pre ++ l :: post /\
    write_lines mat pre bi = (Ret tt, mat') /\
    write_line mat' l bi = (Throw e, mat').
Proof.
  revert mat. induction lines as [|l rest IH]; intros mat H; simpl in H; [done|].
  destruct (write_line mat l bi) as [r mat1] eqn:Hw.
  destruct r as [[]| e1 | |].
  - destruct (IH _ H) as (pre & l' & post & -> & Hpre & Hl).
    exists (l :: pre), l', post. split; [done|]. split; [|done].
    simpl. rewrite Hw. done.
  - inversion H; subst. exists [], l, rest. split; [done|].
    pose proof (write_line_throw_unchanged mat l bi e) as Hu.
    rewrite Hw in Hu. simpl in Hu. rewrite Hu in * by done. done.
  - done.
  - done.
Qed.

Lemma insert_same_registry (g : GraphManager.t) id mat :
  registry_ g !! id = Some mat ->
  GraphManager.mk (<[id := mat]> (registry_ g)) (next_id_ g) = g.
Proof. intros H. destruct g as [r k]; simpl in *. by rewrite insert_id. Qed.

(** C4 (as stated, refuted): on a 3-node graph, [bash_set] with the edges
    (0,1,5), (1,1,5) fails at the second edge, and cell (0,1) of the graph's
    matrix has changed from 0 to 5. *)
Lemma bash_set_not_atomic :
  let g := (create init 3).2 in
  let r := bash_set g 1 [mkLine 0 1 5; mkLine 1 1 5] false in
  (exists e, r.1 = Throw e) /\
  (mat ← registry_ g !! 1; Some (AdjMat.read mat 0 1)) = Some (Ret 0) /\
  (mat ← registry_ r.2 !! 1; Some (AdjMat.read mat 0 1)) = Some (Ret 5).
Proof. vm_compute. split; [eexists; reflexivity | split; reflexivity]. Qed.

(** C4 (amended): a failing [set] or [bi_set], on the matrix or through the
    registry, leaves the matrix unchanged; a failing [bash_set] on a missing
    handle leaves the registry unchanged, and on a live handle it leaves the
    matrix with exactly the edges before the first rejected edge written:
    the rejected edge and the edges after it write nothing. *)
Theorem failing_write_effect (g : GraphManager.t) (id : Z) (mat : AdjMat.t)
    (i j w : Z) (l : line) (lines : list line) (bi : bool) (e : exn) :
  ((AdjMat.set mat i j w).1 = Throw e -> (AdjMat.set mat i j w).2 = mat) /\
  ((AdjMat.bi_set mat i j w).1 = Throw e -> (AdjMat.bi_set mat i j w).2 = mat) /\
  ((GraphManager.set g id l bi).1 = Throw e -> (GraphManager.set g id l bi).2 = g) /\
  ((bash_set g id lines bi).1 = Throw e ->
     (registry_ g !! id = None /\ (bash_set g id lines bi).2 = g) \/
     (exists mat0 pre l' post mat',
        registry_ g !! id = Some mat0 /\ lines = pre ++ l' :: post /\
        write_lines mat0 pre bi = (Ret tt, mat') /\
        write_line mat' l' bi = (Throw e, mat') /\
        (bash_set g id lines bi).2
          = GraphManager.mk (<[id := mat']> (registry_ g)) (next_id_ g))).
Proof.
  split; [apply set_throw_unchanged|]. split; [apply bi_set_throw_unchanged|]. split.
  - unfold GraphManager.set. destruct (registry_ g !! id) as [mat0|] eqn:Hg; [|done].
    destruct (write_line mat0 l bi) as [r mat'] eqn:Hw. simpl. intros ->.
    pose proof (write_line_throw_unchanged mat0 l bi e) as Hu.
    rewrite Hw in Hu. simpl in Hu. rewrite Hu by done.
    by apply insert_same_registry.
  - unfold bash_set. destruct (registry_ g !! id) as [mat0|] eqn:Hg; [|by left].
    destruct (write_lines mat0 lines bi) as [r mat'] eqn:Hw. simpl. intros ->.
    right. destruct (write_lines_throw _ _ _ _ _ Hw) as (pre & l' & post & ? & ? & ?).
    exists mat0, pre, l', post, mat'. done.
Qed.

Lemma failing_write_effect_witness :
  (GraphManager.set (create init 3).2 1 (mkLine 1 1 5) false).2 = (create init 3).2 /\
  (AdjMat.bi_set (AdjMat.make 3) 0 7 5).2 = AdjMat.make 3.
Proof.
  pose proof (failing_write_effect (create init 3).2 1 (AdjMat.make 3) 0 7 5
                (mkLine 1 1 5) [] false (mk_exn out_of_range msg_diag))
    as (_ & _ & H3 & _).
  pose proof (failing_write_effect (create init 3).2 1 (AdjMat.make 3) 0 7 5
                (mkLine 1 1 5) [] true (mk_exn out_of_range msg_bounds))
    as (_ & H2 & _).
  split; [apply H3 | apply H2]; vm_compute; reflexivity.
Defined.

End FailingWrites.

(** ** Handles of the registry *)

Module Handles.
Import GraphManager.

Lemma step_next_id g o :
  next_id_ (step g o).1 = if is_create o then u64 (next_id_ g + 1) else next_id_ g.
Proof.
  destruct o as [size|id l bi|id ls bi|id|]; simpl; try done.
  - unfold set. destruct (registry_ g !! id); [|done].
    by destruct (write_line _ _ _).
  - unfold bash_set. destruct (registry_ g !! id); [|done].
    by destruct (write_lines _ _ _).
Qed.

Lemma step_handles g o :
  (step g o).2 = if is_create o then [next_id_ g] else [].
Proof. by destruct o. Qed.

Lemma creates_cons o ops :
  creates (o :: ops) = (if is_create o then 1 else 0) + creates ops.
Proof. unfold creates. simpl. destruct (is_create o); simpl; lia. Qed.

Lemma creates_nonneg ops : 0 <= creates ops.
Proof. unfold creates. lia. Qed.

Lemma run_no_create g ops : creates ops = 0 -> (run g ops).2 = [].
Proof.
  revert g. induction ops as [|o ops IH]; intros g H; [done|].
  rewrite creates_cons in H. pose proof (creates_nonneg ops).
  simpl. destruct (step g o) as [g1 hs1] eqn:Hs.
  destruct (run g1 ops) as [g2 hs2] eqn:Hr. simpl.
  pose proof (step_handles g o) as Hh. rewrite Hs in Hh. simpl in Hh.
  destruct (is_create o); [lia|]. subst hs1.
  specialize (IH g1 ltac:(lia)). rewrite Hr in IH. done.
Qed.

(** As long as the counter cannot wrap, a run hands out consecutive
    handles, starting from the counter. *)
Lemma run_handles g ops :
  0 <= next_id_ g -> next_id_ g + creates ops <= 2 ^ 64 ->
  (run g ops).2 = seqZ (next_id_ g) (creates ops).
Proof.
  revert g. induction ops as [|o ops IH]; intros g H0 H; [done|].
  rewrite creates_cons in *. pose proof (creates_nonneg ops) as Hc.
  simpl. destruct (step g o) as [g1 hs1] eqn:Hs.
  destruct (run g1 ops) as [g2 hs2] eqn:Hr. simpl.
  pose proof (step_handles g o) as Hh. rewrite Hs in Hh. simpl in Hh.
  pose proof (step_next_id g o) as Hn. rewrite Hs in Hn. simpl in Hn.
  destruct (is_create o); subst hs1.
  - rewrite seqZ_cons by lia. simpl. f_equal.
    replace (Z.pred (1 + creates ops)) with (creates ops) by lia.
    destruct (Z.eq_dec (creates ops) 0) as [Hz|Hz].
    + pose proof (run_no_create g1 ops Hz) as Hr'. rewrite Hr in Hr'. simpl in Hr'.
      rewrite Hz. subst hs2. by rewrite seqZ_nil.
    + unfold u64 in Hn. rewrite Z.mod_small in Hn by lia.
      specialize (IH g1 ltac:(lia) ltac:(lia)).
      rewrite Hr in IH. simpl in IH. rewrite IH, Hn. f_equal; lia.
  - simpl. specialize (IH g1 ltac:(lia) ltac:(lia)).
    rewrite Hr in IH. simpl in IH. rewrite IH, Hn. f_equal; lia.
Qed.

(** Every live graph is named by a handle that [create] returned. *)
Lemma step_dom g o id :
  is_Some (registry_ (step g o).1 !! id) ->
  is_Some (registry_ g !! id) \/ In id (step g o).2.
Proof.
  destruct o as [size|id' l bi|id' ls bi|id'|]; simpl.
  - destruct (decide (next_id_ g = id)) as [->|Hne]; [right; by left|].
    rewrite lookup_insert_ne by done. by left.
  - unfold set. destruct (registry_ g !! id') as [mat|] eqn:Hg; [|by left].
    destruct (write_line mat l bi) as [r mat']. simpl.
    destruct (decide (id' = id)) as [->|Hne]; [rewrite Hg; by left|].
    rewrite lookup_insert_ne by done. by left.
  - unfold bash_set. destruct (registry_ g !! id') as [mat|] eqn:Hg; [|by left].
    destruct (write_lines mat ls bi) as [r mat']. simpl.
    destruct (decide (id' = id)) as [->|Hne]; [rewrite Hg; by left|].
    rewrite lookup_insert_ne by done. by left.
  - destruct (decide (id' = id)) as [->|Hne].
    + rewrite lookup_delete_eq. by intros [? ?].
    + rewrite lookup_delete_ne by done. by left.
  - rewrite lookup_empty. by intros [? ?].
Qed.

Lemma run_dom ops : forall g id,
  is_Some (registry_ (run g ops).1 !! id) ->
  is_Some (registry_ g !! id) \/ In id (run g ops).2.
Proof.
  induction ops as [|o ops IH]; intros g id H; [by left|].
  simpl in *. destruct (step g o) as [g1 hs1] eqn:Hs.
  destruct (run g1 ops) as [g2 hs2] eqn:Hr. simpl in *.
  specialize (IH g1 id). rewrite Hr in IH. simpl in IH.
  destruct (IH H) as [H1|H2].
  - pose proof (step_dom g o id) as Hd. rewrite Hs in Hd. simpl in Hd.
    destruct (Hd H1) as [?|?]; [by left|]. right. apply in_app_iff. by left.
  - right. apply in_app_iff. by right.
Qed.

Lemma seqZ_sorted (k : Z) (len : nat) : StronglySorted Z.lt (seqZ k (Z.of_nat len)).
Proof.
  revert k. induction len as [|len IH]; intros k.
  - rewrite seqZ_nil by lia. constructor.
  - rewrite seqZ_cons by lia.
    replace (Z.pred (Z.of_nat (S len))) with (Z.of_nat len) by lia.
    constructor; [apply IH|]. apply Forall_seqZ. lia.
Qed.

(** C9: in every run of registry operations from the initial state (with
    at most [2^64 - 1] calls of [create], the number of 64-bit values from 1
    on), the handles that [create] returns are 1, 2, 3, ... in this order:
    strictly increasing 64-bit values, pairwise distinct whatever was
    destroyed in between; every live graph is named by one of them;
    [destroy] removes the entry and leaves the counter as it is. *)
Theorem handles_strictly_increasing (ops : list op) :
  creates ops < 2 ^ 64 ->
  (run init ops).2 = seqZ 1 (creates ops) /\
  StronglySorted Z.lt (run init ops).2 /\
  NoDup (run init ops).2 /\
  Forall (fun h => 1 <= h < 2 ^ 64) (run init ops).2 /\
  (forall id, is_Some (registry_ (run init ops).1 !! id) -> In id (run init ops).2) /\
  (forall g id, next_id_ (destroy g id).2 = next_id_ g /\
                registry_ (destroy g id).2 !! id = None).
Proof.
  intros H.
  assert ((run init ops).2 = seqZ 1 (creates ops)) as Hrun.
  { apply (run_handles init ops); simpl; lia. }
  split; [done|]. split; [|split; [|split; [|split]]].
  - rewrite Hrun. unfold creates. apply seqZ_sorted.
  - rewrite Hrun. apply NoDup_seqZ.
  - rewrite Hrun. apply Forall_seqZ. lia.
  - intros id Hid. destruct (run_dom ops init id Hid) as [Hi|?]; [|done].
    simpl in Hi. rewrite lookup_empty in Hi. by destruct Hi.
  - intros g id. simpl. split; [done|]. apply lookup_delete_eq.
Qed.

Lemma handles_strictly_increasing_witness :
  (run init [Create 3; Create 4; Destroy 2; Create 2; Destroy 1; Create 5]).2
    = [1; 2; 3; 4].
Proof.
  pose proof (handles_strictly_increasing
    [Create 3; Create 4; Destroy 2; Create 2; Destroy 1; Create 5]) as H.
  destruct H as (H & _); [vm_compute; reflexivity | exact H].
Defined.

End Handles.

(** ** Neighbour queries *)

Module Neighbours.
Import AdjMat AdjMatFacts Algorithms.

Lemma foldM_filter {A} (body : list A -> A -> outcome (list A)) (p : A -> bool) l r0 :
  (forall x r, In x l -> body r x = Ret (if p x then r ++ [x] else r)) ->
  foldM body l r0 = Ret (r0 ++ List.filter p l).
Proof.
  revert r0. induction l as [|x l IH]; intros r0 H; simpl.
  - by rewrite app_nil_r.
  - rewrite H by (by left). simpl. rewrite IH by (intros; apply H; by right).
    destruct (p x); [|done]. by rewrite <- app_assoc.
Qed.

Lemma In_seqZ k lo len : In k (seqZ lo len) <-> lo <= k < lo + len.
Proof. rewrite <- list_elem_of_In. apply elem_of_seqZ. Qed.

(** Under the representation invariant the raw accesses of the helper
    queries stay in the buffer. *)
Lemma load_row m i j :
  wf m -> 0 <= i < n_ m -> 0 <= j < n_ m ->
  load (raw m) (u32 (i * n_ m) + j) = Ret (cell m i j).
Proof.
  intros Hwf Hi Hj. destruct (offset_wf m i j Hwf Hi Hj) as [Ho Hr].
  destruct (wf_sq m Hwf) as [? ?].
  rewrite u32_small by nia.
  unfold cell, raw.
  destruct (lookup_lt_is_Some_2 (data_ m) (Z.to_nat (i * n_ m + j))) as [v Hv]; [lia|].
  rewrite Hv. apply load_Ret. split; [lia | done].
Qed.

Lemma load_col m i j :
  wf m -> 0 <= i < n_ m -> 0 <= j < n_ m ->
  load (raw m) (u32 (i * n_ m + j)) = Ret (cell m i j).
Proof.
  intros Hwf Hi Hj. destruct (offset_wf m i j Hwf Hi Hj) as [Ho Hr].
  unfold offset in Ho. rewrite Ho. unfold cell, raw.
  destruct (lookup_lt_is_Some_2 (data_ m) (Z.to_nat (i * n_ m + j))) as [v Hv]; [lia|].
  rewrite Hv. apply load_Ret. split; [lia | done].
Qed.

Lemma node_in_range m node : node < n_ m -> (node >=? size m) = false.
Proof. intros. unfold size. destruct (Z.geb_spec node (n_ m)); [lia | done]. Qed.

Lemma get_from_wf m node :
  wf m -> 0 <= node < n_ m ->
  get_from m node = Ret (List.filter (out_edge m node) (seqZ 0 (n_ m))).
Proof.
  intros Hwf Hn. unfold get_from. rewrite node_in_range by lia.
  rewrite (foldM_filter _ (out_edge m node)); [done|].
  intros j r Hj. apply In_seqZ in Hj. unfold out_edge, size.
  destruct (j =? node); [done|]. rewrite load_row by (done || lia). simpl.
  by destruct (cell m node j =? NO_EDGE).
Qed.

Lemma get_to_wf m node :
  wf m -> 0 <= node < n_ m ->
  get_to m node = Ret (List.filter (in_edge m node) (seqZ 0 (n_ m))).
Proof.
  intros Hwf Hn. unfold get_to. rewrite node_in_range by lia.
  rewrite (foldM_filter _ (in_edge m node)); [done|].
  intros j r Hj. apply In_seqZ in Hj. unfold in_edge, size.
  destruct (j =? node); [done|]. rewrite load_col by (done || lia). simpl.
  by destruct (cell m j node =? NO_EDGE).
Qed.

Lemma get_neighbours_wf m node :
  wf m -> 0 <= node < n_ m ->
  get_neighbours m node false
    = Ret (List.filter (fun i => out_edge m node i || in_edge m node i) (seqZ 0 (n_ m))).
Proof.
  intros Hwf Hn. unfold get_neighbours. rewrite node_in_range by lia.
  rewrite (foldM_filter _ (fun i => out_edge m node i || in_edge m node i)); [done|].
  intros j r Hj. apply In_seqZ in Hj. unfold out_edge, in_edge, size.
  destruct (j =? node); [done|]. rewrite load_row by (done || lia). simpl.
  destruct (cell m node j =? NO_EDGE); [|done]. simpl.
  rewrite load_col by (done || lia). simpl.
  by destruct (cell m j node =? NO_EDGE).
Qed.

(** C2: on every matrix and every node below [n], [get_neighbours(node,
    bi=true)] is the very result of [get_from(node)], the nodes [j != node]
    with a non-sentinel entry in the row of [node]; [get_neighbours(node,
    bi=false)] holds exactly the nodes of [get_from(node)] and of
    [get_to(node)], the nodes with a non-sentinel entry in the row or in the
    column of [node]. *)
Theorem neighbours_from_to (m : AdjMat.t) (node : Z) :
  wf m -> 0 <= node < n_ m ->
  get_neighbours m node true = get_from m node /\
  exists lf lt ln,
    get_from m node = Ret lf /\ get_to m node = Ret lt /\
    get_neighbours m node false = Ret ln /\
    (forall j, In j lf <-> 0 <= j < n_ m /\ j <> node /\ read m node j <> Ret NO_EDGE) /\
    (forall i, In i lt <-> 0 <= i < n_ m /\ i <> node /\ read m i node <> Ret NO_EDGE) /\
    (forall x, In x ln <-> In x lf \/ In x lt).
Proof.
  intros Hwf Hn. split; [reflexivity|].
  eexists _, _, _.
  split; [by apply get_from_wf|]. split; [by apply get_to_wf|].
  split; [by apply get_neighbours_wf|].
  split; [|split].
  - intros j. rewrite filter_In, In_seqZ. unfold out_edge.
    split.
    + intros (Hj & Hb). rewrite read_wf by (done || lia).
      apply andb_true_iff in Hb as [Hb1 Hb2].
      apply negb_true_iff in Hb1, Hb2. apply Z.eqb_neq in Hb1, Hb2.
      split; [lia|]. split; [done|]. congruence.
    + intros (Hj & Hne & Hr). rewrite read_wf in Hr by (done || lia).
      split; [lia|]. apply andb_true_iff.
      split; apply negb_true_iff, Z.eqb_neq; congruence.
  - intros j. rewrite filter_In, In_seqZ. unfold in_edge.
    split.
    + intros (Hj & Hb). rewrite read_wf by (done || lia).
      apply andb_true_iff in Hb as [Hb1 Hb2].
      apply negb_true_iff in Hb1, Hb2. apply Z.eqb_neq in Hb1, Hb2.
      split; [lia|]. split; [done|]. congruence.
    + intros (Hj & Hne & Hr). rewrite read_wf in Hr by (done || lia).
      split; [lia|]. apply andb_true_iff.
      split; apply negb_true_iff, Z.eqb_neq; congruence.
  - intros x. rewrite !filter_In. rewrite orb_true_iff. tauto.
Qed.

Lemma neighbours_from_to_witness :
  get_neighbours (mk 3 [0; 4; 0; 0; 0; 7; 0; 0; 0]) 1 true
    = get_from (mk 3 [0; 4; 0; 0; 0; 7; 0; 0; 0]) 1.
Proof.
  apply (neighbours_from_to (mk 3 [0; 4; 0; 0; 0; 7; 0; 0; 0]) 1).
  - apply wfb_sound. vm_compute. reflexivity.
  - simpl. lia.
Defined.

End Neighbours.

(** ** Triangle counting *)

Module Triangles.
Import AdjMat AdjMatFacts Algorithms Neighbours.

(** *** Sums *)

Lemma Zsum_ext f g l : (forall x, In x l -> f x = g x) -> Zsum f l = Zsum g l.
Proof.
  induction l as [|x l IH]; intros H; simpl; [done|].
  rewrite H by (by left). rewrite IH; [done|]. intros; apply H; by right.
Qed.

Lemma Zsum_app f l1 l2 : Zsum f (l1 ++ l2) = Zsum f l1 + Zsum f l2.
Proof. induction l1 as [|x l1 IH]; simpl; lia. Qed.

Lemma Zsum_zero f l : (forall x, In x l -> f x = 0) -> Zsum f l = 0.
Proof.
  induction l as [|x l IH]; intros H; simpl; [done|].
  rewrite H by (by left). rewrite IH; [done|]. intros; apply H; by right.
Qed.

Lemma Zsum_plus f g l : Zsum (fun x => f x + g x) l = Zsum f l + Zsum g l.
Proof. induction l as [|x l IH]; simpl; lia. Qed.

Lemma Zsum_bounds f l b :
  (forall x, In x l -> 0 <= f x <= b) -> 0 <= Zsum f l <= b * Z.of_nat (length l).
Proof.
  induction l as [|x l IH]; intros H; simpl; [lia|].
  specialize (H x (or_introl eq_refl)) as Hx.
  specialize (IH (fun y Hy => H y (or_intror Hy))). nia.
Qed.

Lemma Zsum_nonneg f l : (forall x, In x l -> 0 <= f x) -> 0 <= Zsum f l.
Proof.
  induction l as [|x l IH]; intros H; simpl; [lia|].
  specialize (H x (or_introl eq_refl)) as Hx.
  specialize (IH (fun y Hy => H y (or_intror Hy))). lia.
Qed.

Lemma Zsum_swap (F : Z -> Z -> Z) l1 l2 :
  Zsum (fun a => Zsum (fun b => F a b) l2) l1
  = Zsum (fun b => Zsum (fun a => F a b) l1) l2.
Proof.
  induction l1 as [|x l1 IH]; simpl.
  - symmetry. by apply Zsum_zero.
  - rewrite IH. by rewrite <- Zsum_plus.
Qed.

(** A sum over the indices above [i] is a guarded sum over all indices. *)
Lemma Zsum_above f n i :
  0 <= i < n ->
  Zsum f (seqZ (i + 1) (n - (i + 1)))
  = Zsum (fun j => if i <? j then f j else 0) (seqZ 0 n).
Proof.
  intros Hi.
  assert (seqZ 0 n = seqZ 0 (i + 1) ++ seqZ (i + 1) (n - (i + 1))) as ->.
  { replace n with ((i + 1) + (n - (i + 1))) at 1 by lia.
    rewrite (seqZ_app 0 (i + 1) (n - (i + 1))) by lia. done. }
  rewrite Zsum_app.
  rewrite (Zsum_zero _ (seqZ 0 (i + 1))).
  - simpl. apply Zsum_ext. intros j Hj. apply In_seqZ in Hj.
    destruct (Z.ltb_spec i j); [done | lia].
  - intros j Hj. apply In_seqZ in Hj. destruct (Z.ltb_spec i j); [lia | done].
Qed.

(** Rotating the three summation indices. *)
Lemma sum3_rotate n F : sum3 n (fun i j k => F j k i) = sum3 n F.
Proof.
  unfold sum3.
  rewrite (Zsum_swap (fun i j => Zsum (fun k => F j k i) (seqZ 0 n))).
  apply Zsum_ext. intros j _.
  apply (Zsum_swap (fun i k => F j k i)).
Qed.

Lemma sum3_ext n F G :
  (forall i j k, 0 <= i < n -> 0 <= j < n -> 0 <= k < n -> F i j k = G i j k) ->
  sum3 n F = sum3 n G.
Proof.
  intros H. unfold sum3.
  apply Zsum_ext; intros i Hi. apply Zsum_ext; intros j Hj.
  apply Zsum_ext; intros k Hk. apply In_seqZ in Hi, Hj, Hk. apply H; lia.
Qed.

Lemma sum3_plus n F G :
  sum3 n (fun i j k => F i j k + G i j k) = sum3 n F + sum3 n G.
Proof.
  unfold sum3. rewrite <- Zsum_plus. apply Zsum_ext; intros i _.
  rewrite <- Zsum_plus. apply Zsum_ext; intros j _. apply Zsum_plus.
Qed.

Lemma sum3_bounds n F :
  0 <= n -> (forall i j k, 0 <= F i j k <= 1) -> 0 <= sum3 n F <= n * n * n.
Proof.
  intros Hn H. unfold sum3.
  assert (forall i j, 0 <= Zsum (fun k => F i j k) (seqZ 0 n) <= n) as H1.
  { intros i j. pose proof (Zsum_bounds (fun k => F i j k) (seqZ 0 n) 1 (fun k _ => H i j k)).
    rewrite length_seqZ in *. lia. }
  assert (forall i, 0 <= Zsum (fun j => Zsum (fun k => F i j k) (seqZ 0 n)) (seqZ 0 n) <= n * n) as H2.
  { intros i. pose proof (Zsum_bounds (fun j => Zsum (fun k => F i j k) (seqZ 0 n))
                            (seqZ 0 n) n (fun j _ => H1 i j)).
    rewrite length_seqZ in *. lia. }
  pose proof (Zsum_bounds (fun i => Zsum (fun j => Zsum (fun k => F i j k) (seqZ 0 n)) (seqZ 0 n))
                (seqZ 0 n) (n * n) (fun i _ => H2 i)).
  rewrite length_seqZ in *. lia.
Qed.

(** Counting the triples that satisfy a test is a triple sum. *)
Lemma count_triples_sum (p : Z * Z * Z -> bool) (li lj lk : list Z) :
  Z.of_nat (length (List.filter p
    (flat_map (fun i => flat_map (fun j => map (fun k => (i, j, k)) lk) lj) li)))
  = Zsum (fun i => Zsum (fun j => Zsum (fun k => Z.b2z (p (i, j, k))) lk) lj) li.
Proof.
  induction li as [|i li IH]; simpl; [done|].
  rewrite List.filter_app, length_app, Nat2Z.inj_add, IH. f_equal.
  clear IH. induction lj as [|j lj IHj]; simpl; [done|].
  rewrite List.filter_app, length_app, Nat2Z.inj_add, IHj. f_equal.
  clear IHj. induction lk as [|k lk IHk]; simpl; [done|].
  destruct (p (i, j, k)); simpl length; rewrite ?Nat2Z.inj_succ, IHk; simpl; lia.
Qed.

Lemma count_of_sum3 p n :
  count_of p n = sum3 n (fun i j k => Z.b2z (p (i, j, k))).
Proof. apply count_triples_sum. Qed.

(** *** The scans *)

Ltac ret_eq :=
  apply (f_equal (@Ret (Z * Z))); apply pair_equal_spec; split; lia.

Lemma foldM_sum (body : Z -> Z -> outcome Z) (f : Z -> Z) (M : Z) l acc :
  (forall x, In x l -> 0 <= f x) ->
  0 <= acc -> acc + Zsum f l < M ->
  (forall x a, In x l -> 0 <= a -> a + f x < M -> body a x = Ret (a + f x)) ->
  foldM body l acc = Ret (acc + Zsum f l).
Proof.
  revert acc. induction l as [|x l IH]; intros acc Hf Ha Hb Hbody; simpl.
  - f_equal. lia.
  - simpl in Hb.
    assert (0 <= Zsum f l).
    { clear -Hf. induction l as [|y l IH]; simpl; [lia|].
      pose proof (Hf y ltac:(right; by left)).
      assert (0 <= Zsum f l); [|lia]. apply IH. intros z [->|Hz]; apply Hf; auto.
      - by left.
      - right; by right. }
    pose proof (Hf x ltac:(by left)).
    rewrite Hbody by (try (by left); lia). simpl.
    rewrite IH; [f_equal; lia| | lia | lia |].
    + intros; apply Hf; by right.
    + intros; apply Hbody; auto. by right.
Qed.

Lemma load_cell m i j :
  wf m -> 0 <= i < n_ m -> 0 <= j < n_ m ->
  load (raw m) (i * n_ m + j) = Ret (cell m i j).
Proof.
  intros Hwf Hi Hj. destruct (offset_wf m i j Hwf Hi Hj) as [Ho Hr].
  unfold cell, raw.
  destruct (lookup_lt_is_Some_2 (data_ m) (Z.to_nat (i * n_ m + j))) as [v Hv]; [lia|].
  rewrite Hv. apply load_Ret. split; [lia | done].
Qed.

Lemma u64_small x : 0 <= x < 2 ^ 64 -> u64 x = x.
Proof. intros. unfold u64. apply Z.mod_small. lia. Qed.

Lemma Zsum_cons f x l : Zsum f (x :: l) = f x + Zsum f l.
Proof. done. Qed.

Lemma tri_pred_undirected_wf m i k v :
  wf m -> 0 <= i < n_ m -> 0 <= k < n_ m ->
  tri_pred_undirected (raw m) (i * n_ m) k v
  = Ret (edge m i k && negb (v =? NO_EDGE), k + 1).
Proof.
  intros. unfold tri_pred_undirected. rewrite load_cell by (done || lia). done.
Qed.

Lemma tri_pred_directed_wf m i j k v :
  wf m -> 0 <= j < n_ m -> 0 <= k < n_ m ->
  tri_pred_directed (raw m) (j * n_ m) i j k v
  = Ret (negb (k =? i) && negb (k =? j) && edge m j k && negb (v =? NO_EDGE), k + 1).
Proof.
  intros. unfold tri_pred_directed.
  destruct (k =? i); [done|]. destruct (k =? j); [done|]. simpl.
  rewrite load_cell by (done || lia). done.
Qed.

(** The pointer scan of the undirected branch, from column [k0] on. *)
Lemma undirected_scan m i j (len : nat) k0 acc :
  wf m -> 0 <= i < n_ m -> 0 <= j < n_ m ->
  0 <= k0 -> k0 + Z.of_nat len <= n_ m ->
  foldM (fun '(ret, st) p =>
           v ← load (raw m) p;
           '(b, st') ← tri_pred_undirected (raw m) (i * n_ m) st v;
           Ret (if b : bool then ret + 1 else ret, st'))
        (seqZ (j * n_ m + k0) (Z.of_nat len)) (acc, k0)
  = Ret (acc + Zsum (fun k => Z.b2z (edge m i k && edge m j k)) (seqZ k0 (Z.of_nat len)),
         k0 + Z.of_nat len).
Proof.
  intros Hwf Hi Hj. revert k0 acc.
  induction len as [|len IH]; intros k0 acc Hk Hlen.
  - rewrite !seqZ_nil by lia. simpl. ret_eq.
  - rewrite (seqZ_cons (j * n_ m + k0)), (seqZ_cons k0) by lia.
    replace (Z.pred (Z.of_nat (S len))) with (Z.of_nat len) by lia.
    replace (Z.succ (j * n_ m + k0)) with (j * n_ m + (k0 + 1)) by lia.
    replace (Z.succ k0) with (k0 + 1) by lia.
    rewrite Zsum_cons. cbn [foldM]. rewrite load_cell by (done || lia).
    cbn [mbind outcome_bind].
    rewrite tri_pred_undirected_wf by (done || lia).
    cbn [mbind outcome_bind].
    rewrite IH by lia. unfold edge.
    destruct (negb (cell m i k0 =? NO_EDGE) && negb (cell m j k0 =? NO_EDGE));
      simpl Z.b2z; ret_eq.
Qed.

(** The column scan of the directed branch, from row [k0] on. *)
Lemma directed_scan m i j (fuel : nat) k0 acc :
  wf m -> 0 <= i < n_ m -> 0 <= j < n_ m ->
  0 <= k0 <= n_ m -> n_ m - k0 <= Z.of_nat fuel ->
  col_count_if fuel (mkColIter (raw m) (n_ m) i i k0) (mkColIter (raw m) (n_ m) i i (n_ m))
    (tri_pred_directed (raw m) (j * n_ m) i j) k0 acc
  = Ret (acc + Zsum (fun k => Z.b2z (negb (k =? i) && negb (k =? j) && edge m j k && edge m k i))
                 (seqZ k0 (n_ m - k0)),
         n_ m).
Proof.
  intros Hwf Hi Hj. destruct (wf_sq m Hwf) as [Hn Hsq]. revert k0 acc.
  induction fuel as [|fuel IH]; intros k0 acc Hk Hfuel.
  - assert (k0 = n_ m) as -> by lia. simpl. unfold ColIter_neq. simpl.
    rewrite Z.eqb_refl. simpl. rewrite seqZ_nil by lia. simpl. ret_eq.
  - destruct (Z.eq_dec k0 (n_ m)) as [->|Hne].
    + simpl. unfold ColIter_neq. simpl.
      rewrite Z.eqb_refl. simpl. rewrite seqZ_nil by lia. simpl. ret_eq.
    + cbn [col_count_if]. unfold ColIter_neq. cbn [i_].
      destruct (Z.eqb_spec k0 (n_ m)); [done|]. cbn [negb].
      rewrite seqZ_cons by lia. rewrite Zsum_cons.
      replace (Z.pred (n_ m - k0)) with (n_ m - (k0 + 1)) by lia.
      replace (Z.succ k0) with (k0 + 1) by lia.
      unfold ColIter_deref, ColIter_incr. cbn [i_ exclude_ base_ stride_ col_].
      destruct (Z.eqb_spec k0 i) as [->|Hki].
      * cbn [mbind outcome_bind].
        rewrite tri_pred_directed_wf by (done || lia).
        rewrite Z.eqb_refl.
        cbn [mbind outcome_bind orb negb andb].
        rewrite IH by lia. simpl Z.b2z. ret_eq.
      * rewrite u64_small by nia. rewrite load_cell by (done || lia).
        cbn [mbind outcome_bind].
        rewrite tri_pred_directed_wf by (done || lia).
        destruct (Z.eqb_spec k0 i) as [|_]; [done|].
        cbn [mbind outcome_bind orb negb andb].
        rewrite IH by lia. unfold edge.
        destruct (negb (k0 =? j) && negb (cell m j k0 =? NO_EDGE) && negb (cell m k0 i =? NO_EDGE));
          simpl Z.b2z; ret_eq.
Qed.

Lemma b2z_range b : 0 <= Z.b2z b <= 1.
Proof. by destruct b. Qed.

(** One round of the inner loops adds the number of triples it finds. *)
Lemma tri_undirected_j_spec m i j count :
  wf m -> 0 <= i < j -> j < n_ m -> 0 <= count ->
  count + Zsum (fun k => Z.b2z (is_triangle m (i, j, k))) (seqZ 0 (n_ m)) < 2 ^ 64 ->
  tri_undirected_j m (n_ m) i count j
  = Ret (count + Zsum (fun k => Z.b2z (is_triangle m (i, j, k))) (seqZ 0 (n_ m))).
Proof.
  intros Hwf Hi Hj Hc Hb. destruct (wf_sq m Hwf) as [Hn Hsq].
  unfold tri_undirected_j. rewrite !u32_small by nia.
  rewrite read_wf by (done || lia). cbn [mbind outcome_bind].
  unfold is_triangle in *. fold (edge m i j).
  assert (edge m i j = negb (cell m i j =? NO_EDGE)) as He by done.
  destruct (cell m i j =? NO_EDGE).
  - rewrite Zsum_zero; [f_equal; lia|]. intros k _. rewrite He.
    by rewrite !andb_false_r.
  - simpl in He. unfold ptr_count_if.
    replace (j * n_ m + n_ m - (j * n_ m + (j + 1)))
      with (Z.of_nat (Z.to_nat (n_ m - (j + 1)))) by lia.
    rewrite (undirected_scan m i j) by (done || lia).
    cbn [mbind outcome_bind]. rewrite Z2Nat.id by lia.
    rewrite Zsum_above in * by lia.
    assert (Zsum (fun k => if j <? k then Z.b2z (edge m i k && edge m j k) else 0) (seqZ 0 (n_ m))
            = Zsum (fun k => Z.b2z ((i <? j) && (j <? k) && edge m i j && edge m i k && edge m j k))
                   (seqZ 0 (n_ m))) as Heq.
    { apply Zsum_ext. intros k _. rewrite He.
      destruct (Z.ltb_spec i j); [|lia]. destruct (j <? k); simpl; [|done].
      by destruct (edge m i k), (edge m j k). }
    rewrite Heq in *. rewrite u64_small; [f_equal; lia|].
    pose proof (Zsum_bounds (fun k => Z.b2z ((i <? j) && (j <? k) && edge m i j && edge m i k && edge m j k))
                  (seqZ 0 (n_ m)) 1) as Hz.
    destruct Hz; [|lia]. intros k _. cbv beta. apply b2z_range.
Qed.

Lemma tri_directed_j_spec m i j count :
  wf m -> 0 <= i < n_ m -> 0 <= j < n_ m -> 0 <= count ->
  count + Zsum (fun k => Z.b2z (is_cycle_walk m (i, j, k))) (seqZ 0 (n_ m)) < 2 ^ 64 ->
  tri_directed_j m (n_ m) i count j
  = Ret (count + Zsum (fun k => Z.b2z (is_cycle_walk m (i, j, k))) (seqZ 0 (n_ m))).
Proof.
  intros Hwf Hi Hj Hc Hb. destruct (wf_sq m Hwf) as [Hn Hsq].
  unfold tri_directed_j. unfold is_cycle_walk in *.
  destruct (Z.eqb_spec i j) as [->|Hij].
  { rewrite Zsum_zero; [f_equal; lia|]. done. }
  rewrite !u32_small by nia.
  rewrite read_wf by (done || lia). cbn [mbind outcome_bind].
  assert (edge m i j = negb (cell m i j =? NO_EDGE)) as He by done.
  destruct (cell m i j =? NO_EDGE).
  - rewrite Zsum_zero; [f_equal; lia|]. intros k _. by rewrite He.
  - simpl in He. unfold ColIter_begin, ColIter_end, ColIter_new. cbn [base_ stride_ col_ exclude_].
    rewrite (directed_scan m i j) by (done || lia).
    cbn [mbind outcome_bind]. rewrite Z.sub_0_r.
    assert (Zsum (fun k => Z.b2z (negb (k =? i) && negb (k =? j) && edge m j k && edge m k i)) (seqZ 0 (n_ m))
            = Zsum (fun k => Z.b2z (negb false && edge m i j &&
                       (negb (k =? i) && negb (k =? j) && edge m j k && edge m k i)))
                   (seqZ 0 (n_ m))) as Heq.
    { apply Zsum_ext. intros k _. by rewrite He. }
    rewrite Heq in *. rewrite u64_small; [f_equal; lia|].
    match goal with |- context [Zsum ?f ?l] =>
      pose proof (Zsum_bounds f l 1) as Hz end.
    destruct Hz; [|lia]. intros k _. cbv beta. apply b2z_range.
Qed.

Lemma cube_fits m : wf m -> n_ m * n_ m * n_ m < 2 ^ 64.
Proof.
  intros Hwf. destruct (wf_sq m Hwf) as [Hn Hsq].
  assert (n_ m < 2 ^ 16) by nia. nia.
Qed.

Lemma count_undirected m :
  wf m -> count_triangles m false = Ret (count_of (is_triangle m) (n_ m)).
Proof.
  intros Hwf. destruct (wf_sq m Hwf) as [Hn Hsq].
  pose proof (cube_fits m Hwf) as Hcube.
  rewrite count_of_sum3. unfold count_triangles, size. cbn [negb].
  pose proof (sum3_bounds (n_ m) (fun i j k => Z.b2z (is_triangle m (i, j, k))) Hn
                (fun i j k => b2z_range _)) as Hb.
  unfold sum3 in *.
  set (U := fun i j => Zsum (fun k => Z.b2z (is_triangle m (i, j, k))) (seqZ 0 (n_ m))) in *.
  assert (HU : forall i j, 0 <= U i j).
  { intros i j. unfold U.
    pose proof (Zsum_bounds (fun k => Z.b2z (is_triangle m (i, j, k))) (seqZ 0 (n_ m)) 1
                  (fun k _ => b2z_range _)). lia. }
  assert (HUabove : forall i, 0 <= i < n_ m ->
            Zsum (U i) (seqZ (i + 1) (n_ m - (i + 1))) = Zsum (U i) (seqZ 0 (n_ m))).
  { intros i Hi. rewrite Zsum_above by lia. apply Zsum_ext. intros j _.
    destruct (Z.ltb_spec i j); [done|]. symmetry. apply Zsum_zero. intros k _.
    unfold is_triangle. destruct (Z.ltb_spec i j); [lia | done]. }
  rewrite (foldM_sum _ (fun i => Zsum (U i) (seqZ 0 (n_ m))) (2 ^ 64));
    [unfold U; f_equal; lia| | lia | unfold U; lia |].
  - intros i _. apply Zsum_nonneg. intros; apply HU.
  - intros i a Hi Ha Hlt. apply In_seqZ in Hi.
    rewrite <- HUabove in * by lia.
    apply (foldM_sum _ (U i) (2 ^ 64)); try lia.
    + intros j _. apply HU.
    + intros j c Hj Hc Hlt'. apply In_seqZ in Hj.
      apply tri_undirected_j_spec; (done || lia).
Qed.

Lemma count_directed_raw m :
  wf m -> tri_directed_raw m = Ret (count_of (is_cycle_walk m) (n_ m)).
Proof.
  intros Hwf. destruct (wf_sq m Hwf) as [Hn Hsq].
  pose proof (cube_fits m Hwf) as Hcube.
  rewrite count_of_sum3. unfold tri_directed_raw, size.
  pose proof (sum3_bounds (n_ m) (fun i j k => Z.b2z (is_cycle_walk m (i, j, k))) Hn
                (fun i j k => b2z_range _)) as Hb.
  unfold sum3 in *.
  set (W := fun i j => Zsum (fun k => Z.b2z (is_cycle_walk m (i, j, k))) (seqZ 0 (n_ m))) in *.
  assert (HW : forall i j, 0 <= W i j).
  { intros i j. unfold W.
    pose proof (Zsum_bounds (fun k => Z.b2z (is_cycle_walk m (i, j, k))) (seqZ 0 (n_ m)) 1
                  (fun k _ => b2z_range _)). lia. }
  rewrite (foldM_sum _ (fun i => Zsum (W i) (seqZ 0 (n_ m))) (2 ^ 64));
    [unfold W; f_equal; lia| | lia | unfold W; lia |].
  - intros i _. apply Zsum_nonneg. intros; apply HW.
  - intros i a Hi Ha Hlt. apply In_seqZ in Hi.
    apply (foldM_sum _ (W i) (2 ^ 64)); try lia.
    + intros j _. apply HW.
    + intros j c Hj Hc Hlt'. apply In_seqZ in Hj.
      apply tri_directed_j_spec; (done || lia).
Qed.

(** *** Every cycle is walked three times *)

Lemma walk_rotate m t : is_cycle_walk m (rotate t) = is_cycle_walk m t.
Proof.
  destruct t as [[i j] k]. unfold is_cycle_walk, rotate.
  destruct (Z.eqb_spec i j), (Z.eqb_spec j k), (Z.eqb_spec k i), (Z.eqb_spec k j),
    (Z.eqb_spec i k); try lia; simpl; try done;
    destruct (edge m i j), (edge m j k), (edge m k i); done.
Qed.

(** Of the three walks of a cycle exactly one starts at the least node. *)
Lemma walk_one_canonical m t :
  Z.b2z (is_cycle_walk m t)
  = Z.b2z (is_cycle m t) + Z.b2z (is_cycle m (rotate t))
    + Z.b2z (is_cycle m (rotate (rotate t))).
Proof.
  pose proof (walk_rotate m t) as H1.
  pose proof (walk_rotate m (rotate t)) as H2.
  destruct t as [[i j] k]. unfold is_cycle. simpl rotate in *.
  rewrite H2, H1.
  destruct (is_cycle_walk m (i, j, k)) eqn:Hw; [|done].
  unfold is_cycle_walk in Hw.
  destruct (Z.eqb_spec i j), (Z.eqb_spec k i), (Z.eqb_spec k j); simpl in Hw;
    try discriminate; try (by rewrite andb_false_r in Hw).
  destruct (Z.ltb_spec i j), (Z.ltb_spec i k), (Z.ltb_spec j k), (Z.ltb_spec j i),
    (Z.ltb_spec k i), (Z.ltb_spec k j); simpl; lia.
Qed.

Lemma walks_three_per_cycle m n :
  count_of (is_cycle_walk m) n = 3 * count_of (is_cycle m) n.
Proof.
  rewrite !count_of_sum3.
  set (f := fun i j k => Z.b2z (is_cycle m (i, j, k))).
  rewrite (sum3_ext n _ (fun i j k => f i j k + f j k i + f k i j)).
  2:{ intros i j k _ _ _. apply (walk_one_canonical m (i, j, k)). }
  rewrite (sum3_plus n (fun i j k => f i j k + f j k i) (fun i j k => f k i j)).
  rewrite (sum3_plus n f (fun i j k => f j k i)).
  rewrite (sum3_rotate n f).
  rewrite (sum3_rotate n (fun a b c => f b c a)).
  rewrite (sum3_rotate n f). lia.
Qed.

(** C6: the undirected count is the number of index triples [i < j < k]
    whose entries (i,j), (i,k), (j,k) are all set; the directed scan sum is
    the number of walks [i -> j -> k -> i] over distinct nodes, three per
    directed 3-cycle (a walk stays a walk when it is started one edge later,
    and exactly one of the three starts at the least node), and the result is
    that sum divided by 3: the number of directed 3-cycles. *)
Theorem count_triangles_spec (m : AdjMat.t) :
  wf m ->
  count_triangles m false = Ret (count_of (is_triangle m) (n_ m)) /\
  tri_directed_raw m = Ret (count_of (is_cycle_walk m) (n_ m)) /\
  count_of (is_cycle_walk m) (n_ m) = 3 * count_of (is_cycle m) (n_ m) /\
  (forall t, is_cycle_walk m (rotate t) = is_cycle_walk m t) /\
  (forall t, is_cycle_walk m t = true ->
     Z.b2z (is_cycle m t) + Z.b2z (is_cycle m (rotate t))
       + Z.b2z (is_cycle m (rotate (rotate t))) = 1) /\
  count_triangles m true = Ret (count_of (is_cycle m) (n_ m)).
Proof.
  intros Hwf.
  split; [by apply count_undirected|].
  split; [by apply count_directed_raw|].
  split; [apply walks_three_per_cycle|].
  split; [apply walk_rotate|].
  split.
  - intros t Ht. rewrite <- walk_one_canonical, Ht. done.
  - unfold count_triangles. cbn [negb].
    rewrite count_directed_raw by done. cbn [mbind outcome_bind].
    rewrite walks_three_per_cycle. f_equal.
    rewrite Z.mul_comm. apply Z.div_mul. lia.
Qed.

Lemma count_triangles_spec_witness :
  count_triangles (mk 3 [0; 1; 1; 1; 0; 1; 1; 1; 0]) false
    = Ret (count_of (is_triangle (mk 3 [0; 1; 1; 1; 0; 1; 1; 1; 0])) 3).
Proof.
  apply (count_triangles_spec (mk 3 [0; 1; 1; 1; 0; 1; 1; 1; 0])).
  apply wfb_sound. vm_compute. reflexivity.
Defined.

(** Scenario B: three nodes joined pairwise in both directions. *)
Example scenario_B :
  count_triangles (mk 3 [0; 1; 1; 1; 0; 1; 1; 1; 0]) false = Ret 1 /\
  count_of (is_triangle (mk 3 [0; 1; 1; 1; 0; 1; 1; 1; 0])) 3 = 1.
Proof. vm_compute. done. Qed.

End Triangles.

(** ** The traversals of the centrality follow the shortest-path loops *)

Module BrandesSim.
Import AdjMat Algorithms Brandes.

Lemma add_pred_frame wk v w wk' :
  add_pred wk v w = Ret wk' ->
  dist wk' = dist wk /\ stack wk' = stack wk /\ delta wk' = delta wk.
Proof.
  unfold add_pred. intros H.
  apply bind_Ret_inv in H as (sw & _ & H).
  apply bind_Ret_inv in H as (sv & _ & H).
  apply bind_Ret_inv in H as (sg & _ & H).
  apply bind_Ret_inv in H as (pw & _ & H).
  apply bind_Ret_inv in H as (ps & _ & H).
  inversion H; subst. done.
Qed.

Lemma bfs_visit_sim m v wk q w wk' q' :
  bfs_visit m v (wk, q) w = Ret (wk', q') ->
  bfs_relax m v (dist wk, q) w = Ret (dist wk', q') /\
  stack wk' = stack wk /\ delta wk' = delta wk.
Proof.
  unfold bfs_visit, bfs_relax. intros H.
  destruct (v =? w); [inversion H; subst; done|].
  apply bind_Ret_inv in H as (e & He & H). rewrite He. cbn [mbind outcome_bind].
  destruct (e =? NO_EDGE); [inversion H; subst; done|].
  apply bind_Ret_inv in H as (dw & Hdw & H). rewrite Hdw. cbn [mbind outcome_bind].
  apply bind_Ret_inv in H as ([wk1 q1] & H1 & H).
  assert (bfs_tail : dist wk' = dist wk1 /\ stack wk' = stack wk1 /\
                     delta wk' = delta wk1 /\ q' = q1).
  { apply bind_Ret_inv in H as (dw' & _ & H).
    apply bind_Ret_inv in H as (dv & _ & H).
    apply bind_Ret_inv in H as (d' & _ & H).
    destruct (dw' =? d').
    - apply bind_Ret_inv in H as (wk2 & H2 & H). inversion H; subst.
      destruct (add_pred_frame _ _ _ _ H2) as (? & ? & ?). done.
    - inversion H; subst. done. }
  destruct bfs_tail as (-> & -> & -> & ->).
  destruct (dw =? INF).
  - apply bind_Ret_inv in H1 as (dv & Hdv & H1). rewrite Hdv. cbn [mbind outcome_bind].
    apply bind_Ret_inv in H1 as (d' & Hd' & H1). rewrite Hd'. cbn [mbind outcome_bind].
    apply bind_Ret_inv in H1 as (ds & Hds & H1). rewrite Hds. cbn [mbind outcome_bind].
    inversion H1; subst. done.
  - inversion H1; subst. done.
Qed.

Lemma bfs_visit_scan_sim m v cols :
  forall wk q wk' q',
  foldM (bfs_visit m v) cols (wk, q) = Ret (wk', q') ->
  foldM (bfs_relax m v) cols (dist wk, q) = Ret (dist wk', q') /\
  stack wk' = stack wk /\ delta wk' = delta wk.
Proof.
  induction cols as [|w cols IH]; intros wk q wk' q' H.
  - simpl in *. inversion H; subst. done.
  - cbn [foldM] in *. apply bind_Ret_inv in H as ([wk1 q1] & H1 & H).
    destruct (bfs_visit_sim _ _ _ _ _ _ _ H1) as (Hr & Hs & Hd).
    destruct (IH _ _ _ _ H) as (Hr' & Hs' & Hd').
    rewrite Hr. cbn [mbind outcome_bind]. rewrite Hr'.
    split; [done|]. split; congruence.
Qed.

Lemma dijkstra_visit_sim m v wk pq w wk' pq' :
  dijkstra_visit m v (wk, pq) w = Ret (wk', pq') ->
  dijkstra_relax m v (dist wk, pq) w = Ret (dist wk', pq') /\
  stack wk' = stack wk /\ delta wk' = delta wk.
Proof.
  unfold dijkstra_visit, dijkstra_relax. intros H.
  destruct (v =? w); [inversion H; subst; done|].
  apply bind_Ret_inv in H as (e & He & H). rewrite He. cbn [mbind outcome_bind].
  destruct (e =? NO_EDGE); [inversion H; subst; done|].
  apply bind_Ret_inv in H as (weight & Hw & H).
  apply bind_Ret_inv in H as (dv & Hdv & H). rewrite Hdv. cbn [mbind outcome_bind].
  rewrite Hw in He. inversion He; subst e. cbn [mbind outcome_bind].
  apply bind_Ret_inv in H as (alt & Halt & H). rewrite Halt. cbn [mbind outcome_bind].
  apply bind_Ret_inv in H as (dw & Hdw & H). rewrite Hdw. cbn [mbind outcome_bind].
  destruct (alt <? dw).
  - apply bind_Ret_inv in H as (ds & Hds & H). rewrite Hds. cbn [mbind outcome_bind].
    apply bind_Ret_inv in H as (sv & _ & H).
    apply bind_Ret_inv in H as (sg & _ & H).
    apply bind_Ret_inv in H as (ps0 & _ & H).
    apply bind_Ret_inv in H as (pw & _ & H).
    apply bind_Ret_inv in H as (ps & _ & H).
    inversion H; subst. done.
  - apply bind_Ret_inv in H as (dw' & _ & H).
    destruct (alt =? dw').
    + apply bind_Ret_inv in H as (wk2 & H2 & H). inversion H; subst.
      destruct (add_pred_frame _ _ _ _ H2) as (-> & -> & ->). done.
    + inversion H; subst. done.
Qed.

Lemma dijkstra_visit_scan_sim m v cols :
  forall wk pq wk' pq',
  foldM (dijkstra_visit m v) cols (wk, pq) = Ret (wk', pq') ->
  foldM (dijkstra_relax m v) cols (dist wk, pq) = Ret (dist wk', pq') /\
  stack wk' = stack wk /\ delta wk' = delta wk.
Proof.
  induction cols as [|w cols IH]; intros wk pq wk' pq' H.
  - simpl in *. inversion H; subst. done.
  - cbn [foldM] in *. apply bind_Ret_inv in H as ([wk1 pq1] & H1 & H).
    destruct (dijkstra_visit_sim _ _ _ _ _ _ _ H1) as (Hr & Hs & Hd).
    destruct (IH _ _ _ _ H) as (Hr' & Hs' & Hd').
    rewrite Hr. cbn [mbind outcome_bind]. rewrite Hr'.
    split; [done|]. split; congruence.
Qed.

End BrandesSim.

(** ** Shortest paths *)

Module PathFacts.
Import AdjMat AdjMatFacts Algorithms Paths Neighbours.

Lemma INF_val : INF = 2147483647.
Proof. reflexivity. Qed.

Lemma load_at (l : list Z) n v :
  Z.of_nat (length l) = n -> 0 <= v < n -> load l v = Ret (at_ l v).
Proof.
  intros Hl Hv. unfold at_.
  destruct (lookup_lt_is_Some_2 l (Z.to_nat v)) as [x Hx]; [lia|].
  rewrite Hx. apply load_Ret. split; [lia | done].
Qed.

Lemma store_at {A} (l : list A) n v x :
  Z.of_nat (length l) = n -> 0 <= v < n -> store l v x = Ret (<[Z.to_nat v := x]> l).
Proof. intros. apply store_in_range. lia. Qed.

Lemma at_insert_eq (l : list Z) v x :
  0 <= v < Z.of_nat (length l) -> at_ (<[Z.to_nat v := x]> l) v = x.
Proof. intros. unfold at_. rewrite list_lookup_insert_eq by lia. done. Qed.

Lemma at_insert_ne (l : list Z) v w x :
  0 <= v -> 0 <= w -> v <> w -> at_ (<[Z.to_nat v := x]> l) w = at_ l w.
Proof. intros. unfold at_. rewrite list_lookup_insert_ne by lia. done. Qed.

Lemma at_replicate k x v : 0 <= v < Z.of_nat k -> at_ (replicate k x) v = x.
Proof. intros. unfold at_. rewrite lookup_replicate_2 by lia. done. Qed.

Lemma add_i32_ok a b :
  INT32_MIN <= a + b <= INT32_MAX -> add_i32 a b = Ret (a + b).
Proof.
  intros. unfold add_i32. cbv zeta.
  destruct (Z.leb_spec INT32_MIN (a + b)); [|lia].
  destruct (Z.leb_spec (a + b) INT32_MAX); [done | lia].
Qed.

Lemma unseen_nonneg dist : 0 <= unseen dist.
Proof. unfold unseen. lia. Qed.

Lemma unseen_insert (dist : list Z) (i : nat) x :
  dist !! i = Some INF -> x <> INF -> unseen (<[i := x]> dist) = unseen dist - 1.
Proof.
  unfold unseen. revert i. induction dist as [|d dist IH]; intros i Hi Hx; [done|].
  destruct i as [|i]; simpl in *.
  - inversion Hi; subst. rewrite Z.eqb_refl.
    destruct (Z.eqb_spec x INF); [done|]. simpl length. lia.
  - specialize (IH i Hi Hx). destruct (d =? INF); simpl length; lia.
Qed.

Lemma unseen_replicate k : unseen (replicate k INF) = Z.of_nat k.
Proof.
  unfold unseen. induction k as [|k IH]; [done|].
  simpl. rewrite ?Z.eqb_refl. simpl length. lia.
Qed.

Lemma edge_arc m u v : node m u -> node m v -> u <> v -> edge m u v = true -> arc m u v.
Proof. intros. unfold arc. auto. Qed.

(** The scan of one column in the breadth-first search, as an update. *)
Lemma bfs_relax_pure m u dist q v :
  wf m -> Z.of_nat (length dist) = n_ m -> node m u -> node m v ->
  INT32_MIN <= at_ dist u + 1 <= INT32_MAX ->
  bfs_relax m u (dist, q) v
  = Ret (if negb (u =? v) && edge m u v && (at_ dist v =? INF)
         then (<[Z.to_nat v := at_ dist u + 1]> dist, q ++ [v])
         else (dist, q)).
Proof.
  intros Hwf Hl Hu Hv Hadd. unfold bfs_relax, node in *.
  destruct (u =? v); [done|]. cbn [negb andb].
  rewrite read_wf by done. cbn [mbind outcome_bind]. unfold edge.
  destruct (cell m u v =? NO_EDGE); [done|]. cbn [negb andb].
  rewrite (load_at dist (n_ m) v) by done. cbn [mbind outcome_bind].
  destruct (at_ dist v =? INF); [|done].
  rewrite (load_at dist (n_ m) u) by done. cbn [mbind outcome_bind].
  rewrite add_i32_ok by done. cbn [mbind outcome_bind].
  rewrite (store_at dist (n_ m)) by done. done.
Qed.

Lemma sorted_frame (d d' : list Z) (l : list Z) :
  (forall x, In x l -> at_ d' x = at_ d x) ->
  StronglySorted (fun a b => at_ d b <= at_ d a) l ->
  StronglySorted (fun a b => at_ d' b <= at_ d' a) l.
Proof.
  intros H Hs. induction Hs as [|a l Hs IH Hall]; constructor.
  - apply IH. intros x Hx. apply H. by right.
  - rewrite Forall_forall in *. intros x Hx.
    rewrite (H a) by (by left).
    rewrite (H x) by (right; by apply list_elem_of_In).
    by apply Hall.
Qed.

(** *** Breadth-first search *)

Lemma wf_small m : wf m -> 0 <= n_ m < 2 ^ 16.
Proof. intros Hwf. destruct (wf_sq m Hwf). nia. Qed.

Lemma bfs_pops_le m start P cur seen qa qb D pops dist :
  bfs_inv m start P cur seen qa qb D pops dist -> pops <= n_ m.
Proof. intros I. pose proof (bi_pops _ _ _ _ _ _ _ _ _ _ I). pose proof (unseen_nonneg dist). lia. Qed.

Lemma bfs_relax_step m start P u seen qa qb D pops dist v :
  wf m -> node m v ->
  bfs_inv m start P [u] seen qa qb D pops dist ->
  exists dist' qb',
    bfs_relax m u (dist, qa ++ qb) v = Ret (dist', qa ++ qb') /\
    bfs_inv m start P [u] (seen ++ [v]) qa qb' D pops dist'.
Proof.
  intros Hwf Hv I.
  pose proof (wf_small m Hwf) as Hn.
  pose proof (bfs_pops_le _ _ _ _ _ _ _ _ _ _ I) as Hpops.
  destruct (bi_qa _ _ _ _ _ _ _ _ _ _ I u ltac:(by left)) as [Hu HuD].
  pose proof (bi_D _ _ _ _ _ _ _ _ _ _ I) as HD. simpl in HD.
  pose proof INF_val as HINF.
  rewrite bfs_relax_pure; [|done|apply I|done|done|rewrite HuD; unfold INT32_MIN, INT32_MAX; lia].
  rewrite HuD.
  destruct (negb (u =? v) && edge m u v && (at_ dist v =? INF)) eqn:Hc.
  - apply andb_true_iff in Hc as [Hc Hinf]. apply andb_true_iff in Hc as [Hne He].
    apply negb_true_iff, Z.eqb_neq in Hne. apply Z.eqb_eq in Hinf.
    assert (Harc : arc m u v) by (by apply edge_arc).
    exists (<[Z.to_nat v := D + 1]> dist), (qb ++ [v]).
    split; [by rewrite app_assoc|].
    pose proof (bi_len _ _ _ _ _ _ _ _ _ _ I) as Hlen.
    assert (Hframe : forall w, 0 <= w -> at_ dist w <> INF ->
              at_ (<[Z.to_nat v := D + 1]> dist) w = at_ dist w).
    { intros w Hw Hwi. apply at_insert_ne; [apply Hv | done | congruence]. }
    assert (Hnew : at_ (<[Z.to_nat v := D + 1]> dist) v = D + 1).
    { apply at_insert_eq. unfold node in Hv. lia. }
    assert (Hcases : forall w, node m w ->
              at_ (<[Z.to_nat v := D + 1]> dist) w <> INF ->
              w = v \/ (w <> v /\ at_ dist w <> INF /\
                        at_ (<[Z.to_nat v := D + 1]> dist) w = at_ dist w)).
    { intros w Hw Hwi. destruct (Z.eq_dec w v) as [->|Hwv]; [by left|right].
      rewrite at_insert_ne in Hwi by (unfold node in *; lia).
      split; [done|]. split; [done|]. apply Hframe; [apply Hw | done]. }
    constructor.
    + by rewrite length_insert.
    + apply I.
    + rewrite Hframe; [apply I | apply I | rewrite (bi_start _ _ _ _ _ _ _ _ _ _ I); lia].
    + intros w Hw. destruct (Z.eq_dec w v) as [->|Hwv].
      * right. rewrite Hnew. lia.
      * rewrite at_insert_ne by (unfold node in *; lia). by apply I.
    + apply I.
    + rewrite length_app. simpl length.
      rewrite unseen_insert; [| |lia].
      * pose proof (bi_pops _ _ _ _ _ _ _ _ _ _ I). lia.
      * unfold at_ in Hinf. unfold node in Hv.
        destruct (lookup_lt_is_Some_2 dist (Z.to_nat v)) as [x Hx]; [lia|].
        rewrite Hx in *. simpl in Hinf. by subst.
    + intros x Hx. destruct (bi_qa _ _ _ _ _ _ _ _ _ _ I x Hx) as [Hxn HxD].
      split; [done|]. rewrite Hframe; [done | apply Hxn | lia].
    + intros x Hx. apply in_app_iff in Hx as [Hx|[<-|[]]].
      * destruct (bi_qb _ _ _ _ _ _ _ _ _ _ I x Hx) as [Hxn HxD].
        split; [done|]. rewrite Hframe; [done | apply Hxn | lia].
      * done.
    + intros w Hw Hwi. destruct (Hcases w Hw Hwi) as [->|(_ & Hwo & ->)].
      * lia.
      * by apply I.
    + intros p Hp. destruct (bi_P _ _ _ _ _ _ _ _ _ _ I p Hp) as [Hpn Hpi].
      split; [done|]. rewrite Hframe; [done | apply Hpn | done].
    + intros p w Hp Hpw.
      destruct (bi_P _ _ _ _ _ _ _ _ _ _ I p Hp) as [Hpn Hpi].
      destruct (bi_closed _ _ _ _ _ _ _ _ _ _ I p w Hp Hpw) as [Hwi Hle].
      destruct Hpw as (_ & Hwn & _).
      rewrite !Hframe; [done | apply Hpn | done | apply Hwn | done].
    + intros u' w [<-|[]] Hw Huw. rewrite (Hframe u); [|apply Hu|lia].
      apply in_app_iff in Hw as [Hw|[<-|[]]].
      * destruct (bi_cur _ _ _ _ _ _ _ _ _ _ I u w ltac:(by left) Hw Huw) as [Hwi Hle].
        destruct Huw as (_ & Hwn & _). rewrite Hframe; [done | apply Hwn | done].
      * rewrite Hnew. lia.
    + intros w Hw Hwi. destruct (Hcases w Hw Hwi) as [->|(_ & Hwo & _)].
      * right; right; right. apply in_app_iff. right. by left.
      * destruct (bi_cover _ _ _ _ _ _ _ _ _ _ I w Hw Hwo) as [?|[?|[?|?]]]; auto.
        right; right; right. apply in_app_iff. by left.
    + intros w Hw Hwi. destruct (Hcases w Hw Hwi) as [->|(_ & Hwo & _)].
      * eapply reach_arc; [|exact Harc]. apply (bi_reach _ _ _ _ _ _ _ _ _ _ I); [done|lia].
      * by apply (bi_reach _ _ _ _ _ _ _ _ _ _ I).
    + intros w Hw Hws Hwi. destruct (Hcases w Hw Hwi) as [->|(_ & Hwo & Heq)].
      * exists u. split; [done|]. rewrite Hnew, Hframe; [lia | apply Hu | lia].
      * destruct (bi_pred _ _ _ _ _ _ _ _ _ _ I w Hw Hws Hwo) as (p & Hpw & Hpi & Hpe).
        exists p. split; [done|]. pose proof Hpw as (Hpn & _).
        rewrite Heq, Hframe; [done | apply Hpn | done].
    + intros p Hp. destruct (bi_P _ _ _ _ _ _ _ _ _ _ I p Hp) as [Hpn Hpi].
      rewrite Hframe; [by apply (bi_P_le _ _ _ _ _ _ _ _ _ _ I) | apply Hpn | done].
    + apply (sorted_frame dist); [|apply I].
      intros p Hp. destruct (bi_P _ _ _ _ _ _ _ _ _ _ I p Hp) as [Hpn Hpi].
      apply Hframe; [apply Hpn | done].
  - exists dist, qb. split; [done|].
    destruct I. constructor; auto.
    intros u' w [<-|[]] Hw Huw.
    apply in_app_iff in Hw as [Hw|[<-|[]]]; [by apply bi_cur0; [left|..]|].
    assert (at_ dist v <> INF) as Hvi.
    { destruct Huw as (_ & _ & Hne & He).
      apply andb_false_iff in Hc as [Hc|Hc]; [|by apply Z.eqb_neq].
      apply andb_false_iff in Hc as [Hc|Hc]; [|congruence].
      apply negb_false_iff, Z.eqb_eq in Hc. done. }
    split; [done|]. rewrite HuD. by apply bi_level0.
Qed.

Lemma bfs_scan m start P u qa D pops cols :
  wf m -> (forall v, In v cols -> node m v) ->
  forall seen qb dist,
  bfs_inv m start P [u] seen qa qb D pops dist ->
  exists dist' qb',
    foldM (bfs_relax m u) cols (dist, qa ++ qb) = Ret (dist', qa ++ qb') /\
    bfs_inv m start P [u] (seen ++ cols) qa qb' D pops dist'.
Proof.
  intros Hwf. induction cols as [|v cols IH]; intros Hcols seen qb dist I.
  - exists dist, qb. rewrite app_nil_r. done.
  - destruct (bfs_relax_step m start P u seen qa qb D pops dist v Hwf
                (Hcols v ltac:(by left)) I) as (dist1 & qb1 & Hstep & I1).
    destruct (IH (fun x Hx => Hcols x (or_intror Hx)) (seen ++ [v]) qb1 dist1 I1)
      as (dist2 & qb2 & Hrest & I2).
    exists dist2, qb2. cbn [foldM]. rewrite Hstep. cbn [mbind outcome_bind].
    rewrite Hrest. rewrite <- app_assoc in I2. done.
Qed.

Lemma bfs_pop m start P qa qb D pops dist u q' :
  wf m ->
  bfs_inv m start P [] [] qa qb D pops dist -> qa ++ qb = u :: q' ->
  exists D' qa' qb',
    q' = qa' ++ qb' /\ bfs_inv m start P [u] [] qa' qb' D' (pops + 1) dist.
Proof.
  intros Hwf I Hq.
  pose proof (wf_small m Hwf) as Hn.
  pose proof (bfs_pops_le _ _ _ _ _ _ _ _ _ _ I) as Hpops.
  pose proof INF_val as HINF.
  destruct I. simpl in bi_D0.
  destruct qa as [|a qa'].
  - simpl in Hq. subst qb.
    destruct (bi_qb0 u ltac:(by left)) as [Hu HuD].
    assert (D + 1 <= pops).
    { destruct (bi_range0 u Hu) as [Hi|Hr]; lia. }
    exists (D + 1), q', []. split; [by rewrite app_nil_r|].
    constructor.
    + done.
    + done.
    + done.
    + intros v Hv. destruct (bi_range0 v Hv); [by left | right; lia].
    + simpl. lia.
    + simpl in *. lia.
    + intros x Hx. simpl in Hx. apply bi_qb0. done.
    + intros x [].
    + intros v Hv Hvi. specialize (bi_level0 v Hv Hvi). lia.
    + done.
    + done.
    + intros u' v _ [].
    + intros v Hv Hvi. destruct (bi_cover0 v Hv Hvi) as [?|[[]|[[]|Hin]]]; [by left|].
      destruct Hin as [<-|Hin]; [right; left; by left | right; right; by left].
    + done.
    + done.
    + intros p Hp. specialize (bi_P_le0 p Hp). lia.
    + done.
  - simpl in Hq. inversion Hq; subst a q'.
    exists D, qa', qb. split; [done|].
    constructor.
    + done.
    + done.
    + done.
    + intros v Hv. destruct (bi_range0 v Hv); [by left | right; lia].
    + simpl. lia.
    + simpl in *. lia.
    + done.
    + done.
    + done.
    + done.
    + done.
    + intros u' v _ [].
    + intros v Hv Hvi. destruct (bi_cover0 v Hv Hvi) as [?|[[]|[Hin|?]]]; auto.
      destruct Hin as [<-|Hin]; [right; left; by left | right; right; by left].
    + done.
    + done.
    + done.
    + done.
Qed.

Lemma bfs_finish m start P u seen qa qb D pops dist :
  wf m ->
  bfs_inv m start P [u] seen qa qb D pops dist ->
  (forall v, node m v -> In v seen) ->
  bfs_inv m start (u :: P) [] [] qa qb D pops dist.
Proof.
  intros Hwf I Hseen.
  pose proof (wf_small m Hwf) as Hn.
  pose proof (bfs_pops_le _ _ _ _ _ _ _ _ _ _ I) as Hpops.
  pose proof INF_val as HINF.
  destruct I. simpl in bi_D0.
  destruct (bi_qa0 u ltac:(by left)) as [Hu HuD].
  constructor.
  - done.
  - done.
  - done.
  - done.
  - simpl. lia.
  - done.
  - intros x Hx. apply bi_qa0. by right.
  - done.
  - done.
  - intros p [<-|Hp]; [|by apply bi_P0]. split; [done|lia].
  - intros p v [<-|Hp] Hpv; [|by apply bi_closed0].
    apply (bi_cur0 u v); [by left | | done]. apply Hseen. apply Hpv.
  - intros u' v [].
  - intros v Hv Hvi. destruct (bi_cover0 v Hv Hvi) as [?|[[<-|[]]|[?|?]]]; auto.
    + left. by right.
    + left. by left.
  - done.
  - done.
  - intros p [<-|Hp]; [lia | by apply bi_P_le0].
  - constructor; [done|]. apply Forall_forall. intros p Hp.
    apply list_elem_of_In in Hp. rewrite HuD. by apply bi_P_le0.
Qed.

Lemma bfs_loop_total m start :
  wf m ->
  forall fuel P qa qb D pops dist,
  bfs_inv m start P [] [] qa qb D pops dist ->
  n_ m - pops <= Z.of_nat fuel ->
  exists d P' D' pops',
    bfs_loop fuel m (n_ m) dist (qa ++ qb) = Ret d /\
    bfs_inv m start P' [] [] [] [] D' pops' d.
Proof.
  intros Hwf. induction fuel as [|fuel IH]; intros P qa qb D pops dist I Hfuel.
  - pose proof (bi_pops _ _ _ _ _ _ _ _ _ _ I) as Hp.
    pose proof (unseen_nonneg dist).
    assert (qa = []) as -> by (destruct qa; [done | simpl in *; lia]).
    assert (qb = []) as -> by (destruct qb; [done | simpl in *; lia]).
    exists dist, P, D, pops. done.
  - destruct (qa ++ qb) as [|u q'] eqn:Hq.
    + apply app_eq_nil in Hq as [-> ->]. exists dist, P, D, pops. done.
    + destruct (bfs_pop m start P qa qb D pops dist u q' Hwf I Hq)
        as (D' & qa' & qb' & -> & I1).
      destruct (bfs_scan m start P u qa' D' (pops + 1) (seqZ 0 (n_ m)) Hwf
                  ltac:(intros v Hv; by apply In_seqZ in Hv) [] qb' dist I1)
        as (dist2 & qb2 & Hscan & I2).
      pose proof (bfs_finish m start P u _ qa' qb2 D' (pops + 1) dist2 Hwf I2
                    ltac:(intros v Hv; apply In_seqZ; exact Hv)) as I3.
      destruct (IH (u :: P) qa' qb2 D' (pops + 1) dist2 I3 ltac:(lia))
        as (d & P' & D'' & pops' & Hloop & If).
      exists d, P', D'', pops'. split; [|done].
      cbn [bfs_loop]. rewrite Hscan. cbn [mbind outcome_bind]. exact Hloop.
Qed.

Lemma bfs_init m start :
  wf m -> node m start ->
  bfs_inv m start [] [] [] [start] [] 0 0
    (<[Z.to_nat start := 0]> (replicate (Z.to_nat (n_ m)) INF)).
Proof.
  intros Hwf Hs. pose proof (wf_small m Hwf) as Hn. pose proof INF_val as HINF.
  unfold node in *.
  assert (Hat : forall v, node m v -> v <> start ->
            at_ (<[Z.to_nat start := 0]> (replicate (Z.to_nat (n_ m)) INF)) v = INF).
  { intros v Hv Hne. rewrite at_insert_ne by (unfold node in *; lia).
    apply at_replicate. unfold node in *. lia. }
  assert (Hat0 : at_ (<[Z.to_nat start := 0]> (replicate (Z.to_nat (n_ m)) INF)) start = 0).
  { apply at_insert_eq. rewrite length_replicate. lia. }
  constructor.
  - rewrite length_insert, length_replicate. lia.
  - done.
  - done.
  - intros v Hv. destruct (Z.eq_dec v start) as [->|Hne]; [right; lia | left; auto].
  - simpl. lia.
  - simpl length. rewrite unseen_insert; [| |lia].
    + rewrite unseen_replicate. lia.
    + apply lookup_replicate_2. lia.
  - intros x [<-|[]]. done.
  - intros x [].
  - intros v Hv Hvi. destruct (Z.eq_dec v start) as [->|Hne]; [lia|].
    by rewrite Hat in Hvi.
  - intros p [].
  - intros p v [].
  - intros u v [].
  - intros v Hv Hvi. destruct (Z.eq_dec v start) as [->|Hne]; [right; right; left; by left|].
    by rewrite Hat in Hvi.
  - intros v Hv Hvi. destruct (Z.eq_dec v start) as [->|Hne]; [constructor|].
    by rewrite Hat in Hvi.
  - intros v Hv Hne Hvi. by rewrite Hat in Hvi.
  - intros p [].
  - constructor.
Qed.

Lemma bfs_final m start P D pops d :
  wf m -> bfs_inv m start P [] [] [] [] D pops d -> unit_distances m start d.
Proof.
  intros Hwf I. pose proof (wf_small m Hwf) as Hn. pose proof INF_val as HINF.
  pose proof (bfs_pops_le _ _ _ _ _ _ _ _ _ _ I) as Hpops.
  destruct I. constructor.
  - done.
  - done.
  - intros v Hv. destruct (bi_range0 v Hv); lia.
  - intros u v Huv Hui.
    destruct (bi_cover0 u ltac:(apply Huv) Hui) as [Hp|[[]|[[]|[]]]].
    by apply bi_closed0.
  - done.
Qed.


(** *** The breadth-first phase of the centrality returns *)






(** The unweighted search returns, and its result is a vector of unit
    distances in which only reachable nodes have left the sentinel. *)
Lemma shortest_path_bfs m start :
  wf m -> node m start ->
  exists d, shortest_path m start false = Ret d /\
            unit_distances m start d /\
            (forall v, node m v -> at_ d v <> INF -> reach m start v).
Proof.
  intros Hwf Hs. pose proof (wf_small m Hwf) as Hn.
  pose proof (bfs_init m start Hwf Hs) as I0.
  destruct (bfs_loop_total m start Hwf (bfs_fuel (n_ m)) [] [start] [] 0 0 _ I0
              ltac:(unfold bfs_fuel; lia)) as (d & P & D & pops & Hloop & If).
  exists d. split; [|split].
  - unfold shortest_path, size. rewrite node_in_range by apply Hs.
    rewrite (store_at _ (n_ m)); [|rewrite length_replicate; lia|apply Hs].
    cbn [mbind outcome_bind negb]. exact Hloop.
  - eapply bfs_final; eauto.
  - apply If.
Qed.

End PathFacts.

(** *** Dijkstra's algorithm *)

Module DijkstraFacts.
Import AdjMat AdjMatFacts Algorithms Paths Neighbours PathFacts.

Lemma pair_leb_spec a b :
  pair_leb a b = true <-> a.1 < b.1 \/ (a.1 = b.1 /\ a.2 <= b.2).
Proof.
  unfold pair_leb. rewrite orb_true_iff, andb_true_iff.
  rewrite Z.ltb_lt, Z.eqb_eq, Z.leb_le. done.
Qed.

Lemma pair_leb_false a b :
  pair_leb a b = false -> pair_leb b a = true.
Proof.
  intros H. apply pair_leb_spec.
  destruct (pair_leb a b) eqn:E; [done|].
  assert (~ (a.1 < b.1 \/ (a.1 = b.1 /\ a.2 <= b.2))) as Hn.
  { intros Hc. apply pair_leb_spec in Hc. congruence. }
  lia.
Qed.

Lemma pair_leb_trans a b c :
  pair_leb a b = true -> pair_leb b c = true -> pair_leb a c = true.
Proof. rewrite !pair_leb_spec. lia. Qed.

Lemma pair_leb_refl a : pair_leb a a = true.
Proof. apply pair_leb_spec. lia. Qed.

(** [pq_extract] takes a least pair out of the bag. *)
Lemma pq_extract_spec x l mn rest :
  pq_extract x l = (mn, rest) ->
  Permutation (x :: l) (mn :: rest) /\
  pair_leb mn x = true /\
  (forall y, In y rest -> pair_leb mn y = true).
Proof.
  revert x mn rest. induction l as [|y l IH]; intros x mn rest H; simpl in H.
  - inversion H; subst. split; [done|]. split; [apply pair_leb_refl | intros y []].
  - destruct (pair_leb x y) eqn:Hxy.
    + destruct (pq_extract x l) as [mn' rest'] eqn:He. inversion H; subst.
      destruct (IH _ _ _ He) as (Hp & Hx & Hr).
      split; [|split; [done|]].
      * rewrite (perm_swap y x l). rewrite (perm_swap y mn rest').
        by apply perm_skip.
      * intros z [<-|Hz]; [|by apply Hr]. by eapply pair_leb_trans.
    + destruct (pq_extract y l) as [mn' rest'] eqn:He. inversion H; subst.
      destruct (IH _ _ _ He) as (Hp & Hy & Hr).
      apply pair_leb_false in Hxy.
      split; [|split].
      * rewrite (perm_swap x mn rest'). apply perm_skip. done.
      * by eapply pair_leb_trans.
      * intros z [<-|Hz]; [|by apply Hr]. by eapply pair_leb_trans.
Qed.

(** The scan of one column in Dijkstra's algorithm, as an update. *)
Lemma dijkstra_relax_pure m u dist pq v :
  wf m -> Z.of_nat (length dist) = n_ m -> node m u -> node m v ->
  INT32_MIN <= at_ dist u + cell m u v <= INT32_MAX ->
  dijkstra_relax m u (dist, pq) v
  = Ret (if negb (u =? v) && edge m u v && (at_ dist u + cell m u v <? at_ dist v)
         then (<[Z.to_nat v := at_ dist u + cell m u v]> dist,
               (at_ dist u + cell m u v, v) :: pq)
         else (dist, pq)).
Proof.
  intros Hwf Hl Hu Hv Hadd. unfold dijkstra_relax, node in *.
  destruct (u =? v); [done|]. cbn [negb andb].
  rewrite read_wf by done. cbn [mbind outcome_bind]. unfold edge.
  destruct (cell m u v =? NO_EDGE); [done|]. cbn [negb andb].
  rewrite (load_at dist (n_ m) u) by done. cbn [mbind outcome_bind].
  rewrite add_i32_ok by done. cbn [mbind outcome_bind].
  rewrite (load_at dist (n_ m) v) by done. cbn [mbind outcome_bind].
  destruct (at_ dist u + cell m u v <? at_ dist v); [|done].
  rewrite (store_at dist (n_ m)) by done. done.
Qed.

Lemma NoDup_nodes_length m (l : list Z) :
  0 <= n_ m -> NoDup l -> (forall x, In x l -> node m x) -> Z.of_nat (length l) <= n_ m.
Proof.
  intros Hn Hnd Hin.
  assert (length l <= length (seqZ 0 (n_ m)))%nat as H.
  { apply NoDup_incl_length; [by apply NoDup_ListNoDup|]. intros x Hx. apply In_seqZ.
    specialize (Hin x Hx). unfold node in Hin. lia. }
  rewrite length_seqZ in H. lia.
Qed.


Section DijkstraInv.
Variables (m : AdjMat.t) (start W : Z).
Hypothesis Hwf : wf m.
Hypothesis HW0 : 0 <= W.
Hypothesis HW : weights_le m W.

Lemma dij_settled_le E cur seen pq D phi dist :
  dij_inv m start W E cur seen pq D phi dist ->
  Z.of_nat (length (cur ++ E)) <= n_ m.
Proof.
  intros I. apply NoDup_nodes_length; [apply (wf_small m Hwf) | apply I |].
  intros x Hx. apply in_app_iff in Hx as [Hx|Hx].
  - by apply (di_cur_at _ _ _ _ _ _ _ _ _ _ I).
  - by apply (di_set _ _ _ _ _ _ _ _ _ _ I).
Qed.

(** The invariant is kept by the update that one column scan makes. *)
Lemma dij_relax_core E u seen pq D phi dist v :
  node m v ->
  dij_inv m start W E [u] seen pq D phi dist ->
  let alt := D + cell m u v in
  let c := negb (u =? v) && edge m u v && (alt <? at_ dist v) in
  dij_inv m start W E [u] (seen ++ [v])
    (if c then (alt, v) :: pq else pq) D phi
    (if c then <[Z.to_nat v := alt]> dist else dist).
Proof.
  intros Hv I.
  pose proof (wf_small m Hwf) as Hn.
  pose proof INF_val as HINF.
  pose proof (dij_settled_le _ _ _ _ _ _ _ I) as HE. simpl in HE.
  destruct (di_cur_at _ _ _ _ _ _ _ _ _ _ I u ltac:(by left)) as [Hu HuD].
  pose proof (di_D _ _ _ _ _ _ _ _ _ _ I) as HD.
  pose proof (cell_range m u v Hwf Hu Hv) as Hc.
  pose proof (HW u v Hu Hv) as HcW.
  pose proof (di_len _ _ _ _ _ _ _ _ _ _ I) as Hlen.
  intros alt c. subst c.
  destruct (negb (u =? v) && edge m u v && (alt <? at_ dist v)) eqn:Hcnd.
  - apply andb_true_iff in Hcnd as [Hcnd Hlt]. apply andb_true_iff in Hcnd as [Hne He].
    apply negb_true_iff, Z.eqb_neq in Hne. apply Z.ltb_lt in Hlt.
    assert (Harc : arc m u v) by (by apply edge_arc).
    pose proof (di_range _ _ _ _ _ _ _ _ _ _ I v Hv) as Hvr.
    assert (Hframe : forall w, 0 <= w -> w <> v ->
              at_ (<[Z.to_nat v := alt]> dist) w = at_ dist w).
    { intros w Hw Hwv. apply at_insert_ne; [apply Hv | done | congruence]. }
    assert (Hnew : at_ (<[Z.to_nat v := alt]> dist) v = alt).
    { apply at_insert_eq. unfold node in Hv. lia. }
    assert (Hmono : forall w, node m w ->
              at_ (<[Z.to_nat v := alt]> dist) w <= at_ dist w).
    { intros w Hw. destruct (Z.eq_dec w v) as [->|Hwv]; [lia|].
      rewrite Hframe; [lia | apply Hw | done]. }
    assert (HvE : forall x, In x ([u] ++ E) -> x <> v).
    { intros x [<-|Hx]; [done|]. intros ->.
      destruct (di_set _ _ _ _ _ _ _ _ _ _ I v Hx). lia. }
    constructor.
    + by rewrite length_insert.
    + apply I.
    + rewrite Hframe; [apply I | apply I |].
      intros ->. rewrite (di_start _ _ _ _ _ _ _ _ _ _ I) in Hlt. lia.
    + intros w Hw. destruct (Z.eq_dec w v) as [->|Hwv]; [lia|].
      rewrite Hframe; [by apply I | apply Hw | done].
    + done.
    + intros k x [Hx|Hx].
      * inversion Hx; subst k x. rewrite Hnew. simpl length. split; [done|]. nia.
      * destruct (di_pq _ _ _ _ _ _ _ _ _ _ I k x Hx) as (Hxn & Hxk & HDk & Hkb).
        split; [done|]. pose proof (Hmono x Hxn). split; [lia|done].
    + apply NoDup_cons. split; [|apply I]. rewrite list_elem_of_In. intros Hin.
      destruct (di_pq _ _ _ _ _ _ _ _ _ _ I alt v Hin) as (_ & Hle & _). lia.
    + intros x Hx. destruct (di_set _ _ _ _ _ _ _ _ _ _ I x Hx) as [Hxn Hxd].
      split; [done|]. rewrite Hframe; [done | apply Hxn |].
      apply HvE. by right.
    + intros x [<-|[]]. split; [done|]. rewrite Hframe; [done | apply Hu | done].
    + apply I.
    + intros x k Hx [Hk|Hk].
      * exfalso. apply (HvE x Hx). congruence.
      * rewrite Hframe; [by apply (di_stale _ _ _ _ _ _ _ _ _ _ I) | | by apply HvE].
        apply in_app_iff in Hx as [[<-|[]]|Hx]; [apply Hu|].
        apply (di_set _ _ _ _ _ _ _ _ _ _ I x Hx).
    + intros x w Hx Hxw.
      pose proof (di_closed _ _ _ _ _ _ _ _ _ _ I x w Hx Hxw) as Hcl.
      destruct Hxw as (Hxn & Hwn & _).
      rewrite (Hframe x); [|apply Hxn|apply HvE; by right].
      pose proof (Hmono w Hwn). lia.
    + intros x w [<-|[]] Hw Hxw. rewrite (Hframe u); [|apply Hu|done].
      apply in_app_iff in Hw as [Hw|[<-|[]]].
      * pose proof (di_cur _ _ _ _ _ _ _ _ _ _ I u w ltac:(by left) Hw Hxw).
        destruct Hxw as (_ & Hwn & _). pose proof (Hmono w Hwn). lia.
      * rewrite Hnew. unfold alt. lia.
    + intros w Hw Hwi. destruct (Z.eq_dec w v) as [->|Hwv].
      * right. left. by rewrite Hnew.
      * rewrite Hframe in * by (apply Hw || done).
        destruct (di_cover _ _ _ _ _ _ _ _ _ _ I w Hw Hwi); [by left|right; by right].
    + intros w Hw Hwi. destruct (Z.eq_dec w v) as [->|Hwv].
      * eapply reach_arc; [|exact Harc].
        apply (di_reach _ _ _ _ _ _ _ _ _ _ I); [done|]. lia.
      * rewrite Hframe in Hwi by (apply Hw || done).
        by apply (di_reach _ _ _ _ _ _ _ _ _ _ I).
    + intros w Hw Hws Hwi. destruct (Z.eq_dec w v) as [->|Hwv].
      * exists u. split; [by left|]. split; [done|].
        rewrite Hnew, Hframe; [unfold alt; lia | apply Hu | done].
      * rewrite Hframe in Hwi by (apply Hw || done).
        destruct (di_pred _ _ _ _ _ _ _ _ _ _ I w Hw Hws Hwi) as (x & Hx & Hxw & Heq).
        exists x. split; [done|]. split; [done|].
        rewrite (Hframe w), (Hframe x); [done | | | apply Hw | done].
        -- apply Hxw.
        -- by apply HvE.
    + pose proof (di_phi _ _ _ _ _ _ _ _ _ _ I) as Hphi.
      rewrite !length_app in *. simpl length in *. nia.
    + apply (sorted_frame dist); [|apply I].
      intros x Hx. apply Hframe; [apply (di_set _ _ _ _ _ _ _ _ _ _ I x Hx)|].
      apply HvE. by right.
  - destruct I. constructor; try done.
    + intros x w [<-|[]] Hw Hxw.
      apply in_app_iff in Hw as [Hw|[<-|[]]]; [by apply di_cur0; [left|..]|].
      destruct Hxw as (_ & _ & Hne & He).
      apply andb_false_iff in Hcnd as [Hcnd|Hcnd].
      * apply andb_false_iff in Hcnd as [Hcnd|Hcnd]; [|congruence].
        apply negb_false_iff, Z.eqb_eq in Hcnd. done.
      * apply Z.ltb_ge in Hcnd. rewrite HuD. unfold alt in Hcnd. lia.
    + rewrite !length_app in *. simpl length in *. nia.
Qed.

(** A column scan that returns has made that update. *)
Lemma dijkstra_relax_Ret u dist pq v st' :
  Z.of_nat (length dist) = n_ m -> node m u -> node m v ->
  dijkstra_relax m u (dist, pq) v = Ret st' ->
  st' = (if negb (u =? v) && edge m u v && (at_ dist u + cell m u v <? at_ dist v)
         then (<[Z.to_nat v := at_ dist u + cell m u v]> dist,
               (at_ dist u + cell m u v, v) :: pq)
         else (dist, pq)).
Proof.
  intros Hl Hu Hv. unfold dijkstra_relax, node in *.
  destruct (u =? v); [intros H; by inversion H|]. cbn [negb andb].
  rewrite read_wf by done. cbn [mbind outcome_bind]. unfold edge.
  destruct (cell m u v =? NO_EDGE); [intros H; by inversion H|]. cbn [negb andb].
  rewrite (load_at dist (n_ m) u) by done. cbn [mbind outcome_bind].
  unfold add_i32. cbv zeta.
  destruct ((INT32_MIN <=? at_ dist u + cell m u v) && (at_ dist u + cell m u v <=? INT32_MAX));
    [|discriminate].
  cbn [mbind outcome_bind].
  rewrite (load_at dist (n_ m) v) by done. cbn [mbind outcome_bind].
  destruct (at_ dist u + cell m u v <? at_ dist v); [|intros H; by inversion H].
  rewrite (store_at dist (n_ m)) by done. cbn [mbind outcome_bind].
  intros H; by inversion H.
Qed.

Lemma dij_relax_pres E u seen pq D phi dist v dist' pq' :
  node m v ->
  dij_inv m start W E [u] seen pq D phi dist ->
  dijkstra_relax m u (dist, pq) v = Ret (dist', pq') ->
  dij_inv m start W E [u] (seen ++ [v]) pq' D phi dist'.
Proof.
  intros Hv I H.
  destruct (di_cur_at _ _ _ _ _ _ _ _ _ _ I u ltac:(by left)) as [Hu HuD].
  apply dijkstra_relax_Ret in H; [|apply I|done|done].
  pose proof (dij_relax_core E u seen pq D phi dist v Hv I) as Hcore.
  cbv zeta in Hcore. rewrite HuD in H.
  destruct (negb (u =? v) && edge m u v && (D + cell m u v <? at_ dist v));
    inversion H; subst; exact Hcore.
Qed.

Lemma dij_pop E pq D phi dist x l d u pq' :
  dij_inv m start W E [] [] pq D phi dist ->
  pq = x :: l -> pq_extract x l = ((d, u), pq') ->
  node m u /\
  (at_ dist u < d -> dij_inv m start W E [] [] pq' D (phi - 1) dist) /\
  (d <= at_ dist u -> dij_inv m start W E [u] [] pq' d (phi - 1) dist).
Proof.
  intros I -> Hex.
  destruct (pq_extract_spec _ _ _ _ Hex) as (Hperm & _ & Hmin).
  pose proof (wf_small m Hwf) as Hn.
  pose proof (dij_settled_le _ _ _ _ _ _ _ I) as HE. simpl in HE.
  pose proof (di_nodup _ _ _ _ _ _ _ _ _ _ I) as Hnd.
  rewrite Hperm in Hnd. apply NoDup_cons in Hnd as [Hnotin Hnd'].
  rewrite list_elem_of_In in Hnotin.
  assert (Hsub : forall y, In y pq' -> In y (x :: l)).
  { intros y Hy. eapply Permutation_in; [symmetry; exact Hperm|]. by right. }
  assert (Hin : In (d, u) (x :: l)).
  { eapply Permutation_in; [symmetry; exact Hperm|]. by left. }
  assert (Hsplit : forall y, In y (x :: l) -> y = (d, u) \/ In y pq').
  { intros y Hy. eapply Permutation_in in Hy; [|exact Hperm].
    destruct Hy as [<-|Hy]; auto. }
  assert (Hlenpq : length (x :: l) = S (length pq')).
  { by rewrite (Permutation_length Hperm). }
  destruct (di_pq _ _ _ _ _ _ _ _ _ _ I d u Hin) as (Hu & Hud & HDd & Hdb).
  simpl in Hdb.
  assert (Hkey : forall k y, In (k, y) pq' -> d <= k).
  { intros k y Hy. specialize (Hmin _ Hy). apply pair_leb_spec in Hmin. simpl in Hmin. lia. }
  split; [done|]. split.
  - intros Hstale. destruct I. constructor.
    + done.
    + done.
    + done.
    + done.
    + done.
    + intros k y Hy. apply di_pq0. by apply Hsub.
    + done.
    + done.
    + done.
    + done.
    + intros y k Hy Hk. apply di_stale0; [done|]. by apply Hsub.
    + done.
    + done.
    + intros v Hv Hvi. destruct (di_cover0 v Hv Hvi) as [?|Hc]; [by left|].
      right. destruct (Hsplit _ Hc) as [Heq|?]; [|done].
      inversion Heq; subst. lia.
    + done.
    + done.
    + rewrite Hlenpq in di_phi0. simpl length in *. lia.
    + done.
  - intros Hfresh. assert (at_ dist u = d) as Hat by lia.
    assert (HuE : ~ In u E).
    { intros HuE. pose proof (di_stale _ _ _ _ _ _ _ _ _ _ I u d HuE Hin). lia. }
    destruct I. constructor.
    + done.
    + done.
    + done.
    + done.
    + lia.
    + intros k y Hy. destruct (di_pq0 k y (Hsub _ Hy)) as (? & ? & ? & Hb).
      specialize (Hkey k y Hy). simpl length in *.
      split; [done|]. split; [done|]. split; [lia|]. rewrite Nat2Z.inj_succ. nia.
    + done.
    + intros y Hy. destruct (di_set0 y Hy). split; [done|lia].
    + intros y [<-|[]]. done.
    + simpl. apply NoDup_cons. split; [by rewrite list_elem_of_In | done].
    + intros y k [<-|Hy] Hk.
      * specialize (Hkey k u Hk).
        assert (k <> d) by (intros ->; done). lia.
      * apply di_stale0; [done|]. by apply Hsub.
    + done.
    + intros y v _ [].
    + intros v Hv Hvi. destruct (di_cover0 v Hv Hvi) as [?|Hc]; [left; by right|].
      destruct (Hsplit _ Hc) as [Heq|?]; [|by right].
      inversion Heq; subst. left. by left.
    + done.
    + intros v Hv Hvs Hvi. destruct (di_pred0 v Hv Hvs Hvi) as (y & Hy & Hrest).
      exists y. split; [by right | done].
    + rewrite Hlenpq in di_phi0. simpl length in *. nia.
    + done.
Qed.

Lemma dij_finish E u seen pq D phi dist :
  dij_inv m start W E [u] seen pq D phi dist ->
  (forall v, node m v -> In v seen) -> Z.of_nat (length seen) = n_ m ->
  dij_inv m start W (u :: E) [] [] pq D phi dist.
Proof.
  intros I Hseen Hlen. destruct I. simpl in *.
  destruct (di_cur_at0 u ltac:(by left)) as [Hu HuD].
  constructor.
  - done.
  - done.
  - done.
  - done.
  - simpl length. nia.
  - done.
  - done.
  - intros y [<-|Hy]; [split; [done|lia] | by apply di_set0].
  - intros y [].
  - done.
  - done.
  - intros y v [<-|Hy] Hyv; [|by apply di_closed0].
    apply di_cur0; [by left | | done]. apply Hseen. apply Hyv.
  - intros y v [].
  - done.
  - done.
  - done.
  - simpl length in *. nia.
  - constructor; [done|]. apply Forall_forall. intros p Hp.
    apply list_elem_of_In in Hp. rewrite HuD. by apply di_set0.
Qed.

Lemma dij_init :
  node m start ->
  dij_inv m start W [] [] [] [(0, start)] 0 (n_ m * n_ m + 1)
    (<[Z.to_nat start := 0]> (replicate (Z.to_nat (n_ m)) INF)).
Proof.
  intros Hs. pose proof (wf_small m Hwf) as Hn. pose proof INF_val as HINF.
  assert (Hat : forall v, node m v -> v <> start ->
            at_ (<[Z.to_nat start := 0]> (replicate (Z.to_nat (n_ m)) INF)) v = INF).
  { intros v Hv Hne. rewrite at_insert_ne by (unfold node in *; lia).
    apply at_replicate. unfold node in *. lia. }
  assert (Hat0 : at_ (<[Z.to_nat start := 0]> (replicate (Z.to_nat (n_ m)) INF)) start = 0).
  { apply at_insert_eq. rewrite length_replicate. unfold node in *. lia. }
  constructor.
  - rewrite length_insert, length_replicate. lia.
  - done.
  - done.
  - intros v Hv. destruct (Z.eq_dec v start) as [->|Hne]; [lia|].
    rewrite Hat by done. lia.
  - simpl. lia.
  - intros k x [Hx|[]]. inversion Hx; subst. split; [done|]. rewrite Hat0. simpl. lia.
  - apply NoDup_singleton.
  - intros x [].
  - intros x [].
  - simpl. apply NoDup_nil_2.
  - intros x k [].
  - intros x v [].
  - intros x v [].
  - intros v Hv Hvi. destruct (Z.eq_dec v start) as [->|Hne].
    + right. rewrite Hat0. by left.
    + by rewrite Hat in Hvi.
  - intros v Hv Hvi. destruct (Z.eq_dec v start) as [->|Hne]; [constructor|].
    by rewrite Hat in Hvi.
  - intros v Hv Hne Hvi. by rewrite Hat in Hvi.
  - simpl length. lia.
  - constructor.
Qed.

Lemma dij_final E D phi d :
  dij_inv m start W E [] [] [] D phi d -> distances m start d.
Proof.
  intros I. pose proof INF_val as HINF. destruct I. constructor.
  - done.
  - done.
  - done.
  - intros u v Huv Hui.
    destruct (di_cover0 u ltac:(apply Huv) Hui) as [Hp|[]].
    by apply di_closed0.
  - intros v Hv Hvs Hvi. destruct (di_pred0 v Hv Hvs Hvi) as (x & Hx & Hxv & Heq).
    exists x. split; [done|]. split; [|done].
    pose proof (cell_range m x v Hwf ltac:(apply Hxv) Hv).
    pose proof (di_range0 v Hv). destruct Hxv as (_ & _ & _ & He).
    unfold edge in He. apply negb_true_iff, Z.eqb_neq in He. unfold NO_EDGE in He. lia.
  - done.
Qed.

Lemma dij_scan_pres E u D phi cols :
  (forall v, In v cols -> node m v) ->
  forall seen pq dist dist' pq',
  dij_inv m start W E [u] seen pq D phi dist ->
  foldM (dijkstra_relax m u) cols (dist, pq) = Ret (dist', pq') ->
  dij_inv m start W E [u] (seen ++ cols) pq' D phi dist'.
Proof.
  induction cols as [|v cols IH]; intros Hcols seen pq dist dist' pq' I H.
  - simpl in H. inversion H; subst. by rewrite app_nil_r.
  - cbn [foldM] in H. apply bind_Ret_inv in H as ([dist1 pq1] & Hstep & Hrest).
    pose proof (dij_relax_pres E u seen pq D phi dist v dist1 pq1
                  (Hcols v ltac:(by left)) I Hstep) as I1.
    pose proof (IH (fun x Hx => Hcols x (or_intror Hx)) _ _ _ _ _ I1 Hrest) as I2.
    by rewrite <- app_assoc in I2.
Qed.

(** Whenever Dijkstra's loop returns, the invariant holds of what it
    returns, with an empty queue. *)
Lemma dij_loop_pres :
  forall fuel E pq D phi dist d,
  dij_inv m start W E [] [] pq D phi dist ->
  dijkstra_loop fuel m (n_ m) dist pq = Ret d ->
  exists E' D' phi', dij_inv m start W E' [] [] [] D' phi' d.
Proof.
  induction fuel as [|fuel IH]; intros E pq D phi dist d I H.
  - destruct pq; simpl in H; [|done]. inversion H; subst. eauto.
  - destruct pq as [|x l]; [simpl in H; inversion H; subst; eauto|].
    cbn [dijkstra_loop] in H.
    destruct (pq_extract x l) as [[k u] pq'] eqn:Hex.
    destruct (dij_pop E (x :: l) D phi dist x l k u pq' I eq_refl Hex)
      as (Hu & Hstale & Hfresh).
    rewrite (load_at dist (n_ m)) in H; [|apply I|apply Hu].
    cbn [mbind outcome_bind] in H.
    destruct (Z.gtb_spec k (at_ dist u)) as [Hgt|Hle].
    + apply (IH E pq' D (phi - 1) dist d); [apply Hstale; lia | done].
    + specialize (Hfresh Hle).
      apply bind_Ret_inv in H as ([dist2 pq2] & Hscan & Hloop).
      pose proof (dij_scan_pres E u k (phi - 1) (seqZ 0 (n_ m))
                    ltac:(intros v Hv; by apply In_seqZ in Hv) [] pq' dist dist2 pq2
                    Hfresh Hscan) as I2.
      apply (IH (u :: E) pq2 k (phi - 1) dist2 d); [|done].
      apply (dij_finish E u _ pq2 k (phi - 1) dist2 I2).
      * intros v Hv. apply In_seqZ. exact Hv.
      * simpl. rewrite length_seqZ. pose proof (wf_small m Hwf). lia.
Qed.

(** Whenever the weighted search returns, it returns a vector of
    distances. *)
Lemma shortest_path_dijkstra_pres d :
  node m start -> shortest_path m start true = Ret d -> distances m start d.
Proof.
  intros Hs H. pose proof (wf_small m Hwf) as Hn.
  pose proof (dij_init Hs) as I0.
  unfold shortest_path, size in H. rewrite node_in_range in H by apply Hs.
  rewrite (store_at _ (n_ m)) in H; [|rewrite length_replicate; lia|apply Hs].
  cbn [mbind outcome_bind negb] in H.
  destruct (dij_loop_pres _ _ _ _ _ _ _ I0 H) as (E & D & phi & If).
  eapply dij_final; eauto.
Qed.


Section Total.
Hypothesis Hfit : n_ m * W <= INT32_MAX.

Lemma dij_relax_step E u seen pq D phi dist v :
  node m v ->
  dij_inv m start W E [u] seen pq D phi dist ->
  exists dist' pq',
    dijkstra_relax m u (dist, pq) v = Ret (dist', pq') /\
    dij_inv m start W E [u] (seen ++ [v]) pq' D phi dist'.
Proof.
  intros Hv I.
  pose proof (dij_settled_le _ _ _ _ _ _ _ I) as HE. simpl in HE.
  destruct (di_cur_at _ _ _ _ _ _ _ _ _ _ I u ltac:(by left)) as [Hu HuD].
  pose proof (di_D _ _ _ _ _ _ _ _ _ _ I) as HD.
  pose proof (cell_range m u v Hwf Hu Hv) as Hc.
  pose proof (HW u v Hu Hv) as HcW.
  assert (D + cell m u v <= INT32_MAX) as Hmax by nia.
  pose proof (dij_relax_core E u seen pq D phi dist v Hv I) as Hcore.
  cbv zeta in Hcore.
  rewrite dijkstra_relax_pure;
    [|done|apply I|done|done|rewrite HuD; unfold INT32_MIN; lia].
  rewrite HuD.
  destruct (negb (u =? v) && edge m u v && (D + cell m u v <? at_ dist v));
    eexists _, _; (split; [reflexivity | exact Hcore]).
Qed.

Lemma dij_scan E u D phi cols :
  (forall v, In v cols -> node m v) ->
  forall seen pq dist,
  dij_inv m start W E [u] seen pq D phi dist ->
  exists dist' pq',
    foldM (dijkstra_relax m u) cols (dist, pq) = Ret (dist', pq') /\
    dij_inv m start W E [u] (seen ++ cols) pq' D phi dist'.
Proof.
  induction cols as [|v cols IH]; intros Hcols seen pq dist I.
  - exists dist, pq. rewrite app_nil_r. done.
  - destruct (dij_relax_step E u seen pq D phi dist v (Hcols v ltac:(by left)) I)
      as (dist1 & pq1 & Hstep & I1).
    destruct (IH (fun x Hx => Hcols x (or_intror Hx)) (seen ++ [v]) pq1 dist1 I1)
      as (dist2 & pq2 & Hrest & I2).
    exists dist2, pq2. cbn [foldM]. rewrite Hstep. cbn [mbind outcome_bind].
    rewrite Hrest. rewrite <- app_assoc in I2. done.
Qed.

Lemma dij_loop_total :
  forall fuel E pq D phi dist,
  dij_inv m start W E [] [] pq D phi dist ->
  phi <= Z.of_nat fuel ->
  exists d E' D' phi',
    dijkstra_loop fuel m (n_ m) dist pq = Ret d /\
    dij_inv m start W E' [] [] [] D' phi' d.
Proof.
  induction fuel as [|fuel IH]; intros E pq D phi dist I Hfuel.
  - pose proof (di_phi _ _ _ _ _ _ _ _ _ _ I) as Hp.
    pose proof (dij_settled_le _ _ _ _ _ _ _ I) as HE.
    pose proof (wf_small m Hwf) as Hn. simpl in *.
    assert (pq = []) as -> by (destruct pq; [done | simpl in *; nia]).
    exists dist, E, D, phi. done.
  - destruct pq as [|x l].
    + exists dist, E, D, phi. done.
    + cbn [dijkstra_loop].
      destruct (pq_extract x l) as [[d u] pq'] eqn:Hex.
      destruct (dij_pop E (x :: l) D phi dist x l d u pq' I eq_refl Hex)
        as (Hu & Hstale & Hfresh).
      rewrite (load_at dist (n_ m)); [|apply I|apply Hu]. cbn [mbind outcome_bind].
      destruct (Z.gtb_spec d (at_ dist u)) as [Hgt|Hle].
      * apply (IH E pq' D (phi - 1) dist); [apply Hstale; lia | lia].
      * specialize (Hfresh Hle).
        destruct (dij_scan E u d (phi - 1) (seqZ 0 (n_ m))
                    ltac:(intros v Hv; by apply In_seqZ in Hv) [] pq' dist Hfresh)
          as (dist2 & pq2 & Hscan & I2).
        rewrite Hscan. cbn [mbind outcome_bind].
        apply (IH (u :: E) pq2 d (phi - 1) dist2); [|lia].
        apply (dij_finish E u _ pq2 d (phi - 1) dist2 I2).
        -- intros v Hv. apply In_seqZ. exact Hv.
        -- simpl. rewrite length_seqZ. pose proof (wf_small m Hwf). lia.
Qed.

(** When no path sum can exceed [INT32_MAX], the weighted search returns
    a vector of distances. *)
Lemma shortest_path_dijkstra :
  node m start ->
  exists d, shortest_path m start true = Ret d /\ distances m start d.
Proof.
  intros Hs. pose proof (wf_small m Hwf) as Hn.
  pose proof (dij_init Hs) as I0.
  destruct (dij_loop_total (dijkstra_fuel (n_ m)) [] [(0, start)] 0 _ _ I0
              ltac:(unfold dijkstra_fuel; nia)) as (d & E & D & phi & Hloop & If).
  exists d. split.
  - unfold shortest_path, size. rewrite node_in_range by apply Hs.
    rewrite (store_at _ (n_ m)); [|rewrite length_replicate; lia|apply Hs].
    cbn [mbind outcome_bind negb]. exact Hloop.
  - eapply dij_final; eauto.
Qed.



End Total.

End DijkstraInv.

(** *** Unit weights: both searches agree *)

Lemma unit_distances_le m start d1 d2 :
  unit_distances m start d1 -> unit_distances m start d2 ->
  forall v, node m v -> at_ d1 v <= at_ d2 v.
Proof.
  intros U1 U2.
  assert (H : forall (k : nat) v, node m v -> at_ d2 v <= Z.of_nat k ->
            at_ d2 v <> INF -> at_ d1 v <= at_ d2 v).
  { induction k as [|k IH]; intros v Hv Hk Hi.
    - destruct (Z.eq_dec v start) as [->|Hne].
      + rewrite (ud_start _ _ _ U1), (ud_start _ _ _ U2). lia.
      + destruct (ud_pred _ _ _ U2 v Hv Hne Hi) as (u & Huv & Hui & Heq).
        pose proof (ud_range _ _ _ U2 u ltac:(apply Huv)). lia.
    - destruct (Z.eq_dec v start) as [->|Hne].
      + rewrite (ud_start _ _ _ U1), (ud_start _ _ _ U2). lia.
      + destruct (ud_pred _ _ _ U2 v Hv Hne Hi) as (u & Huv & Hui & Heq).
        pose proof (ud_range _ _ _ U2 u ltac:(apply Huv)) as Hr.
        pose proof (IH u ltac:(apply Huv) ltac:(lia) Hui) as Hle.
        pose proof (ud_arc _ _ _ U1 u v Huv ltac:(lia)). lia. }
  intros v Hv. destruct (Z.eq_dec (at_ d2 v) INF) as [Hi|Hi].
  - rewrite Hi. apply (ud_range _ _ _ U1 v Hv).
  - pose proof (ud_range _ _ _ U2 v Hv) as Hr.
    apply (H (Z.to_nat (at_ d2 v)) v Hv); [lia | done].
Qed.

Lemma unit_distances_unique m start d1 d2 :
  unit_distances m start d1 -> unit_distances m start d2 -> d1 = d2.
Proof.
  intros U1 U2. apply list_eq. intros i.
  pose proof (ud_len _ _ _ U1) as L1. pose proof (ud_len _ _ _ U2) as L2.
  destruct (Nat.lt_ge_cases i (length d1)) as [Hlt|Hge].
  - assert (node m (Z.of_nat i)) as Hv by (unfold node; lia).
    pose proof (unit_distances_le m start d1 d2 U1 U2 _ Hv) as H12.
    pose proof (unit_distances_le m start d2 d1 U2 U1 _ Hv) as H21.
    unfold at_ in *. rewrite Nat2Z.id in *.
    destruct (lookup_lt_is_Some_2 d1 i) as [x Hx]; [lia|].
    destruct (lookup_lt_is_Some_2 d2 i) as [y Hy]; [lia|].
    rewrite Hx, Hy in *. simpl in *. f_equal. lia.
  - rewrite !lookup_ge_None_2; [done | lia | lia].
Qed.

Lemma unit_weights_le m : wf m -> unit_weights m -> weights_le m 1.
Proof.
  intros Hwf Hu i j Hi Hj.
  destruct (Z.eq_dec (cell m i j) NO_EDGE) as [->|Hne]; [unfold NO_EDGE; lia|].
  rewrite (Hu i j Hi Hj Hne). lia.
Qed.

Lemma distances_unit m start d :
  unit_weights m -> distances m start d -> unit_distances m start d.
Proof.
  intros Hu Hd.
  assert (Hone : forall u v, arc m u v -> cell m u v = 1).
  { intros u v (Hun & Hvn & _ & He). apply Hu; [done|done|].
    unfold edge in He. by apply negb_true_iff, Z.eqb_neq in He. }
  destruct Hd. constructor.
  - done.
  - done.
  - done.
  - intros u v Huv Hui. rewrite <- (Hone u v Huv). by apply wd_arc0.
  - intros v Hv Hvs Hvi. destruct (wd_pred0 v Hv Hvs Hvi) as (u & Huv & Hui & Heq).
    exists u. rewrite <- (Hone u v Huv). done.
Qed.

Lemma unit_weightsb_sound m : unit_weightsb m = true -> unit_weights m.
Proof.
  unfold unit_weightsb. rewrite forallb_forall. intros H i j Hi Hj Hne.
  unfold cell in *. destruct (data_ m !! Z.to_nat (i * n_ m + j)) as [w|] eqn:Hw; [|done].
  simpl in *. apply list_elem_of_lookup_2, list_elem_of_In in Hw.
  specialize (H w Hw). apply orb_true_iff in H as [H|H]; [|by apply Z.eqb_eq].
  apply Z.eqb_eq in H. done.
Qed.

(** C5: on every matrix whose edges all have weight 1 and for every start
    node below [n], the breadth-first search and Dijkstra's algorithm both
    return, and they return the same distance vector. *)
Theorem bfs_dijkstra_agree (m : AdjMat.t) (start : Z) :
  wf m -> unit_weights m -> 0 <= start < n_ m ->
  exists d, shortest_path m start false = Ret d /\
            shortest_path m start true = Ret d.
Proof.
  intros Hwf Hu Hs. pose proof (wf_small m Hwf) as Hn.
  destruct (shortest_path_bfs m start Hwf Hs) as (d1 & H1 & U1 & _).
  destruct (shortest_path_dijkstra m start 1 Hwf ltac:(lia)
              (unit_weights_le m Hwf Hu) ltac:(unfold INT32_MAX; lia) Hs)
    as (d2 & H2 & D2).
  exists d1. split; [done|]. rewrite H2. f_equal.
  apply (unit_distances_unique m start); [by apply distances_unit | done].
Qed.

Lemma bfs_dijkstra_agree_witness :
  exists d,
    shortest_path (mk 4 [0; 1; 0; 0; 1; 0; 1; 0; 0; 1; 0; 1; 0; 0; 1; 0]) 0 false = Ret d /\
    shortest_path (mk 4 [0; 1; 0; 0; 1; 0; 1; 0; 0; 1; 0; 1; 0; 0; 1; 0]) 0 true = Ret d.
Proof.
  apply (bfs_dijkstra_agree (mk 4 [0; 1; 0; 0; 1; 0; 1; 0; 0; 1; 0; 1; 0; 0; 1; 0]) 0).
  - apply wfb_sound. vm_compute. reflexivity.
  - apply unit_weightsb_sound. vm_compute. reflexivity.
  - simpl. lia.
Defined.

(** Scenario A: the path 0 - 1 - 2 - 3. *)
Example scenario_A :
  shortest_path (mk 4 [0; 1; 0; 0; 1; 0; 1; 0; 0; 1; 0; 1; 0; 0; 1; 0]) 0 false
    = Ret [0; 1; 2; 3].
Proof. vm_compute. reflexivity. Qed.

End DijkstraFacts.

(** ** Results and limits of [shortest_path] *)

Module ShortestPath.
Import AdjMat AdjMatFacts Algorithms Paths Neighbours PathFacts DijkstraFacts.

Lemma shortest_path_out_of_range m start weighed :
  n_ m <= start -> shortest_path m start weighed = throw_oor msg_node.
Proof.
  intros H. unfold shortest_path, size.
  destruct (Z.geb_spec start (n_ m)); [done | lia].
Qed.

(** Every matrix of the data model with a zero diagonal is produced by the
    constructor followed by successful [set] calls: write the cells in
    buffer order. *)
Lemma built_prefix m (k : nat) :
  wf m -> (forall i, 0 <= i < n_ m -> cell m i i = 0) ->
  (k <= length (data_ m))%nat ->
  built (n_ m) (mk (n_ m) (take k (data_ m) ++ replicate (length (data_ m) - k) 0)).
Proof.
  intros Hwf Hdiag. induction k as [|k IH]; intros Hk.
  - simpl. rewrite Nat.sub_0_r.
    replace (length (data_ m)) with (Z.to_nat (alloc_len (n_ m)))
      by (rewrite <- (wf_alloc m Hwf); lia).
    apply built_make.
  - specialize (IH ltac:(lia)).
    destruct (wf_sq m Hwf) as [Hn0 Hsq].
    pose proof (wf_square m Hwf) as Hlen.
    destruct (lookup_lt_is_Some_2 (data_ m) k ltac:(lia)) as [x Hx].
    set (n := n_ m) in *.
    assert (0 < n) as Hn by nia.
    set (i := Z.of_nat k / n). set (j := Z.of_nat k mod n).
    assert (0 <= j < n) as Hj by (apply Z.mod_pos_bound; lia).
    assert (Z.of_nat k = i * n + j) as Hk_eq.
    { unfold i, j. rewrite (Z.div_mod (Z.of_nat k) n) at 1 by lia. lia. }
    assert (0 <= i < n) as Hi.
    { split; [apply Z.div_pos; lia|]. apply Z.div_lt_upper_bound; lia. }
    set (d := take k (data_ m) ++ replicate (length (data_ m) - k) 0) in *.
    assert (length d = length (data_ m)) as Hd.
    { unfold d. rewrite length_app, length_take, length_replicate. lia. }
    assert (take (S k) (data_ m) ++ replicate (length (data_ m) - S k) 0
            = <[k := x]> d) as Hstep.
    { unfold d. rewrite (take_S_r _ _ _ Hx), <- app_assoc.
      rewrite insert_app_r_alt by (rewrite length_take; lia).
      rewrite length_take, Nat.min_l by lia. rewrite Nat.sub_diag.
      replace (length (data_ m) - k)%nat with (S (length (data_ m) - S k)) by lia.
      reflexivity. }
    rewrite Hstep.
    destruct (Z.eq_dec i j) as [Heq|Hne].
    + assert (x = 0) as ->.
      { pose proof (Hdiag i Hi) as Hc. unfold cell in Hc. fold n in Hc.
        rewrite Heq in Hc at 2. rewrite <- Hk_eq, Nat2Z.id, Hx in Hc. exact Hc. }
      rewrite list_insert_id; [exact IH|].
      unfold d. rewrite lookup_app_r by (rewrite length_take; lia).
      apply lookup_replicate_2. rewrite length_take. lia.
    + assert (set (mk n d) i j x = (Ret tt, mk n (<[k := x]> d))) as Hset.
      { unfold set, check_bounds, offset. simpl.
        destruct (Z.geb_spec i n); [lia|]. destruct (Z.geb_spec j n); [lia|].
        simpl. destruct (Z.eqb_spec i j); [lia|].
        rewrite <- Hk_eq, u32_small by lia.
        unfold store. rewrite Hd.
        destruct (Z.ltb_spec (Z.of_nat k) 0); [lia|].
        destruct (Z.leb_spec (Z.of_nat (length (data_ m))) (Z.of_nat k)); [lia|].
        simpl. by rewrite Nat2Z.id. }
      pose proof (built_set n (mk n d) i j x IH ltac:(lia) ltac:(lia)) as Hb.
      rewrite Hset in Hb. simpl in Hb. by apply Hb.
Qed.

Lemma built_of_wf m :
  wf m -> (forall i, 0 <= i < n_ m -> cell m i i = 0) -> built (n_ m) m.
Proof.
  intros Hwf Hdiag.
  pose proof (built_prefix m (length (data_ m)) Hwf Hdiag ltac:(lia)) as H.
  rewrite firstn_all, Nat.sub_diag, app_nil_r in H. by destruct m.
Qed.

Lemma weights_le_u16 m : wf m -> weights_le m u16_max.
Proof. intros Hwf i j Hi Hj. by apply cell_range. Qed.

(** Whenever [shortest_path] returns, in either mode, the start node has
    distance 0 and every node it has left the sentinel at is reachable. *)
Lemma shortest_path_returned m start weighed d :
  wf m -> 0 <= start < n_ m ->
  shortest_path m start weighed = Ret d ->
  Z.of_nat (length d) = n_ m /\ at_ d start = 0 /\
  (forall v, node m v -> ~ reach m start v -> at_ d v = INF).
Proof.
  intros Hwf Hs H.
  assert (Z.of_nat (length d) = n_ m /\ at_ d start = 0 /\
          (forall v, node m v -> at_ d v <> INF -> reach m start v)) as (Hl & H0 & Hr).
  { destruct weighed.
    - pose proof (shortest_path_dijkstra_pres m start u16_max Hwf
                    ltac:(unfold u16_max; lia) (weights_le_u16 m Hwf) d Hs H) as Hd.
      destruct Hd. done.
    - destruct (shortest_path_bfs m start Hwf Hs) as (d' & H' & U & Hre).
      rewrite H' in H. inversion H; subst d'. destruct U. done. }
  split; [done|]. split; [done|].
  intros v Hv Hnr. destruct (Z.eq_dec (at_ d v) INF); [done|].
  exfalso. apply Hnr. by apply Hr.
Qed.

(** *** A ring too heavy for [int32_t] *)

Lemma cell_tabulate n f i j :
  0 <= i < n -> 0 <= j < n -> cell (tabulate n f) i j = f i j.
Proof.
  intros Hi Hj. unfold cell, tabulate. simpl.
  rewrite list_lookup_fmap.
  rewrite lookup_seqZ_lt by (rewrite Z2Nat.id by nia; nia).
  simpl. rewrite Z2Nat.id by nia. rewrite Z.add_0_l.
  f_equal.
  - rewrite Z.div_add_l by lia. rewrite Z.div_small by lia. lia.
  - rewrite Z.add_comm, Z.mod_add by lia. apply Z.mod_small. lia.
Qed.

Lemma wf_tabulate n f :
  0 <= n -> n * n < 2 ^ 32 ->
  (forall i j, 0 <= f i j <= u16_max) -> wf (tabulate n f).
Proof.
  intros Hn Hsq Hf. unfold tabulate. constructor; simpl.
  - nia.
  - rewrite length_fmap, length_seqZ. unfold alloc_len.
    rewrite u32_small by nia. lia.
  - rewrite length_fmap, length_seqZ. lia.
  - apply Forall_fmap, Forall_forall. intros k _. apply Hf.
Qed.

Lemma foldM_app {S A} (body : S -> A -> outcome S) l1 l2 s :
  foldM body (l1 ++ l2) s = foldM body l1 s ≫= foldM body l2.
Proof.
  revert s. induction l1 as [|x l1 IH]; intros s; simpl; [done|].
  destruct (body s x) as [s1| | |]; simpl; [apply IH | done | done | done].
Qed.

Lemma foldM_id {S A} (body : S -> A -> outcome S) l s :
  (forall x, In x l -> body s x = Ret s) -> foldM body l s = Ret s.
Proof.
  induction l as [|x l IH]; intros H; simpl; [done|].
  rewrite H by (by left). simpl. apply IH. intros; apply H; by right.
Qed.

Lemma relax_no_edge m u dist pq v :
  wf m -> node m u -> node m v -> u = v \/ cell m u v = NO_EDGE ->
  dijkstra_relax m u (dist, pq) v = Ret (dist, pq).
Proof.
  intros Hwf Hu Hv H. unfold dijkstra_relax.
  destruct (Z.eqb_spec u v); [done|]. destruct H as [|H]; [done|].
  rewrite read_wf by done. simpl. by rewrite H.
Qed.

Lemma relax_overflow m u dist pq v :
  wf m -> Z.of_nat (length dist) = n_ m -> node m u -> node m v ->
  u <> v -> cell m u v <> NO_EDGE -> INT32_MAX < at_ dist u + cell m u v ->
  dijkstra_relax m u (dist, pq) v = Undefined.
Proof.
  intros Hwf Hl Hu Hv Hne Hc Hov. unfold dijkstra_relax.
  destruct (Z.eqb_spec u v); [done|].
  rewrite read_wf by done. cbn [mbind outcome_bind].
  destruct (Z.eqb_spec (cell m u v) NO_EDGE); [done|].
  rewrite (load_at dist (n_ m) u) by done. cbn [mbind outcome_bind].
  unfold add_i32. cbv zeta.
  destruct (Z.leb_spec (at_ dist u + cell m u v) INT32_MAX); [lia|].
  by rewrite andb_false_r.
Qed.

Section HeavyRing.
Variables (n K : Z).
Hypothesis HK : 0 <= K.
Hypothesis Hn : K + 2 <= n.
Hypothesis Hsq : n * n < 2 ^ 32.
Hypothesis Hlo : K * u16_max <= INT32_MAX.
Hypothesis Hhi : INT32_MAX < (K + 1) * u16_max.

Lemma heavy_ring_wf : wf (heavy_ring n).
Proof.
  apply wf_tabulate; [lia | done |]. intros i j.
  destruct (_ || _); unfold u16_max; lia.
Qed.

Lemma heavy_ring_cell i j :
  0 <= i <= n - 2 -> 0 <= j < n ->
  cell (heavy_ring n) i j = if j =? i + 1 then u16_max else 0.
Proof.
  intros Hi Hj. unfold heavy_ring. rewrite cell_tabulate by lia.
  destruct (Z.eqb_spec i (n - 1)); [lia|]. simpl. by rewrite orb_false_r.
Qed.

Lemma ring_dist_spec (k : nat) :
  Z.of_nat k < n ->
  Z.of_nat (length (ring_dist n k)) = n /\
  (forall j, 0 <= j <= Z.of_nat k -> at_ (ring_dist n k) j = j * u16_max) /\
  (forall j, Z.of_nat k < j < n -> at_ (ring_dist n k) j = INF).
Proof.
  induction k as [|k IH]; intros Hk.
  - simpl ring_dist. split; [|split].
    + rewrite length_insert, length_replicate. lia.
    + intros j Hj. assert (j = 0) as -> by lia.
      rewrite at_insert_eq by (rewrite length_replicate; lia). lia.
    + intros j Hj. rewrite at_insert_ne by lia. apply at_replicate. lia.
  - destruct (IH ltac:(lia)) as (Hl & Hle & Hgt).
    cbn [ring_dist]. split; [|split].
    + by rewrite length_insert.
    + intros j Hj. destruct (Z.eq_dec j (Z.of_nat (S k))) as [->|Hne].
      * rewrite at_insert_eq by lia. done.
      * rewrite at_insert_ne by lia. apply Hle. lia.
    + intros j Hj. rewrite at_insert_ne by lia. apply Hgt. lia.
Qed.

(** Scanning row [k] of the ring: only column [k + 1] holds an edge. *)
Lemma ring_scan_split (k : Z) st :
  0 <= k <= K ->
  foldM (dijkstra_relax (heavy_ring n) k) (seqZ 0 n) st
  = dijkstra_relax (heavy_ring n) k st (k + 1)
      ≫= foldM (dijkstra_relax (heavy_ring n) k) (seqZ (k + 2) (n - (k + 2))).
Proof.
  intros Hk. pose proof heavy_ring_wf as Hwf.
  assert (seqZ 0 n = seqZ 0 (k + 1) ++ (k + 1) :: seqZ (k + 2) (n - (k + 2))) as ->.
  { replace n with ((k + 1) + (n - (k + 1))) at 1 by lia.
    rewrite seqZ_app by lia. f_equal. rewrite seqZ_cons by lia. f_equal.
    f_equal; lia. }
  rewrite foldM_app. destruct st as [dist pq].
  rewrite foldM_id; [done|].
  intros v Hv. apply In_seqZ in Hv. apply relax_no_edge; [done| | |].
  - unfold node. simpl. lia.
  - unfold node. simpl. lia.
  - destruct (Z.eq_dec k v); [by left|right].
    rewrite heavy_ring_cell by lia. destruct (Z.eqb_spec v (k + 1)); [lia|done].
Qed.

Lemma ring_scan_rest (k : Z) st :
  0 <= k <= K ->
  foldM (dijkstra_relax (heavy_ring n) k) (seqZ (k + 2) (n - (k + 2))) st = Ret st.
Proof.
  intros Hk. pose proof heavy_ring_wf as Hwf. destruct st as [dist pq].
  apply foldM_id. intros v Hv. apply In_seqZ in Hv.
  apply relax_no_edge; [done| | |].
  - unfold node. simpl. lia.
  - unfold node. simpl. lia.
  - right. rewrite heavy_ring_cell by lia. destruct (Z.eqb_spec v (k + 1)); [lia|done].
Qed.

Lemma ring_scan_ok (k : nat) :
  Z.of_nat k < K ->
  foldM (dijkstra_relax (heavy_ring n) (Z.of_nat k)) (seqZ 0 n) (ring_dist n k, [])
  = Ret (ring_dist n (S k), [(Z.of_nat (S k) * u16_max, Z.of_nat (S k))]).
Proof.
  intros Hk. pose proof heavy_ring_wf as Hwf. pose proof INF_val as HINF.
  destruct (ring_dist_spec k ltac:(lia)) as (Hl & Hle & Hgt).
  rewrite ring_scan_split by lia.
  rewrite dijkstra_relax_pure; [|done|done|unfold node; simpl; lia|unfold node; simpl; lia|].
  - rewrite heavy_ring_cell by lia. rewrite Z.eqb_refl.
    rewrite (Hle (Z.of_nat k)) by lia. rewrite (Hgt (Z.of_nat k + 1)) by lia.
    destruct (Z.eqb_spec (Z.of_nat k) (Z.of_nat k + 1)); [lia|].
    assert (edge (heavy_ring n) (Z.of_nat k) (Z.of_nat k + 1) = true) as ->.
    { unfold edge. rewrite heavy_ring_cell by lia. by rewrite Z.eqb_refl. }
    destruct (Z.ltb_spec (Z.of_nat k * u16_max + u16_max) INF);
      [|unfold u16_max, INT32_MAX in *; nia].
    cbn [negb andb mbind outcome_bind]. rewrite ring_scan_rest by lia.
    cbn [ring_dist]. repeat f_equal; lia.
  - rewrite heavy_ring_cell by lia. rewrite Z.eqb_refl.
    rewrite (Hle (Z.of_nat k)) by lia.
    unfold u16_max, INT32_MAX, INT32_MIN in *. nia.
Qed.

Lemma ring_scan_overflow :
  foldM (dijkstra_relax (heavy_ring n) K) (seqZ 0 n) (ring_dist n (Z.to_nat K), [])
  = Undefined.
Proof.
  pose proof heavy_ring_wf as Hwf.
  destruct (ring_dist_spec (Z.to_nat K) ltac:(lia)) as (Hl & Hle & Hgt).
  rewrite ring_scan_split by lia.
  rewrite relax_overflow; [done|done|done| | |lia| |].
  - unfold node. simpl. lia.
  - unfold node. simpl. lia.
  - rewrite heavy_ring_cell by lia. rewrite Z.eqb_refl. done.
  - rewrite heavy_ring_cell by lia. rewrite Z.eqb_refl.
    rewrite (Hle K) by lia. lia.
Qed.

Lemma ring_loop_overflow (j : nat) :
  forall (k fuel : nat),
  Z.of_nat k + Z.of_nat j = K -> (j < fuel)%nat ->
  dijkstra_loop fuel (heavy_ring n) n (ring_dist n k)
    [(Z.of_nat k * u16_max, Z.of_nat k)] = Undefined.
Proof.
  induction j as [|j IH]; intros k fuel Hk Hfuel.
  - destruct fuel as [|fuel]; [lia|].
    destruct (ring_dist_spec k ltac:(lia)) as (Hl & Hle & Hgt).
    cbn [dijkstra_loop pq_extract].
    rewrite (load_at _ n) by (done || lia). cbn [mbind outcome_bind].
    rewrite (Hle (Z.of_nat k)) by lia.
    destruct (Z.gtb_spec (Z.of_nat k * u16_max) (Z.of_nat k * u16_max)); [lia|].
    assert (Z.of_nat k = K) as HkK by lia.
    rewrite HkK. replace k with (Z.to_nat K) by lia.
    rewrite ring_scan_overflow. done.
  - destruct fuel as [|fuel]; [lia|].
    destruct (ring_dist_spec k ltac:(lia)) as (Hl & Hle & Hgt).
    cbn [dijkstra_loop pq_extract].
    rewrite (load_at _ n) by (done || lia). cbn [mbind outcome_bind].
    rewrite (Hle (Z.of_nat k)) by lia.
    destruct (Z.gtb_spec (Z.of_nat k * u16_max) (Z.of_nat k * u16_max)); [lia|].
    rewrite ring_scan_ok by lia. cbn [mbind outcome_bind].
    apply IH; lia.
Qed.

(** On the heavy ring the weighted search adds a weight to a distance that
    does not fit [int32_t] any more. *)
Lemma heavy_ring_overflow :
  shortest_path (heavy_ring n) 0 true = Undefined.
Proof.
  unfold shortest_path, size. change (n_ (heavy_ring n)) with n.
  destruct (Z.geb_spec 0 n); [lia|].
  rewrite (store_at _ n) by (rewrite ?length_replicate; lia).
  cbn [mbind outcome_bind negb].
  apply (ring_loop_overflow (Z.to_nat K) 0 (dijkstra_fuel n)); [lia|].
  unfold dijkstra_fuel. nia.
Qed.

End HeavyRing.

(** C7 (fails on the code): the directed ring of 32770 nodes whose edges
    all weigh 65535 is a matrix the constructor and successful [set] calls
    produce; on it [shortest_path(0, weighed=true)] computes
    [dist[32768] + 65535 = 2147516415], which is no [int32_t]: the call has
    no defined result, so it returns no vector with distance 0 at the start
    node. *)
Theorem weighted_distance_overflows :
  AdjMat.wf (heavy_ring 32770) /\
  built 32770 (heavy_ring 32770) /\
  cell (heavy_ring 32770) 32768 32769 = 65535 /\
  cell (heavy_ring 32770) 32769 0 = 65535 /\
  32768 * 65535 + 65535 > INT32_MAX /\
  shortest_path (heavy_ring 32770) 0 true = Undefined.
Proof.
  assert (H1 : 0 <= 32768) by lia.
  assert (H2 : 32768 + 2 <= 32770) by lia.
  assert (H3 : 32770 * 32770 < 2 ^ 32) by lia.
  assert (H4 : 32768 * u16_max <= INT32_MAX) by (unfold u16_max, INT32_MAX; lia).
  assert (H5 : INT32_MAX < (32768 + 1) * u16_max) by (unfold u16_max, INT32_MAX; lia).
  pose proof (heavy_ring_wf 32770 32768 H1 H2 H3) as Hwf.
  split; [exact Hwf|].
  split; [|split; [|split; [|split]]].
  - apply (built_of_wf (heavy_ring 32770) Hwf). simpl. intros i Hi.
    unfold heavy_ring. rewrite cell_tabulate by lia.
    destruct (Z.eqb_spec i (i + 1)); [lia|].
    destruct (Z.eqb_spec i (32770 - 1)); [|done].
    destruct (Z.eqb_spec i 0); [lia|done].
  - rewrite (heavy_ring_cell 32770 32768 32769); [reflexivity | lia | lia].
  - unfold heavy_ring. rewrite cell_tabulate by lia. reflexivity.
  - unfold INT32_MAX. lia.
  - exact (heavy_ring_overflow 32770 32768 H1 H2 H3 H4 H5).
Qed.

End ShortestPath.

(** ** Betweenness centrality *)

Module BrandesFacts.
Import AdjMat AdjMatFacts Algorithms Paths Neighbours PathFacts DijkstraFacts ShortestPath.
Import Brandes.

(** *** The final loop halves every entry *)

Lemma halve_from (pre post : list float) :
  foldM (fun c i => x ← load c i; store c i (x / 2)%float)
        (seqZ (Z.of_nat (length pre)) (Z.of_nat (length post))) (pre ++ post)
  = Ret (pre ++ List.map half post).
Proof.
  revert pre. induction post as [|x post IH]; intros pre.
  - rewrite seqZ_nil by (simpl; lia). done.
  - rewrite seqZ_cons by (simpl; lia). cbn [foldM].
    assert (load (pre ++ x :: post) (Z.of_nat (length pre)) = Ret x) as ->.
    { apply load_Ret. split; [lia|]. rewrite Nat2Z.id.
      by rewrite lookup_app_r, Nat.sub_diag. }
    cbn [mbind outcome_bind].
    rewrite store_in_range by (rewrite length_app; simpl; lia).
    cbn [mbind outcome_bind]. rewrite Nat2Z.id.
    rewrite insert_app_r_alt, Nat.sub_diag by lia. cbn [insert list_insert].
    specialize (IH (pre ++ [(x / 2)%float])).
    rewrite length_app in IH. simpl length in IH.
    replace (Z.succ (Z.of_nat (length pre))) with (Z.of_nat (length pre + 1)) by lia.
    replace (Z.pred (Z.of_nat (length (x :: post)))) with (Z.of_nat (length post))
      by (simpl length; lia).
    rewrite <- app_assoc in IH. simpl in IH. rewrite IH.
    rewrite <- app_assoc. done.
Qed.

Lemma halve_all_map c : halve_all c = Ret (List.map half c).
Proof. apply (halve_from [] c). Qed.

(** *** The order of the accumulation *)





(** *** The computation returns *)









(** The directed path 0 -> 1 -> 2 has no reciprocal edge; node 1 lies on the
    one shortest path from 0 to 2, is credited 1, and the result holds 0.5. *)
Example betweenness_directed_path :
  accumulate_sources (mk 3 [0; 1; 0; 0; 0; 1; 0; 0; 0]) false
    = Ret [0%float; 1%float; 0%float] /\
  betweenness_centrality (mk 3 [0; 1; 0; 0; 0; 1; 0; 0; 0]) false
    = Ret [0%float; 0.5%float; 0%float] /\
  betweenness_centrality (mk 3 [0; 1; 0; 0; 0; 1; 0; 0; 0]) true
    = Ret [0%float; 0.5%float; 0%float].
Proof. vm_compute. done. Qed.

End BrandesFacts.

(** ** Writes and reads of the matrix *)

Module Writes.
Import AdjMat AdjMatFacts Degrees.

Lemma index_inj n i j i' j' :
  0 <= j < n -> 0 <= j' < n -> i * n + j = i' * n + j' -> i = i' /\ j = j'.
Proof.
  intros Hj Hj' Heq.
  destruct (Z.lt_trichotomy i i') as [Hlt|[->|Hgt]]; [|lia|].
  - assert ((i + 1) * n <= i' * n) by nia. lia.
  - assert ((i' + 1) * n <= i * n) by nia. lia.
Qed.

Lemma cell_insert n d k w i j :
  0 <= k < Z.of_nat (length d) -> 0 <= i * n + j ->
  cell (mk n (<[Z.to_nat k := w]> d)) i j
  = if i * n + j =? k then w else cell (mk n d) i j.
Proof.
  intros Hk Hij. unfold cell. simpl.
  destruct (Z.eqb_spec (i * n + j) k) as [->|Hne].
  - rewrite list_lookup_insert_eq by lia. done.
  - rewrite list_lookup_insert_ne by lia. done.
Qed.

Lemma wf_insert m k w :
  wf m -> 0 <= w <= u16_max -> wf (mk (n_ m) (<[k := w]> (data_ m))).
Proof.
  intros [H1 H2 H3 H4] Hw. split; simpl; rewrite ?length_insert; try done.
  apply Forall_insert; done.
Qed.

Lemma set_wf_eq m i j w :
  wf m -> 0 <= i < n_ m -> 0 <= j < n_ m -> i <> j ->
  set m i j w = (Ret tt, mk (n_ m) (<[Z.to_nat (i * n_ m + j) := w]> (data_ m))).
Proof.
  intros Hwf Hi Hj Hij. unfold set, check_bounds.
  destruct (Z.geb_spec i (n_ m)); [lia|]. destruct (Z.geb_spec j (n_ m)); [lia|].
  simpl. destruct (Z.eqb_spec i j); [lia|].
  destruct (offset_wf m i j Hwf Hi Hj) as [-> Hr].
  by rewrite store_in_range.
Qed.

Lemma bi_set_wf_eq m i j w :
  wf m -> 0 <= i < n_ m -> 0 <= j < n_ m -> i <> j ->
  bi_set m i j w
  = (Ret tt, mk (n_ m) (<[Z.to_nat (j * n_ m + i) := w]>
                          (<[Z.to_nat (i * n_ m + j) := w]> (data_ m)))).
Proof.
  intros Hwf Hi Hj Hij. unfold bi_set, check_bounds.
  destruct (Z.geb_spec i (n_ m)); [lia|]. destruct (Z.geb_spec j (n_ m)); [lia|].
  simpl. destruct (Z.eqb_spec i j); [lia|].
  destruct (offset_wf m i j Hwf Hi Hj) as [-> Hr].
  destruct (offset_wf m j i Hwf Hj Hi) as [-> Hr'].
  rewrite store_in_range by done.
  rewrite store_in_range by (rewrite length_insert; done). done.
Qed.

Lemma cell_set m i j w i' j' :
  wf m -> 0 <= i < n_ m -> 0 <= j < n_ m -> i <> j ->
  0 <= i' < n_ m -> 0 <= j' < n_ m ->
  cell (set m i j w).2 i' j'
  = if (i' =? i) && (j' =? j) then w else cell m i' j'.
Proof.
  intros Hwf Hi Hj Hij Hi' Hj'. rewrite set_wf_eq by done. simpl.
  destruct (offset_wf m i j Hwf Hi Hj) as [_ Hr].
  rewrite cell_insert by (try done; nia).
  destruct (Z.eqb_spec (i' * n_ m + j') (i * n_ m + j)) as [Heq|Hne].
  - apply index_inj in Heq; [|lia|lia]. destruct Heq as [-> ->].
    by rewrite !Z.eqb_refl.
  - destruct (Z.eqb_spec i' i) as [->|]; [|by destruct m].
    destruct (Z.eqb_spec j' j) as [->|]; [lia|by destruct m].
Qed.

Lemma cell_bi_set m i j w i' j' :
  wf m -> 0 <= i < n_ m -> 0 <= j < n_ m -> i <> j ->
  0 <= i' < n_ m -> 0 <= j' < n_ m ->
  cell (bi_set m i j w).2 i' j'
  = if ((i' =? i) && (j' =? j)) || ((i' =? j) && (j' =? i)) then w else cell m i' j'.
Proof.
  intros Hwf Hi Hj Hij Hi' Hj'. rewrite bi_set_wf_eq by done. simpl.
  destruct (offset_wf m i j Hwf Hi Hj) as [_ Hr].
  destruct (offset_wf m j i Hwf Hj Hi) as [_ Hr'].
  rewrite cell_insert by (rewrite ?length_insert; try done; nia).
  rewrite cell_insert by (try done; nia).
  destruct (Z.eqb_spec (i' * n_ m + j') (j * n_ m + i)) as [Heq|Hne].
  - apply index_inj in Heq; [|lia|lia]. destruct Heq as [-> ->].
    rewrite !Z.eqb_refl. simpl. by rewrite orb_true_r.
  - destruct (Z.eqb_spec (i' * n_ m + j') (i * n_ m + j)) as [Heq|Hne'].
    + apply index_inj in Heq; [|lia|lia]. destruct Heq as [-> ->].
      by rewrite !Z.eqb_refl.
    + destruct (Z.eqb_spec i' i); destruct (Z.eqb_spec j' j);
        destruct (Z.eqb_spec i' j); destruct (Z.eqb_spec j' i);
        simpl; subst; try lia; by destruct m.
Qed.

Lemma set_then_read_core m i j w :
  wf m -> 0 <= i < n_ m -> 0 <= j < n_ m -> i <> j -> 0 <= w <= u16_max ->
  wf (set m i j w).2 /\ n_ (set m i j w).2 = n_ m /\ cell (set m i j w).2 i j = w.
Proof.
  intros Hwf Hi Hj Hij Hw. split; [|split].
  - rewrite set_wf_eq by done. simpl. by apply wf_insert.
  - by rewrite set_wf_eq.
  - rewrite cell_set by done. by rewrite !Z.eqb_refl.
Qed.

Lemma bi_set_then_read_core m i j w :
  wf m -> 0 <= i < n_ m -> 0 <= j < n_ m -> i <> j -> 0 <= w <= u16_max ->
  wf (bi_set m i j w).2 /\ n_ (bi_set m i j w).2 = n_ m /\
  cell (bi_set m i j w).2 i j = w /\ cell (bi_set m i j w).2 j i = w.
Proof.
  intros Hwf Hi Hj Hij Hw. split; [|split; [|split]].
  - rewrite bi_set_wf_eq by done. simpl.
    apply (wf_insert (mk (n_ m) _)); [by apply wf_insert | done].
  - by rewrite bi_set_wf_eq.
  - rewrite cell_bi_set by done. by rewrite !Z.eqb_refl.
  - rewrite cell_bi_set by done. rewrite !Z.eqb_refl. simpl. by rewrite orb_true_r.
Qed.

(** X1: on a matrix of the data model, [set(i, j, w)] with distinct
    in-bounds indices succeeds, keeps the representation invariant, and
    afterwards [read(i, j)] returns [w] while every other in-bounds cell
    reads as before. *)
Theorem set_then_read (m : AdjMat.t) (i j w : Z) :
  wf m -> 0 <= i < n_ m -> 0 <= j < n_ m -> i <> j -> 0 <= w <= u16_max ->
  (set m i j w).1 = Ret tt /\
  wf (set m i j w).2 /\
  n_ (set m i j w).2 = n_ m /\
  read (set m i j w).2 i j = Ret w /\
  (forall i' j', 0 <= i' < n_ m -> 0 <= j' < n_ m -> (i', j') <> (i, j) ->
     read (set m i j w).2 i' j' = read m i' j').
Proof.
  intros Hwf Hi Hj Hij Hw.
  assert (wf (set m i j w).2) as Hwf'.
  { rewrite set_wf_eq by done. simpl. by apply wf_insert. }
  assert (n_ (set m i j w).2 = n_ m) as Hn by (by rewrite set_wf_eq).
  split; [by rewrite set_wf_eq|]. split; [done|]. split; [done|]. split.
  - rewrite read_wf by (rewrite ?Hn; done). rewrite cell_set by done.
    by rewrite !Z.eqb_refl.
  - intros i' j' Hi' Hj' Hne.
    rewrite read_wf by (rewrite ?Hn; done). rewrite cell_set by done.
    rewrite (read_wf m) by done.
    destruct (Z.eqb_spec i' i) as [->|]; [|done].
    destruct (Z.eqb_spec j' j) as [->|]; [congruence|done].
Qed.

Lemma set_then_read_witness :
  read (set (make 3) 0 1 5).2 0 1 = Ret 5.
Proof.
  apply (set_then_read (make 3) 0 1 5); [apply wfb_sound; reflexivity | | | |];
    unfold u16_max; simpl; lia.
Defined.

(** X2: on a matrix of the data model, [bi_set(i, j, w)] with distinct
    in-bounds indices succeeds, writes [w] to both [(i, j)] and [(j, i)],
    leaves every other cell as it was, keeps the representation invariant
    and keeps a symmetric matrix symmetric. *)
Theorem bi_set_then_read (m : AdjMat.t) (i j w : Z) :
  wf m -> 0 <= i < n_ m -> 0 <= j < n_ m -> i <> j -> 0 <= w <= u16_max ->
  (bi_set m i j w).1 = Ret tt /\
  wf (bi_set m i j w).2 /\
  read (bi_set m i j w).2 i j = Ret w /\
  read (bi_set m i j w).2 j i = Ret w /\
  (forall i' j', 0 <= i' < n_ m -> 0 <= j' < n_ m ->
     (i', j') <> (i, j) -> (i', j') <> (j, i) ->
     read (bi_set m i j w).2 i' j' = read m i' j') /\
  (symmetric m -> symmetric (bi_set m i j w).2).
Proof.
  intros Hwf Hi Hj Hij Hw.
  assert (wf (bi_set m i j w).2) as Hwf'.
  { rewrite bi_set_wf_eq by done. simpl.
    apply (wf_insert (mk (n_ m) _)); [by apply wf_insert | done]. }
  assert (n_ (bi_set m i j w).2 = n_ m) as Hn by (by rewrite bi_set_wf_eq).
  split; [by rewrite bi_set_wf_eq|]. split; [done|]. split; [|split; [|split]].
  - rewrite read_wf by (rewrite ?Hn; done). rewrite cell_bi_set by done.
    by rewrite !Z.eqb_refl.
  - rewrite read_wf by (rewrite ?Hn; done). rewrite cell_bi_set by done.
    rewrite !Z.eqb_refl. simpl. by rewrite orb_true_r.
  - intros i' j' Hi' Hj' Hne1 Hne2.
    rewrite read_wf by (rewrite ?Hn; done). rewrite cell_bi_set by done.
    rewrite (read_wf m) by done.
    destruct (Z.eqb_spec i' i); destruct (Z.eqb_spec j' j);
      destruct (Z.eqb_spec i' j); destruct (Z.eqb_spec j' i);
      simpl; subst; congruence.
  - intros Hsym i' j' Hi' Hj'. rewrite Hn in Hi', Hj'.
    rewrite !cell_bi_set by done. rewrite (Hsym i' j') by done.
    destruct (Z.eqb_spec i' i); destruct (Z.eqb_spec j' j);
      destruct (Z.eqb_spec i' j); destruct (Z.eqb_spec j' i);
      simpl; subst; try done; lia.
Qed.

Lemma bi_set_then_read_witness :
  read (bi_set (make 3) 0 1 5).2 1 0 = Ret 5.
Proof.
  apply (bi_set_then_read (make 3) 0 1 5); [apply wfb_sound; reflexivity | | | |];
    unfold u16_max; simpl; lia.
Defined.

(** X3: on a matrix of the data model and for all [uint32_t] indices, in
    bounds or not, a bidirectional write is the directed write of [(i, j)]
    followed by the directed write of [(j, i)]: same outcome, same matrix. *)
Theorem bi_set_is_two_sets (m : AdjMat.t) (i j w : Z) :
  wf m -> 0 <= i -> 0 <= j -> 0 <= w <= u16_max ->
  bi_set m i j w = set (set m i j w).2 j i w.
Proof.
  intros Hwf Hi0 Hj0 Hw.
  destruct (Z.lt_ge_cases i (n_ m)) as [Hi|Hi]; cycle 1.
  { unfold bi_set, set, check_bounds.
    destruct (Z.geb_spec i (n_ m)); [|lia]. simpl.
    destruct (Z.geb_spec j (n_ m)); simpl;
      destruct (Z.geb_spec i (n_ m)); try lia; simpl; done. }
  destruct (Z.lt_ge_cases j (n_ m)) as [Hj|Hj]; cycle 1.
  { unfold bi_set, set, check_bounds.
    destruct (Z.geb_spec i (n_ m)); [lia|]. simpl.
    destruct (Z.geb_spec j (n_ m)); [|lia]. simpl.
    destruct (Z.geb_spec j (n_ m)); [|lia]. simpl. done. }
  destruct (Z.eq_dec i j) as [->|Hij].
  { unfold bi_set, set, check_bounds.
    destruct (Z.geb_spec j (n_ m)); [lia|]. simpl.
    rewrite Z.eqb_refl. simpl.
    destruct (Z.geb_spec j (n_ m)); [lia|]. simpl. done. }
  rewrite bi_set_wf_eq by (try done; lia).
  rewrite (set_wf_eq m i j w) by (try done; lia). simpl.
  rewrite set_wf_eq; simpl; try done; try lia.
  apply (wf_insert m); done.
Qed.

Lemma bi_set_is_two_sets_witness :
  bi_set (make 3) 0 1 5 = set (set (make 3) 0 1 5).2 1 0 5.
Proof.
  apply (bi_set_is_two_sets (make 3) 0 1 5); [apply wfb_sound; reflexivity | | |];
    unfold u16_max; lia.
Defined.

Lemma at_ref_wf m i j :
  wf m -> 0 <= i < n_ m -> 0 <= j < n_ m -> i <> j ->
  AdjMatRef.at_ref m i j = Ret (i * n_ m + j).
Proof.
  intros Hwf Hi Hj Hij. unfold AdjMatRef.at_ref, check_bounds.
  destruct (Z.geb_spec i (n_ m)); [lia|]. destruct (Z.geb_spec j (n_ m)); [lia|].
  simpl. destruct (Z.eqb_spec i j); [lia|].
  destruct (offset_wf m i j Hwf Hi Hj) as [-> Hr].
  destruct (Z.ltb_spec (i * n_ m + j) 0); [lia|].
  destruct (Z.leb_spec (Z.of_nat (length (data_ m))) (i * n_ m + j)); [lia | done].
Qed.

Lemma at_ref_Ret m i j k :
  0 <= i -> 0 <= j -> AdjMatRef.at_ref m i j = Ret k ->
  0 <= i < n_ m /\ 0 <= j < n_ m /\ i <> j.
Proof.
  intros Hi Hj. unfold AdjMatRef.at_ref, check_bounds.
  destruct (Z.geb_spec i (n_ m)); [done|]. destruct (Z.geb_spec j (n_ m)); [done|].
  simpl. destruct (Z.eqb_spec i j); [done|]. intros _. lia.
Qed.

(** X30: the non-const element access fails with the out-of-range error
    for an index at or above [n] and, with the message "Diagonal not
    available in non-const mode", for a diagonal cell, which the const
    access reads.  On a matrix of the data model and for distinct in-bounds
    indices it yields the element at offset [i * n + j], the one the const
    access reads; an assignment through it is [set]; and two references to
    the same element are references to the same cell. *)
Theorem mutable_access (m : AdjMat.t) (i j i' j' w k : Z) :
  (n_ m <= i \/ n_ m <= j -> AdjMatRef.at_ref m i j = throw_oor msg_bounds) /\
  (i < n_ m -> AdjMatRef.at_ref m i i = throw_oor AdjMatRef.msg_nonconst) /\
  (wf m -> 0 <= i < n_ m -> read m i i = Ret (cell m i i)) /\
  (wf m -> 0 <= i < n_ m -> 0 <= j < n_ m -> i <> j ->
   AdjMatRef.at_ref m i j = Ret (i * n_ m + j) /\
   load (data_ m) (i * n_ m + j) = read m i j /\
   AdjMatRef.assign m i j w = set m i j w) /\
  (wf m -> 0 <= i -> 0 <= j -> 0 <= i' -> 0 <= j' ->
   AdjMatRef.at_ref m i j = Ret k -> AdjMatRef.at_ref m i' j' = Ret k ->
   i = i' /\ j = j').
Proof.
  split; [|split; [|split; [|split]]].
  - intros H. unfold AdjMatRef.at_ref, check_bounds.
    destruct (Z.geb_spec i (n_ m)); [done|]. destruct (Z.geb_spec j (n_ m)); [done|]. lia.
  - intros H. unfold AdjMatRef.at_ref, check_bounds.
    destruct (Z.geb_spec i (n_ m)); [lia|]. simpl. by rewrite Z.eqb_refl.
  - intros Hwf Hi. by apply read_wf.
  - intros Hwf Hi Hj Hij. split; [by apply at_ref_wf|]. split.
    + rewrite read_wf by done. destruct (offset_wf m i j Hwf Hi Hj) as [_ Hr].
      unfold load. destruct (Z.ltb_spec (i * n_ m + j) 0); [lia|].
      unfold cell. destruct (lookup_lt_is_Some_2 (data_ m) (Z.to_nat (i * n_ m + j))
                               ltac:(lia)) as [x Hx].
      by rewrite Hx.
    + unfold AdjMatRef.assign. rewrite at_ref_wf by done.
      destruct (offset_wf m i j Hwf Hi Hj) as [_ Hr].
      rewrite store_in_range by done. by rewrite set_wf_eq.
  - intros Hwf Hi Hj Hi' Hj' H1 H2.
    destruct (at_ref_Ret m i j k Hi Hj H1) as (Hi1 & Hj1 & Hne1).
    destruct (at_ref_Ret m i' j' k Hi' Hj' H2) as (Hi2 & Hj2 & Hne2).
    rewrite at_ref_wf in H1, H2 by done.
    apply (index_inj (n_ m)); [lia | lia | congruence].
Qed.

Lemma mutable_access_witness :
  AdjMatRef.at_ref (make 3) 3 0 = throw_oor msg_bounds /\
  AdjMatRef.at_ref (make 3) 1 1 = throw_oor AdjMatRef.msg_nonconst /\
  AdjMatRef.assign (make 3) 2 1 7 = set (make 3) 2 1 7.
Proof.
  pose proof (mutable_access (make 3) 3 0 0 0 0 0) as (H1 & _).
  pose proof (mutable_access (make 3) 1 1 0 0 0 0) as (_ & H2 & _).
  pose proof (mutable_access (make 3) 2 1 0 0 7 0) as (_ & _ & _ & H4 & _).
  split; [apply H1; left; simpl; lia|]. split; [apply H2; simpl; lia|].
  apply H4; [apply wfb_sound; reflexivity | simpl; lia | simpl; lia | lia].
Defined.

End Writes.

(** ** Degrees *)

Module DegreeFacts.
Import AdjMat AdjMatFacts Algorithms Paths Neighbours Triangles Degrees.

Lemma count_if_Zsum p l : count_if p l = Zsum (fun x => Z.b2z (p x)) l.
Proof.
  unfold count_if. induction l as [|x l IH]; [done|].
  rewrite Zsum_cons, <- IH. cbn [List.filter].
  destruct (p x); cbn [length Z.b2z]; lia.
Qed.

Lemma count_if_range p l : 0 <= count_if p l <= Z.of_nat (length l).
Proof.
  rewrite count_if_Zsum.
  pose proof (Zsum_bounds (fun x => Z.b2z (p x)) l 1 (fun x _ => b2z_range _)). lia.
Qed.

Lemma count_if_ext p q l :
  (forall x, In x l -> p x = q x) -> count_if p l = count_if q l.
Proof.
  intros H. rewrite !count_if_Zsum. apply Zsum_ext. intros x Hx. by rewrite H.
Qed.

Lemma length_seqZ_Z lo n : 0 <= n -> Z.of_nat (length (seqZ lo n)) = n.
Proof. intros. rewrite length_seqZ. lia. Qed.

Lemma row_count_range m i : wf m -> 0 <= row_count m i <= n_ m.
Proof.
  intros Hwf. destruct (wf_sq m Hwf) as [Hn _]. unfold row_count.
  pose proof (count_if_range (edge m i) (seqZ 0 (n_ m))) as H.
  rewrite length_seqZ_Z in H by done. done.
Qed.

Lemma col_count_range m j : wf m -> 0 <= col_count m j <= n_ m.
Proof.
  intros Hwf. destruct (wf_sq m Hwf) as [Hn _]. unfold col_count.
  pose proof (count_if_range (in_edge m j) (seqZ 0 (n_ m))) as H.
  rewrite length_seqZ_Z in H by done. done.
Qed.

(** The pointer scan of a row, from column [k0] on. *)
Lemma row_scan m i (len : nat) k0 acc :
  wf m -> 0 <= i < n_ m -> 0 <= k0 -> k0 + Z.of_nat len <= n_ m ->
  foldM (fun '(ret, st) p =>
           v ← load (raw m) p;
           '(b, st') ← is_edge_val st v;
           Ret (if b : bool then ret + 1 else ret, st'))
        (seqZ (i * n_ m + k0) (Z.of_nat len)) (acc, tt)
  = Ret (acc + Zsum (fun k => Z.b2z (edge m i k)) (seqZ k0 (Z.of_nat len)), tt).
Proof.
  intros Hwf Hi. revert k0 acc.
  induction len as [|len IH]; intros k0 acc Hk Hlen.
  - rewrite !seqZ_nil by lia. simpl. f_equal. f_equal. lia.
  - rewrite (seqZ_cons (i * n_ m + k0)), (seqZ_cons k0) by lia.
    replace (Z.pred (Z.of_nat (S len))) with (Z.of_nat len) by lia.
    replace (Z.succ (i * n_ m + k0)) with (i * n_ m + (k0 + 1)) by lia.
    replace (Z.succ k0) with (k0 + 1) by lia.
    rewrite Zsum_cons. cbn [foldM]. rewrite load_cell by (done || lia).
    cbn [mbind outcome_bind].
    change (is_edge_val () (cell m i k0))
      with (@Ret (bool * unit) (negb (cell m i k0 =? NO_EDGE), ())).
    cbn [mbind outcome_bind].
    rewrite IH by lia. unfold edge.
    destruct (negb (cell m i k0 =? NO_EDGE)); simpl Z.b2z; f_equal; f_equal; lia.
Qed.

Lemma row_degree_wf m i :
  wf m -> 0 <= i < n_ m ->
  row_degree (raw m) (u32 (i * n_ m)) (u32 ((i + 1) * n_ m)) = Ret (row_count m i).
Proof.
  intros Hwf Hi. destruct (wf_sq m Hwf) as [Hn Hsq].
  rewrite !u32_small by nia. unfold row_degree.
  destruct (Z.ltb_spec ((i + 1) * n_ m) (i * n_ m)); [nia|].
  unfold ptr_count_if.
  replace ((i + 1) * n_ m - i * n_ m) with (Z.of_nat (Z.to_nat (n_ m))) by lia.
  pose proof (row_scan m i (Z.to_nat (n_ m)) 0 0 Hwf Hi ltac:(lia) ltac:(lia)) as Hscan.
  rewrite Z.add_0_r in Hscan. rewrite Hscan. cbn [mbind outcome_bind].
  rewrite Z2Nat.id by lia. rewrite Z.add_0_l, <- count_if_Zsum.
  fold (row_count m i). pose proof (row_count_range m i Hwf).
  pose proof (wf_n m Hwf). rewrite u32_small by lia. done.
Qed.

Lemma in_degree_wf m node :
  wf m -> 0 <= node < n_ m ->
  foldM (in_degree_step (raw m) (n_ m) node) (seqZ 0 (n_ m)) 0 = Ret (col_count m node).
Proof.
  intros Hwf Hnode. destruct (wf_sq m Hwf) as [Hn Hsq].
  pose proof (col_count_range m node Hwf) as Hr.
  pose proof (wf_n m Hwf) as Hn32.
  unfold col_count in *. rewrite count_if_Zsum in *.
  rewrite (foldM_sum _ (fun i => Z.b2z (in_edge m node i)) (2 ^ 32));
    [f_equal; lia | | lia | lia |].
  - intros x _. apply b2z_range.
  - intros i a Hin Ha Hlt. apply In_seqZ in Hin.
    unfold in_degree_step, in_edge.
    destruct (Z.eqb_spec i node); simpl; [f_equal; lia|].
    rewrite load_col by (done || lia). cbn [mbind outcome_bind].
    destruct (Z.eqb_spec (cell m i node) NO_EDGE); simpl.
    + f_equal. lia.
    + f_equal. unfold in_edge in Hlt.
      destruct (Z.eqb_spec i node); [lia|].
      destruct (Z.eqb_spec (cell m i node) NO_EDGE); [lia|]. simpl in Hlt.
      apply u32_small. lia.
Qed.

Lemma get_degree_wf m node directed :
  wf m -> 0 <= node < n_ m ->
  get_degree m node directed
  = Ret (mkDegree (row_count m node)
                  (if directed then col_count m node else row_count m node)).
Proof.
  intros Hwf Hnode. unfold get_degree, size.
  rewrite node_in_range by lia.
  rewrite row_degree_wf by done. cbn [mbind outcome_bind].
  destruct directed; [|done].
  rewrite in_degree_wf by done. done.
Qed.

(** X4: [get_degree] fails with the out-of-range error for a node at or
    above [n]; for a node below [n] of a matrix of the data model it returns
    as out-degree the number of non-sentinel entries in the node's row and as
    in-degree, if [directed], the number of non-sentinel entries in its
    column outside of the diagonal, else the out-degree again. *)
Theorem get_degree_spec (m : AdjMat.t) (node : Z) (directed : bool) :
  (n_ m <= node -> get_degree m node directed = throw_oor msg_node) /\
  (wf m -> 0 <= node < n_ m ->
   get_degree m node directed
   = Ret (mkDegree (row_count m node)
                   (if directed then col_count m node else row_count m node))).
Proof.
  split.
  - intros H. unfold get_degree, size.
    destruct (Z.geb_spec node (n_ m)); [done | lia].
  - apply get_degree_wf.
Qed.

Lemma get_degree_spec_witness :
  get_degree (mk 3 [0; 4; 0; 0; 0; 0; 9; 2; 0]) 1 true = Ret (mkDegree 0 2).
Proof.
  apply (get_degree_spec (mk 3 [0; 4; 0; 0; 0; 0; 9; 2; 0]) 1 true);
    [apply wfb_sound; reflexivity | simpl; lia].
Defined.

Lemma Zsum_single (len : nat) lo x c :
  lo <= x < lo + Z.of_nat len ->
  Zsum (fun j => if j =? x then c else 0) (seqZ lo (Z.of_nat len)) = c.
Proof.
  revert lo. induction len as [|len IH]; intros lo Hx; [lia|].
  rewrite seqZ_cons by lia. rewrite Zsum_cons.
  replace (Z.pred (Z.of_nat (S len))) with (Z.of_nat len) by lia.
  destruct (Z.eqb_spec lo x) as [->|Hne].
  - rewrite Zsum_zero; [lia|]. intros j Hj. apply In_seqZ in Hj.
    destruct (Z.eqb_spec j x); [lia | done].
  - rewrite IH by lia. lia.
Qed.

Lemma row_count_split m node :
  wf m -> 0 <= node < n_ m ->
  row_count m node
  = count_if (out_edge m node) (seqZ 0 (n_ m)) + Z.b2z (edge m node node).
Proof.
  intros Hwf Hnode. unfold row_count. rewrite !count_if_Zsum.
  rewrite <- (Zsum_single (Z.to_nat (n_ m)) 0 node (Z.b2z (edge m node node))) by lia.
  rewrite Z2Nat.id by lia. rewrite <- Zsum_plus. apply Zsum_ext.
  intros j _. unfold out_edge, edge.
  destruct (Z.eqb_spec j node) as [->|]; simpl; lia.
Qed.

(** X5: on a matrix of the data model, the out-degree that [get_degree]
    reports is the length of [get_from]'s list plus one if the node's
    diagonal cell is set, and the directed in-degree is the length of
    [get_to]'s list. *)
Theorem degree_counts_neighbours (m : AdjMat.t) (node : Z) :
  wf m -> 0 <= node < n_ m ->
  exists fr to,
    get_from m node = Ret fr /\ get_to m node = Ret to /\
    get_degree m node true
    = Ret (mkDegree (Z.of_nat (length fr) + Z.b2z (edge m node node))
                    (Z.of_nat (length to))).
Proof.
  intros Hwf Hnode. eexists _, _.
  split; [by apply get_from_wf|]. split; [by apply get_to_wf|].
  rewrite get_degree_wf by done. rewrite row_count_split by done. done.
Qed.

Lemma degree_counts_neighbours_witness :
  exists fr to,
    get_from (mk 3 [0; 4; 0; 0; 0; 0; 9; 2; 0]) 2 = Ret fr /\
    get_to (mk 3 [0; 4; 0; 0; 0; 0; 9; 2; 0]) 2 = Ret to /\
    get_degree (mk 3 [0; 4; 0; 0; 0; 0; 9; 2; 0]) 2 true
    = Ret (mkDegree (Z.of_nat (length fr)
                     + Z.b2z (edge (mk 3 [0; 4; 0; 0; 0; 0; 9; 2; 0]) 2 2))
                    (Z.of_nat (length to))).
Proof.
  apply (degree_counts_neighbours (mk 3 [0; 4; 0; 0; 0; 0; 9; 2; 0]) 2);
    [apply wfb_sound; reflexivity | simpl; lia].
Defined.

Lemma edge_in_edge m i j :
  zero_diag m -> 0 <= i < n_ m -> edge m i j = in_edge m j i.
Proof.
  intros Hz Hi. unfold in_edge, edge.
  destruct (Z.eqb_spec i j) as [->|]; [|done].
  rewrite Hz by done. done.
Qed.

Lemma degree_sums m :
  zero_diag m ->
  Zsum (row_count m) (seqZ 0 (n_ m)) = Zsum (col_count m) (seqZ 0 (n_ m)).
Proof.
  intros Hz. unfold row_count, col_count.
  rewrite (Zsum_ext _ (fun i => Zsum (fun j => Z.b2z (in_edge m j i)) (seqZ 0 (n_ m)))).
  - rewrite Zsum_swap. apply Zsum_ext. intros j _. by rewrite count_if_Zsum.
  - intros i Hi. apply In_seqZ in Hi. rewrite count_if_Zsum.
    apply Zsum_ext. intros j _. rewrite edge_in_edge by (done || lia). done.
Qed.

(** X6: on a matrix of the data model with a zero diagonal, the
    out-degrees that [get_degree(node, directed = true)] reports over all
    nodes add up to the same number as the in-degrees: every edge is counted
    once at its tail and once at its head. *)
Theorem degrees_handshake (m : AdjMat.t) :
  wf m -> zero_diag m ->
  exists deg : Z -> degree,
    (forall i, 0 <= i < n_ m -> get_degree m i true = Ret (deg i)) /\
    Zsum (fun i => out (deg i)) (seqZ 0 (n_ m))
    = Zsum (fun i => in_ (deg i)) (seqZ 0 (n_ m)).
Proof.
  intros Hwf Hz.
  exists (fun i => mkDegree (row_count m i) (col_count m i)). split.
  - intros i Hi. by apply get_degree_wf.
  - simpl. by apply degree_sums.
Qed.

Lemma degrees_handshake_witness :
  exists deg : Z -> degree,
    (forall i, 0 <= i < 3 ->
       get_degree (mk 3 [0; 4; 0; 0; 0; 0; 9; 2; 0]) i true = Ret (deg i)) /\
    Zsum (fun i => out (deg i)) (seqZ 0 3) = Zsum (fun i => in_ (deg i)) (seqZ 0 3).
Proof.
  apply (degrees_handshake (mk 3 [0; 4; 0; 0; 0; 0; 9; 2; 0]));
    [apply wfb_sound; reflexivity|].
  intros i Hi. simpl in Hi.
  assert (i = 0 \/ i = 1 \/ i = 2) as [->|[->| ->]] by lia; reflexivity.
Defined.

Lemma row_col_symmetric m i :
  wf m -> symmetric m -> zero_diag m -> 0 <= i < n_ m ->
  row_count m i = col_count m i.
Proof.
  intros Hwf Hs Hz Hi. unfold row_count, col_count. apply count_if_ext.
  intros j Hj. apply In_seqZ in Hj. unfold in_edge, edge.
  destruct (Z.eqb_spec j i) as [->|]; simpl.
  - by rewrite Hz.
  - rewrite (Hs i j) by lia. done.
Qed.

(** X7: on a symmetric matrix of the data model with a zero diagonal (what
    bidirectional writes produce), [get_degree] returns the same pair with
    [directed = true] and with [directed = false], and its two components
    are equal. *)
Theorem degree_symmetric (m : AdjMat.t) (node : Z) :
  wf m -> symmetric m -> zero_diag m -> 0 <= node < n_ m ->
  get_degree m node true = get_degree m node false /\
  exists d, get_degree m node true = Ret (mkDegree d d).
Proof.
  intros Hwf Hs Hz Hnode. rewrite !get_degree_wf by done.
  rewrite <- row_col_symmetric by done. split; [done|]. by eexists.
Qed.

Lemma degree_symmetric_witness :
  get_degree (mk 3 [0; 4; 0; 4; 0; 2; 0; 2; 0]) 1 true
  = get_degree (mk 3 [0; 4; 0; 4; 0; 2; 0; 2; 0]) 1 false.
Proof.
  apply (degree_symmetric (mk 3 [0; 4; 0; 4; 0; 2; 0; 2; 0]) 1);
    [apply wfb_sound; reflexivity | | | simpl; lia].
  - intros i j Hi Hj. simpl in Hi, Hj.
    assert (i = 0 \/ i = 1 \/ i = 2) as [->|[->| ->]] by lia;
      assert (j = 0 \/ j = 1 \/ j = 2) as [->|[->| ->]] by lia; reflexivity.
  - intros i Hi. simpl in Hi.
    assert (i = 0 \/ i = 1 \/ i = 2) as [->|[->| ->]] by lia; reflexivity.
Defined.

(** *** Degree statistics *)

Lemma foldM_map {A B} (f : A -> outcome B) (g : A -> B) l r0 :
  (forall x, In x l -> f x = Ret (g x)) ->
  foldM (fun acc x => d ← f x; Ret (acc ++ [d])) l r0 = Ret (r0 ++ map g l).
Proof.
  revert r0. induction l as [|x l IH]; intros r0 H; simpl.
  - by rewrite app_nil_r.
  - rewrite H by (by left). simpl. rewrite IH by (intros; apply H; by right).
    by rewrite <- app_assoc.
Qed.

Lemma row_degrees_wf m :
  wf m -> row_degrees m = Ret (map (row_count m) (seqZ 0 (n_ m))).
Proof.
  intros Hwf. unfold row_degrees, size.
  rewrite (foldM_map _ (row_count m)); [done|].
  intros i Hi. apply In_seqZ in Hi. apply row_degree_wf; (done || lia).
Qed.

Lemma accumulate_small l a0 :
  0 <= a0 -> (forall x, In x l -> 0 <= x) ->
  a0 + Zsum (fun x => x) l < 2 ^ 32 ->
  fold_left (fun a d => u32 (a + d)) l a0 = a0 + Zsum (fun x => x) l.
Proof.
  revert a0. induction l as [|x l IH]; intros a0 Ha Hl Hs; [simpl; lia|].
  rewrite Zsum_cons in *. cbn [fold_left].
  assert (0 <= x) by (apply Hl; by left).
  assert (0 <= Zsum (fun x => x) l) by (apply Zsum_nonneg; intros; apply Hl; by right).
  rewrite u32_small by lia. rewrite IH; [lia | lia | | lia].
  intros; apply Hl; by right.
Qed.

Lemma Zsum_map (g : Z -> Z) l : Zsum (fun x => x) (map g l) = Zsum g l.
Proof. induction l as [|x l IH]; [done|]. cbn [map]. by rewrite !Zsum_cons, IH. Qed.

Lemma min_from_spec b l :
  min_from b l <= b /\ (forall x, In x l -> min_from b l <= x) /\
  (min_from b l = b \/ In (min_from b l) l).
Proof.
  revert b. induction l as [|x l IH]; intros b; simpl.
  - split; [lia|]. split; [done | by left].
  - destruct (IH (if x <? b then x else b)) as (H1 & H2 & H3).
    destruct (Z.ltb_spec x b).
    + split; [lia|]. split.
      * intros y [<-|Hy]; [lia | by apply H2].
      * right. destruct H3 as [->|H3]; [by left | by right].
    + split; [lia|]. split.
      * intros y [<-|Hy]; [lia | by apply H2].
      * destruct H3 as [H3|H3]; [by left | right; by right].
Qed.

Lemma max_from_spec b l :
  b <= max_from b l /\ (forall x, In x l -> x <= max_from b l) /\
  (max_from b l = b \/ In (max_from b l) l).
Proof.
  revert b. induction l as [|x l IH]; intros b; simpl.
  - split; [lia|]. split; [done | by left].
  - destruct (IH (if b <? x then x else b)) as (H1 & H2 & H3).
    destruct (Z.ltb_spec b x).
    + split; [lia|]. split.
      * intros y [<-|Hy]; [lia | by apply H2].
      * right. destruct H3 as [->|H3]; [by left | by right].
    + split; [lia|]. split.
      * intros y [<-|Hy]; [lia | by apply H2].
      * destruct H3 as [H3|H3]; [by left | right; by right].
Qed.

Lemma Zsum_le f g l :
  (forall x, In x l -> f x <= g x) -> Zsum f l <= Zsum g l.
Proof.
  induction l as [|x l IH]; intros H; [done|]. rewrite !Zsum_cons.
  pose proof (H x ltac:(by left)).
  assert (Zsum f l <= Zsum g l); [|lia].
  apply IH. intros; apply H; by right.
Qed.

Lemma Zsum_const c l : Zsum (fun _ => c) l = c * Z.of_nat (length l).
Proof.
  induction l as [|x l IH]; [simpl; lia|]. rewrite Zsum_cons, IH. cbn [length]. lia.
Qed.

(** The total of the row counts, as [degree_stats] accumulates it. *)
Lemma total_wf m :
  wf m ->
  accumulate_u32 (map (row_count m) (seqZ 0 (n_ m)))
  = Zsum (row_count m) (seqZ 0 (n_ m)) /\
  0 <= Zsum (row_count m) (seqZ 0 (n_ m)) <= n_ m * n_ m.
Proof.
  intros Hwf. destruct (wf_sq m Hwf) as [Hn Hsq].
  assert (0 <= Zsum (row_count m) (seqZ 0 (n_ m)) <= n_ m * n_ m) as Hb.
  { pose proof (Zsum_bounds (row_count m) (seqZ 0 (n_ m)) (n_ m)
                  (fun i _ => row_count_range m i Hwf)) as H.
    rewrite length_seqZ_Z in H by done. done. }
  split; [|done]. unfold accumulate_u32.
  rewrite accumulate_small; rewrite ?Zsum_map; try lia.
  intros x Hx. apply in_map_iff in Hx. destruct Hx as (i & <- & _).
  apply row_count_range. done.
Qed.

Lemma degree_stats_wf m directed :
  wf m -> 1 <= n_ m ->
  let T := Zsum (row_count m) (seqZ 0 (n_ m)) in
  exists mn mx,
    degree_stats m directed
    = Ret (mkStats (Brandes.to_double T / Brandes.to_double (n_ m))%float mn mx
             (Brandes.to_double (if directed then T else T / 2)
              / Brandes.to_double (if directed then n_ m * (n_ m - 1)
                                   else n_ m * (n_ m - 1) / 2))%float) /\
    (forall i, 0 <= i < n_ m -> mn <= row_count m i <= mx) /\
    (exists i, 0 <= i < n_ m /\ row_count m i = mn) /\
    (exists i, 0 <= i < n_ m /\ row_count m i = mx).
Proof.
  intros Hwf Hn1 T. destruct (wf_sq m Hwf) as [Hn Hsq].
  destruct (total_wf m Hwf) as [Hacc HT].
  unfold degree_stats, size. rewrite row_degrees_wf by done.
  cbn [mbind outcome_bind]. rewrite Hacc. fold T.
  rewrite (seqZ_cons 0 (n_ m)) by lia. cbn [map min_element max_element].
  cbn [mbind outcome_bind].
  set (l := map (row_count m) (seqZ (Z.succ 0) (Z.pred (n_ m)))).
  destruct (min_from_spec (row_count m 0) l) as (Hm1 & Hm2 & Hm3).
  destruct (max_from_spec (row_count m 0) l) as (Hx1 & Hx2 & Hx3).
  rewrite (u32_small (n_ m - 1)) by nia. rewrite u32_small by nia.
  eexists _, _. split; [reflexivity|].
  assert (forall i, 0 <= i < n_ m -> i = 0 \/ In (row_count m i) l) as Hall.
  { intros i Hi. destruct (Z.eq_dec i 0); [by left|]. right. unfold l.
    apply in_map. apply In_seqZ. lia. }
  assert (forall x, In x l -> exists i, 0 <= i < n_ m /\ row_count m i = x) as Hel.
  { intros x Hx. unfold l in Hx. apply in_map_iff in Hx.
    destruct Hx as (i & <- & Hi). apply In_seqZ in Hi. exists i. split; [lia|done]. }
  split; [|split].
  - intros i Hi. destruct (Hall i Hi) as [->|Hin]; [lia|].
    split; [by apply Hm2 | by apply Hx2].
  - destruct Hm3 as [->|Hin]; [exists 0; split; [lia|done] | by apply Hel].
  - destruct Hx3 as [->|Hin]; [exists 0; split; [lia|done] | by apply Hel].
Qed.

(** X8: on a matrix of the data model with at least one node,
    [degree_stats] returns as [min_deg] and [max_deg] the least and the
    greatest number of non-sentinel entries of a row (each attained by some
    row), as [avg] the total of these counts over [n], and as
    [edge_density] the total (halved by integer division if not
    [directed]) over [n (n - 1)] (halved likewise). *)
Theorem degree_stats_spec (m : AdjMat.t) (directed : bool) :
  wf m -> 1 <= n_ m ->
  exists s,
    degree_stats m directed = Ret s /\
    (forall i, 0 <= i < n_ m -> min_deg s <= row_count m i <= max_deg s) /\
    (exists i, 0 <= i < n_ m /\ row_count m i = min_deg s) /\
    (exists i, 0 <= i < n_ m /\ row_count m i = max_deg s) /\
    n_ m * min_deg s <= Zsum (row_count m) (seqZ 0 (n_ m)) <= n_ m * max_deg s /\
    avg s = (Brandes.to_double (Zsum (row_count m) (seqZ 0 (n_ m)))
             / Brandes.to_double (n_ m))%float /\
    edge_density s
    = (Brandes.to_double (if directed then Zsum (row_count m) (seqZ 0 (n_ m))
                          else Zsum (row_count m) (seqZ 0 (n_ m)) / 2)
       / Brandes.to_double (if directed then n_ m * (n_ m - 1)
                            else n_ m * (n_ m - 1) / 2))%float.
Proof.
  intros Hwf Hn1.
  destruct (degree_stats_wf m directed Hwf Hn1) as (mn & mx & -> & Hall & Hmin & Hmax).
  eexists. split; [reflexivity|]. cbn [min_deg max_deg avg edge_density].
  split; [done|]. split; [done|]. split; [done|]. split; [|done].
  pose proof (Zsum_le (fun _ => mn) (row_count m) (seqZ 0 (n_ m))) as Hlo.
  pose proof (Zsum_le (row_count m) (fun _ => mx) (seqZ 0 (n_ m))) as Hhi.
  rewrite Zsum_const, length_seqZ_Z in Hlo, Hhi by lia.
  split; [rewrite Z.mul_comm; apply Hlo | rewrite (Z.mul_comm (n_ m)); apply Hhi];
    intros i Hi; apply In_seqZ in Hi; apply Hall; lia.
Qed.

Lemma degree_stats_spec_witness :
  exists s,
    degree_stats (mk 3 [0; 4; 0; 4; 0; 2; 0; 2; 0]) false = Ret s /\
    (exists i, 0 <= i < 3 /\ row_count (mk 3 [0; 4; 0; 4; 0; 2; 0; 2; 0]) i = max_deg s).
Proof.
  destruct (degree_stats_spec (mk 3 [0; 4; 0; 4; 0; 2; 0; 2; 0]) false) as (s & H1 & _ & _ & H4 & _);
    [apply wfb_sound; reflexivity | simpl; lia |].
  exists s. split; [exact H1 | exact H4].
Defined.

(** X9: on a graph with no node, [degree_stats] dereferences the end
    iterator that [std::min_element] returns for the empty degree vector: the
    call has no defined behaviour.  A graph made by [create(0)] is such a
    graph. *)
Theorem degree_stats_empty (m : AdjMat.t) (g : GraphManager.t) (directed : bool) :
  (n_ m = 0 -> degree_stats m directed = Undefined) /\
  Manager.degree_stats (GraphManager.create g 0).2 (GraphManager.next_id_ g) directed
  = Undefined.
Proof.
  split.
  - intros H. unfold degree_stats, row_degrees, size. rewrite H. reflexivity.
  - unfold Manager.degree_stats, Manager.get_graph. simpl.
    rewrite lookup_insert_eq. reflexivity.
Qed.

Lemma degree_stats_empty_witness :
  degree_stats (make 0) true = Undefined.
Proof.
  pose proof (degree_stats_empty (make 0) GraphManager.init true) as [H _].
  apply H. reflexivity.
Defined.

Lemma row_count_zero_diag m i :
  wf m -> zero_diag m -> 0 <= i < n_ m -> row_count m i <= n_ m - 1.
Proof.
  intros Hwf Hz Hi. rewrite row_count_split by done.
  unfold edge at 1. rewrite Hz by done. simpl. rewrite count_if_Zsum.
  pose proof (Zsum_le (fun j => Z.b2z (out_edge m i j))
                (fun j => 1 + (if j =? i then -1 else 0)) (seqZ 0 (n_ m))) as H.
  rewrite Zsum_plus, Zsum_const, length_seqZ_Z in H by lia.
  pose proof (Zsum_single (Z.to_nat (n_ m)) 0 i (-1) ltac:(lia)) as Hs.
  rewrite Z2Nat.id in Hs by lia. rewrite Hs in H.
  assert (Zsum (fun j => Z.b2z (out_edge m i j)) (seqZ 0 (n_ m)) <= 1 * n_ m + -1); [|lia].
  apply H. intros j _. unfold out_edge.
  destruct (Z.eqb_spec j i); simpl; [lia|]. pose proof (b2z_range (negb (cell m i j =? NO_EDGE))). lia.
Qed.

Lemma total_twice_pairs m :
  symmetric m -> zero_diag m ->
  Zsum (row_count m) (seqZ 0 (n_ m)) = 2 * edge_pairs m.
Proof.
  intros Hs Hz. unfold edge_pairs.
  set (L := seqZ 0 (n_ m)).
  assert (Zsum (row_count m) L
          = Zsum (fun i => Zsum (fun j => Z.b2z ((i <? j) && edge m i j)) L) L
            + Zsum (fun i => Zsum (fun j => Z.b2z ((j <? i) && edge m i j)) L) L) as ->.
  { rewrite <- Zsum_plus. apply Zsum_ext. intros i Hi. apply In_seqZ in Hi.
    unfold row_count. rewrite count_if_Zsum. fold L. rewrite <- Zsum_plus.
    apply Zsum_ext. intros j Hj. apply In_seqZ in Hj.
    destruct (Z.ltb_spec i j); destruct (Z.ltb_spec j i); simpl; try lia.
    assert (i = j) as -> by lia. unfold edge. rewrite Hz by lia. done. }
  rewrite (Zsum_swap (fun i j => Z.b2z ((j <? i) && edge m i j))).
  rewrite (Zsum_ext (fun b => Zsum (fun a => Z.b2z ((b <? a) && edge m a b)) L)
             (fun i => Zsum (fun j => Z.b2z ((i <? j) && edge m i j)) L)); [lia|].
  intros i Hi. apply In_seqZ in Hi. apply Zsum_ext. intros j Hj. apply In_seqZ in Hj.
  unfold edge. rewrite (Hs j i) by lia. done.
Qed.

(** X10: on a symmetric matrix of the data model with a zero diagonal and
    at least one node, the row counts add up to twice the number of
    unordered pairs joined by an edge, so the integer halving in
    [degree_stats(directed = false)] is exact: the density is that number of
    pairs over [n (n - 1) / 2], and the number of pairs does not exceed this
    denominator. *)
Theorem undirected_density (m : AdjMat.t) :
  wf m -> 1 <= n_ m -> symmetric m -> zero_diag m ->
  exists s,
    degree_stats m false = Ret s /\
    Zsum (row_count m) (seqZ 0 (n_ m)) = 2 * edge_pairs m /\
    edge_density s
    = (Brandes.to_double (edge_pairs m)
       / Brandes.to_double (n_ m * (n_ m - 1) / 2))%float /\
    0 <= edge_pairs m <= n_ m * (n_ m - 1) / 2.
Proof.
  intros Hwf Hn1 Hs Hz.
  destruct (degree_stats_wf m false Hwf Hn1) as (mn & mx & -> & _).
  pose proof (total_twice_pairs m Hs Hz) as HT.
  eexists. split; [reflexivity|]. split; [done|]. cbn [edge_density].
  rewrite HT. rewrite (Z.mul_comm 2), Z.div_mul by lia. split; [done|].
  assert (Zsum (row_count m) (seqZ 0 (n_ m)) <= n_ m * (n_ m - 1)) as Hle.
  { pose proof (Zsum_le (row_count m) (fun _ => n_ m - 1) (seqZ 0 (n_ m))) as H.
    rewrite Zsum_const, length_seqZ_Z in H by lia. rewrite Z.mul_comm. apply H.
    intros i Hi. apply In_seqZ in Hi. apply row_count_zero_diag; (done || lia). }
  destruct (total_wf m Hwf) as [_ Hnn].
  split; [lia|]. apply Z.div_le_lower_bound; lia.
Qed.

Lemma undirected_density_witness :
  exists s,
    degree_stats (mk 3 [0; 4; 0; 4; 0; 2; 0; 2; 0]) false = Ret s /\
    Zsum (row_count (mk 3 [0; 4; 0; 4; 0; 2; 0; 2; 0])) (seqZ 0 3)
    = 2 * edge_pairs (mk 3 [0; 4; 0; 4; 0; 2; 0; 2; 0]).
Proof.
  destruct (undirected_density (mk 3 [0; 4; 0; 4; 0; 2; 0; 2; 0])) as (s & H1 & H2 & _);
    [apply wfb_sound; reflexivity | simpl; lia | | |].
  - intros i j Hi Hj. simpl in Hi, Hj.
    assert (i = 0 \/ i = 1 \/ i = 2) as [->|[->| ->]] by lia;
      assert (j = 0 \/ j = 1 \/ j = 2) as [->|[->| ->]] by lia; reflexivity.
  - intros i Hi. simpl in Hi.
    assert (i = 0 \/ i = 1 \/ i = 2) as [->|[->| ->]] by lia; reflexivity.
  - exists s. split; [exact H1 | exact H2].
Defined.

(** X11: on a one-node graph whose only cell is zero, [degree_stats]
    returns degrees 0 and, in both modes, the density [0.0 / 0.0]: not a
    number. *)
Theorem degree_stats_single_node (m : AdjMat.t) (directed : bool) :
  wf m -> n_ m = 1 -> cell m 0 0 = 0 ->
  exists s,
    degree_stats m directed = Ret s /\
    min_deg s = 0 /\ max_deg s = 0 /\
    PrimFloat.is_nan (edge_density s) = true.
Proof.
  intros Hwf Hn Hc. destruct m as [n d]. simpl in Hn. subst n.
  pose proof (wf_square _ Hwf) as Hlen. simpl in Hlen.
  destruct d as [|x [|y d]]; simpl in Hlen; try lia.
  unfold cell in Hc. simpl in Hc. subst x.
  destruct directed; eexists; (split; [vm_compute; reflexivity|]);
    split; [reflexivity|split; reflexivity| reflexivity |split; reflexivity].
Qed.

Lemma degree_stats_single_node_witness :
  exists s,
    degree_stats (make 1) false = Ret s /\
    PrimFloat.is_nan (edge_density s) = true.
Proof.
  destruct (degree_stats_single_node (make 1) false) as (s & H1 & _ & _ & H4);
    [apply wfb_sound; reflexivity | reflexivity | reflexivity |].
  exists s. split; [exact H1 | exact H4].
Defined.

End DegreeFacts.

(** ** Isolated nodes *)

Module IsolatedFacts.
Import AdjMat AdjMatFacts Algorithms Paths Neighbours Triangles Degrees DegreeFacts.

Lemma row_none_scan m i (len : nat) k0 :
  wf m -> 0 <= i < n_ m -> 0 <= k0 -> k0 + Z.of_nat len <= n_ m ->
  ptr_none_of (raw m) (seqZ (i * n_ m + k0) (Z.of_nat len))
  = Ret (forallb (fun j => negb (edge m i j)) (seqZ k0 (Z.of_nat len))).
Proof.
  intros Hwf Hi. revert k0.
  induction len as [|len IH]; intros k0 Hk Hlen.
  - rewrite !seqZ_nil by lia. done.
  - rewrite (seqZ_cons (i * n_ m + k0)), (seqZ_cons k0) by lia.
    replace (Z.pred (Z.of_nat (S len))) with (Z.of_nat len) by lia.
    replace (Z.succ (i * n_ m + k0)) with (i * n_ m + (k0 + 1)) by lia.
    replace (Z.succ k0) with (k0 + 1) by lia.
    cbn [ptr_none_of forallb]. rewrite load_cell by (done || lia).
    cbn [mbind outcome_bind]. unfold edge at 1.
    destruct (negb (cell m i k0 =? NO_EDGE)); [done|].
    rewrite IH by lia. done.
Qed.

Lemma row_none_wf m i :
  wf m -> 0 <= i < n_ m ->
  ptr_none_of (raw m) (seqZ (u32 (i * n_ m)) (n_ m)) = Ret (row_empty m i).
Proof.
  intros Hwf Hi. destruct (wf_sq m Hwf) as [Hn Hsq].
  rewrite u32_small by nia.
  pose proof (row_none_scan m i (Z.to_nat (n_ m)) 0 Hwf Hi ltac:(lia) ltac:(lia)) as H.
  rewrite Z.add_0_r, Z2Nat.id in H by lia. done.
Qed.

Lemma col_none_scan m i (fuel : nat) k0 :
  wf m -> 0 <= i < n_ m -> 0 <= k0 <= n_ m -> n_ m - k0 <= Z.of_nat fuel ->
  col_none_of fuel (mkColIter (raw m) (n_ m) i i k0) (mkColIter (raw m) (n_ m) i i (n_ m))
  = Ret (forallb (fun k => negb (in_edge m i k)) (seqZ k0 (n_ m - k0))).
Proof.
  intros Hwf Hi. destruct (wf_sq m Hwf) as [Hn Hsq]. revert k0.
  induction fuel as [|fuel IH]; intros k0 Hk Hfuel.
  - assert (k0 = n_ m) as -> by lia. simpl. unfold ColIter_neq. simpl.
    rewrite Z.eqb_refl. simpl. rewrite seqZ_nil by lia. done.
  - destruct (Z.eq_dec k0 (n_ m)) as [->|Hne].
    + simpl. unfold ColIter_neq. simpl.
      rewrite Z.eqb_refl. simpl. rewrite seqZ_nil by lia. done.
    + cbn [col_none_of]. unfold ColIter_neq. cbn [i_].
      destruct (Z.eqb_spec k0 (n_ m)); [done|]. cbn [negb].
      rewrite seqZ_cons by lia. cbn [forallb].
      replace (Z.pred (n_ m - k0)) with (n_ m - (k0 + 1)) by lia.
      replace (Z.succ k0) with (k0 + 1) by lia.
      unfold ColIter_deref, ColIter_incr. cbn [i_ exclude_ base_ stride_ col_].
      unfold in_edge at 1.
      destruct (Z.eqb_spec k0 i) as [->|Hki].
      * cbn [mbind outcome_bind]. unfold NO_EDGE at 1. simpl negb.
        cbn [andb]. rewrite IH by lia. done.
      * rewrite u64_small by nia. rewrite load_cell by (done || lia).
        cbn [mbind outcome_bind negb andb].
        destruct (negb (cell m k0 i =? NO_EDGE)); [done|].
        cbn [negb andb]. rewrite IH by lia. done.
Qed.

Lemma col_none_wf m i :
  wf m -> 0 <= i < n_ m ->
  col_none_of (Z.to_nat (n_ m)) (ColIter_begin (ColIter_new (raw m) (n_ m) i i))
    (ColIter_end (ColIter_new (raw m) (n_ m) i i))
  = Ret (col_empty m i).
Proof.
  intros Hwf Hi. unfold ColIter_begin, ColIter_end, ColIter_new. simpl.
  rewrite col_none_scan by (done || lia). unfold col_empty.
  by rewrite Z.sub_0_r.
Qed.

Lemma filter_filter {A} (p q : A -> bool) l :
  List.filter q (List.filter p l) = List.filter (fun x => p x && q x) l.
Proof.
  induction l as [|x l IH]; [done|]. cbn [List.filter].
  destruct (p x); simpl; [|done]. destruct (q x); by rewrite IH.
Qed.

Lemma isolated_nodes_wf m directed :
  wf m ->
  isolated_nodes m directed
  = Ret (List.filter (fun i => row_empty m i && (negb directed || col_empty m i))
           (seqZ 0 (n_ m))).
Proof.
  intros Hwf. unfold isolated_nodes, no_out_candidates, size.
  rewrite (foldM_filter _ (row_empty m)); cycle 1.
  { intros i r Hi. apply In_seqZ in Hi. rewrite row_none_wf by (done || lia). done. }
  cbn [mbind outcome_bind app]. destruct directed; cbn [negb orb].
  - rewrite (foldM_filter _ (col_empty m)); cycle 1.
    { intros i r Hi. apply filter_In in Hi. destruct Hi as [Hi _]. apply In_seqZ in Hi.
      rewrite col_none_wf by (done || lia). done. }
    cbn [app]. by rewrite filter_filter.
  - f_equal. apply filter_ext. intros i. by rewrite andb_true_r.
Qed.

Lemma sorted_filter {A} (R : A -> A -> Prop) (p : A -> bool) l :
  StronglySorted R l -> StronglySorted R (List.filter p l).
Proof.
  induction 1 as [|x l Hs IH Hall]; [constructor|]. cbn [List.filter].
  destruct (p x); [|done]. constructor; [done|].
  rewrite List.Forall_forall in *. intros y Hy. apply filter_In in Hy.
  apply Hall. tauto.
Qed.

Lemma seqZ_sorted_lt (len : nat) lo : StronglySorted Z.lt (seqZ lo (Z.of_nat len)).
Proof.
  revert lo. induction len as [|len IH]; intros lo.
  - rewrite seqZ_nil by lia. constructor.
  - rewrite seqZ_cons by lia.
    replace (Z.pred (Z.of_nat (S len))) with (Z.of_nat len) by lia.
    constructor; [apply IH|]. rewrite List.Forall_forall. intros y Hy.
    apply In_seqZ in Hy. lia.
Qed.

Lemma row_empty_spec m i :
  row_empty m i = true <-> forall j, 0 <= j < n_ m -> cell m i j = 0.
Proof.
  unfold row_empty. rewrite forallb_forall. split.
  - intros H j Hj. specialize (H j ltac:(apply In_seqZ; lia)). unfold edge in H.
    destruct (Z.eqb_spec (cell m i j) NO_EDGE) as [He|]; [exact He | done].
  - intros H j Hj. apply In_seqZ in Hj. unfold edge. rewrite H by lia. done.
Qed.

Lemma col_empty_spec m i :
  col_empty m i = true <-> forall j, 0 <= j < n_ m -> j <> i -> cell m j i = 0.
Proof.
  unfold col_empty. rewrite forallb_forall. split.
  - intros H j Hj Hne. specialize (H j ltac:(apply In_seqZ; lia)). unfold in_edge in H.
    destruct (Z.eqb_spec j i); [done|].
    destruct (Z.eqb_spec (cell m j i) NO_EDGE) as [He|]; [exact He | done].
  - intros H j Hj. apply In_seqZ in Hj. unfold in_edge.
    destruct (Z.eqb_spec j i); [done|]. rewrite H by lia. done.
Qed.

(** X12: on a matrix of the data model, [isolated_nodes] returns, in
    increasing order and without repetition, exactly the nodes whose row
    holds no non-sentinel entry and, if [directed], whose column holds none
    outside of the diagonal; with [directed = false] incoming edges are not
    looked at. *)
Theorem isolated_nodes_spec (m : AdjMat.t) (directed : bool) :
  wf m ->
  exists res,
    isolated_nodes m directed = Ret res /\
    StronglySorted Z.lt res /\
    forall i, In i res <->
      0 <= i < n_ m /\
      (forall j, 0 <= j < n_ m -> cell m i j = 0) /\
      (directed = true -> forall j, 0 <= j < n_ m -> j <> i -> cell m j i = 0).
Proof.
  intros Hwf. destruct (wf_sq m Hwf) as [Hn _].
  rewrite isolated_nodes_wf by done. eexists. split; [reflexivity|]. split.
  - apply sorted_filter. rewrite <- (Z2Nat.id (n_ m)) by lia. apply seqZ_sorted_lt.
  - intros i. rewrite filter_In, In_seqZ, andb_true_iff, orb_true_iff.
    rewrite row_empty_spec, col_empty_spec. split.
    + intros (Hi & Hrow & Hcol). split; [lia|]. split; [done|].
      intros ->. destruct Hcol as [Hcol|Hcol]; [done | exact Hcol].
    + intros (Hi & Hrow & Hcol). split; [lia|]. split; [done|].
      destruct directed; [right; by apply Hcol | by left].
Qed.

Lemma isolated_nodes_spec_witness :
  exists res,
    isolated_nodes (mk 3 [0; 4; 0; 0; 0; 0; 0; 0; 0]) true = Ret res /\
    StronglySorted Z.lt res.
Proof.
  destruct (isolated_nodes_spec (mk 3 [0; 4; 0; 0; 0; 0; 0; 0; 0]) true) as (res & H1 & H2 & _);
    [apply wfb_sound; reflexivity |].
  exists res. split; [exact H1 | exact H2].
Defined.

Lemma count_if_zero p l :
  count_if p l = 0 <-> forallb (fun x => negb (p x)) l = true.
Proof.
  unfold count_if. induction l as [|x l IH]; [done|]. cbn [List.filter forallb].
  destruct (p x); cbn [negb andb length]; [split; [lia|done] | exact IH].
Qed.

(** X13: on a matrix of the data model, a node is in the list that
    [isolated_nodes] returns exactly if [get_degree] with the same
    [directed] flag reports out-degree 0 and in-degree 0 for it. *)
Theorem isolated_iff_degree_zero (m : AdjMat.t) (directed : bool) (i : Z) :
  wf m -> 0 <= i < n_ m ->
  exists res,
    isolated_nodes m directed = Ret res /\
    (In i res <-> get_degree m i directed = Ret (mkDegree 0 0)).
Proof.
  intros Hwf Hi. rewrite isolated_nodes_wf, get_degree_wf by done.
  eexists. split; [reflexivity|].
  rewrite filter_In, In_seqZ, andb_true_iff, orb_true_iff.
  unfold row_empty, col_empty. rewrite <- !count_if_zero.
  fold (row_count m i). fold (col_count m i). split.
  - intros (_ & Hrow & Hcol). rewrite Hrow.
    destruct directed; [|done]. destruct Hcol as [ | -> ]; done.
  - intros Heq. split; [lia|]. destruct directed; injection Heq as Hr Hc.
    + split; [done | by right].
    + split; [done | by left].
Qed.

Lemma isolated_iff_degree_zero_witness :
  exists res,
    isolated_nodes (mk 3 [0; 4; 0; 0; 0; 0; 0; 0; 0]) true = Ret res /\
    (In 2 res <->
     get_degree (mk 3 [0; 4; 0; 0; 0; 0; 0; 0; 0]) 2 true = Ret (mkDegree 0 0)).
Proof.
  apply (isolated_iff_degree_zero (mk 3 [0; 4; 0; 0; 0; 0; 0; 0; 0]) true 2);
    [apply wfb_sound; reflexivity | simpl; lia].
Defined.

(** X14: on a matrix of the data model, the directed result of
    [isolated_nodes] is the undirected result without the nodes that have an
    incoming edge; on a symmetric matrix the two results are the same
    list. *)
Theorem isolated_directed_vs_undirected (m : AdjMat.t) :
  wf m ->
  exists rd ru,
    isolated_nodes m true = Ret rd /\
    isolated_nodes m false = Ret ru /\
    rd = List.filter (col_empty m) ru /\
    (forall i, In i rd -> In i ru) /\
    (symmetric m -> rd = ru).
Proof.
  intros Hwf. rewrite !isolated_nodes_wf by done. cbn [negb orb].
  eexists _, _. split; [reflexivity|]. split; [reflexivity|].
  split; [|split].
  - rewrite filter_filter. apply filter_ext. intros i. by rewrite andb_true_r.
  - intros i. rewrite !filter_In, !andb_true_iff. intros (H1 & H2 & _). done.
  - intros Hs. apply filter_ext_in. intros i Hi. apply In_seqZ in Hi.
    rewrite andb_true_r. destruct (row_empty m i) eqn:Hr; [|done]. simpl.
    apply col_empty_spec. intros j Hj _. rewrite (Hs j i) by lia.
    apply (proj1 (row_empty_spec m i) Hr). lia.
Qed.

Lemma isolated_directed_vs_undirected_witness :
  exists rd ru,
    isolated_nodes (mk 3 [0; 4; 0; 0; 0; 0; 0; 0; 0]) true = Ret rd /\
    isolated_nodes (mk 3 [0; 4; 0; 0; 0; 0; 0; 0; 0]) false = Ret ru /\
    rd = List.filter (col_empty (mk 3 [0; 4; 0; 0; 0; 0; 0; 0; 0])) ru.
Proof.
  destruct (isolated_directed_vs_undirected (mk 3 [0; 4; 0; 0; 0; 0; 0; 0; 0]))
    as (rd & ru & H1 & H2 & H3 & _); [apply wfb_sound; reflexivity |].
  exists rd, ru. split; [exact H1 | split; [exact H2 | exact H3]].
Defined.

End IsolatedFacts.

(** ** Shortest paths are shortest *)

Module Distances.
Import AdjMat AdjMatFacts Algorithms Paths Neighbours PathFacts DijkstraFacts Walks.

Lemma walk_reach m s v hops len : walk m s v hops len -> reach m s v.
Proof. induction 1; [constructor | by econstructor]. Qed.

Lemma reach_walk m s v : reach m s v -> exists hops len, walk m s v hops len.
Proof.
  induction 1 as [|u v _ (hops & len & Hw) Harc]; [exists 0, 0; constructor|].
  eexists _, _. by econstructor.
Qed.

Lemma arc_weight m u v : wf m -> arc m u v -> 1 <= cell m u v <= u16_max.
Proof.
  intros Hwf (Hu & Hv & _ & He). pose proof (cell_range m u v Hwf Hu Hv).
  unfold edge in He. apply negb_true_iff, Z.eqb_neq in He. unfold NO_EDGE in He. lia.
Qed.

(** The breadth-first search returns, and the finite entries of its result
    are those of the reachable nodes. *)
Lemma bfs_full m start :
  wf m -> node m start ->
  exists d, shortest_path m start false = Ret d /\
            unit_distances m start d /\
            (forall v, reach m start v -> at_ d v <> INF) /\
            (forall v, node m v -> at_ d v <> INF -> reach m start v).
Proof.
  intros Hwf Hs. pose proof (wf_small m Hwf) as Hn.
  pose proof (bfs_init m start Hwf Hs) as I0.
  destruct (bfs_loop_total m start Hwf (bfs_fuel (n_ m)) [] [start] [] 0 0 _ I0
              ltac:(unfold bfs_fuel; lia)) as (d & P & D & pops & Hloop & If).
  exists d. split; [|split; [|split]].
  - unfold shortest_path, size. rewrite node_in_range by apply Hs.
    rewrite (store_at _ (n_ m)); [|rewrite length_replicate; lia|apply Hs].
    cbn [mbind outcome_bind negb]. exact Hloop.
  - eapply bfs_final; eauto.
  - induction 1 as [|u v _ IH Harc].
    + rewrite (bi_start _ _ _ _ _ _ _ _ _ _ If). pose proof INF_val. lia.
    + destruct (bi_cover _ _ _ _ _ _ _ _ _ _ If u ltac:(apply Harc) IH)
        as [Hp|[[]|[[]|[]]]].
      apply (bi_closed _ _ _ _ _ _ _ _ _ _ If u v Hp Harc).
  - apply If.
Qed.

Lemma hops_lower m start d v hops len :
  unit_distances m start d -> node m start -> walk m start v hops len -> at_ d v <= hops.
Proof.
  intros U Hs. induction 1 as [|u v hops len _ IH Harc].
  - rewrite (ud_start _ _ _ U). lia.
  - destruct (Z.eq_dec (at_ d u) INF) as [Hi|Hi].
    + pose proof (ud_range _ _ _ U v ltac:(apply Harc)). lia.
    + pose proof (ud_arc _ _ _ U u v Harc Hi). lia.
Qed.

Lemma hops_attained m start d :
  unit_distances m start d ->
  forall v, node m v -> at_ d v <> INF -> exists len, walk m start v (at_ d v) len.
Proof.
  intros U.
  assert (H : forall (k : nat) v, node m v -> at_ d v <= Z.of_nat k -> at_ d v <> INF ->
            exists len, walk m start v (at_ d v) len).
  { induction k as [|k IH]; intros v Hv Hk Hi;
      (destruct (Z.eq_dec v start) as [->|Hne];
       [rewrite (ud_start _ _ _ U); exists 0; constructor|]);
      destruct (ud_pred _ _ _ U v Hv Hne Hi) as (u & Huv & Hui & Heq);
      pose proof (ud_range _ _ _ U u ltac:(apply Huv)) as Hr.
    - lia.
    - destruct (IH u ltac:(apply Huv) ltac:(lia) Hui) as (len & Hw).
      rewrite Heq. eexists. by econstructor. }
  intros v Hv Hi. pose proof (ud_range _ _ _ U v Hv).
  apply (H (Z.to_nat (at_ d v)) v Hv); [lia | done].
Qed.

(** X15: on a matrix of the data model and for a start node below [n],
    [shortest_path(start, weighed = false)] returns a vector of [n] entries
    in which a node holds [INT32_MAX] exactly if no walk leads to it from
    [start], and otherwise holds the least number of edges of such a walk:
    no walk has fewer edges, and one has exactly that many. *)
Theorem bfs_shortest_hops (m : AdjMat.t) (start : Z) :
  wf m -> 0 <= start < n_ m ->
  exists d,
    shortest_path m start false = Ret d /\
    Z.of_nat (length d) = n_ m /\
    forall v, 0 <= v < n_ m ->
      (at_ d v = INF <-> ~ reach m start v) /\
      (forall hops len, walk m start v hops len -> at_ d v <= hops) /\
      (at_ d v <> INF -> exists len, walk m start v (at_ d v) len).
Proof.
  intros Hwf Hs.
  destruct (bfs_full m start Hwf Hs) as (d & Hd & U & Hfin & Hre).
  exists d. split; [done|]. split; [apply U|].
  intros v Hv. split; [|split].
  - split.
    + intros Hi Hr. by apply (Hfin v Hr).
    + intros Hnr. destruct (Z.eq_dec (at_ d v) INF); [done|].
      exfalso. apply Hnr. by apply Hre.
  - intros hops len Hw. by eapply hops_lower.
  - by apply hops_attained.
Qed.

Lemma bfs_shortest_hops_witness :
  exists d,
    shortest_path (mk 3 [0; 4; 0; 0; 0; 0; 9; 2; 0]) 2 false = Ret d /\
    Z.of_nat (length d) = 3.
Proof.
  destruct (bfs_shortest_hops (mk 3 [0; 4; 0; 0; 0; 0; 9; 2; 0]) 2) as (d & H1 & H2 & _);
    [apply wfb_sound; reflexivity | simpl; lia |].
  exists d. split; [exact H1 | exact H2].
Defined.

(** Dijkstra's loop returns, and the finite entries of its result are those
    of the reachable nodes. *)
Lemma dijkstra_full m start W :
  wf m -> 0 <= W -> weights_le m W -> n_ m * W < INT32_MAX -> node m start ->
  exists d, shortest_path m start true = Ret d /\
            distances m start d /\
            (forall v, reach m start v -> at_ d v <> INF).
Proof.
  intros Hwf HW0 HW Hfit Hs. pose proof (wf_small m Hwf) as Hn.
  pose proof (dij_init m start W Hwf Hs) as I0.
  destruct (dij_loop_total m start W Hwf HW0 HW ltac:(lia) (dijkstra_fuel (n_ m))
              [] [(0, start)] 0 _ _ I0 ltac:(unfold dijkstra_fuel; nia))
    as (d & E & D & phi & Hloop & If).
  exists d. split; [|split].
  - unfold shortest_path, size. rewrite node_in_range by apply Hs.
    rewrite (store_at _ (n_ m)); [|rewrite length_replicate; lia|apply Hs].
    cbn [mbind outcome_bind negb]. exact Hloop.
  - eapply dij_final; eauto.
  - induction 1 as [|u v _ IH Harc].
    + rewrite (di_start _ _ _ _ _ _ _ _ _ _ If). pose proof INF_val. lia.
    + destruct (di_cover _ _ _ _ _ _ _ _ _ _ If u ltac:(apply Harc) IH) as [Hu|[]].
      simpl in Hu.
      pose proof (di_closed _ _ _ _ _ _ _ _ _ _ If u v Hu Harc) as Hc.
      pose proof (di_set _ _ _ _ _ _ _ _ _ _ If u Hu) as [_ HuD].
      pose proof (di_D _ _ _ _ _ _ _ _ _ _ If) as HD.
      pose proof (HW u v ltac:(apply Harc) ltac:(apply Harc)) as Hw.
      intros Hinf.
      assert (~ In v E) as Hnin.
      { intros Hv. pose proof (di_set _ _ _ _ _ _ _ _ _ _ If v Hv) as [_ HvD].
        pose proof (dij_settled_le m start W Hwf _ _ _ _ _ _ _ If) as Hlen.
        simpl in Hlen. unfold INF in *. nia. }
      pose proof (di_settled _ _ _ _ _ _ _ _ _ _ If) as Hnd. simpl in Hnd.
      assert (Z.of_nat (length (v :: E)) <= n_ m) as Hlen.
      { apply NoDup_nodes_length; [lia | | ].
        - apply NoDup_cons. split; [|done].
          intros Hin. apply Hnin. by apply list_elem_of_In.
        - intros x [<-|Hx]; [apply Harc|].
          apply (di_set _ _ _ _ _ _ _ _ _ _ If x Hx). }
      simpl length in Hlen. unfold INF in *. nia.
Qed.

Lemma weight_lower m start d v hops len :
  wf m -> distances m start d -> walk m start v hops len -> at_ d v <= len.
Proof.
  intros Hwf U. induction 1 as [|u v hops len _ IH Harc].
  - rewrite (wd_start _ _ _ U). lia.
  - pose proof (arc_weight m u v Hwf Harc).
    destruct (Z.eq_dec (at_ d u) INF) as [Hi|Hi].
    + pose proof (wd_range _ _ _ U v ltac:(apply Harc)). lia.
    + pose proof (wd_arc _ _ _ U u v Harc Hi). lia.
Qed.

Lemma weight_attained m start d :
  wf m -> distances m start d ->
  forall v, node m v -> at_ d v <> INF -> exists hops, walk m start v hops (at_ d v).
Proof.
  intros Hwf U.
  assert (H : forall (k : nat) v, node m v -> at_ d v <= Z.of_nat k -> at_ d v <> INF ->
            exists hops, walk m start v hops (at_ d v)).
  { induction k as [|k IH]; intros v Hv Hk Hi;
      (destruct (Z.eq_dec v start) as [->|Hne];
       [rewrite (wd_start _ _ _ U); exists 0; constructor|]);
      destruct (wd_pred _ _ _ U v Hv Hne Hi) as (u & Huv & Hui & Heq);
      pose proof (wd_range _ _ _ U u ltac:(apply Huv)) as Hr;
      pose proof (arc_weight m u v Hwf Huv) as Hw.
    - lia.
    - destruct (IH u ltac:(apply Huv) ltac:(lia) Hui) as (hops & Hwk).
      rewrite Heq. eexists. by econstructor. }
  intros v Hv Hi. pose proof (wd_range _ _ _ U v Hv).
  apply (H (Z.to_nat (at_ d v)) v Hv); [lia | done].
Qed.

(** X16: on a matrix of the data model whose weights are at most [W] with
    [n * W < INT32_MAX], and for a start node below [n],
    [shortest_path(start, weighed = true)] returns a vector of [n] entries
    in which a node holds [INT32_MAX] exactly if no walk leads to it from
    [start], and otherwise holds the least total weight of such a walk: no
    walk weighs less, and one weighs exactly that much. *)
Theorem dijkstra_shortest_weights (m : AdjMat.t) (start W : Z) :
  wf m -> 0 <= W -> weights_le m W -> n_ m * W < INT32_MAX ->
  0 <= start < n_ m ->
  exists d,
    shortest_path m start true = Ret d /\
    Z.of_nat (length d) = n_ m /\
    forall v, 0 <= v < n_ m ->
      (at_ d v = INF <-> ~ reach m start v) /\
      (forall hops len, walk m start v hops len -> at_ d v <= len) /\
      (at_ d v <> INF -> exists hops, walk m start v hops (at_ d v)).
Proof.
  intros Hwf HW0 HW Hfit Hs.
  destruct (dijkstra_full m start W Hwf HW0 HW Hfit Hs) as (d & Hd & U & Hfin).
  exists d. split; [done|]. split; [apply U|].
  intros v Hv. split; [|split].
  - split.
    + intros Hi Hr. by apply (Hfin v Hr).
    + intros Hnr. destruct (Z.eq_dec (at_ d v) INF); [done|].
      exfalso. apply Hnr. by apply (wd_reach _ _ _ U).
  - intros hops len Hw. by eapply weight_lower.
  - by apply weight_attained.
Qed.

Lemma dijkstra_shortest_weights_witness :
  exists d,
    shortest_path (mk 3 [0; 4; 0; 0; 0; 0; 9; 2; 0]) 2 true = Ret d /\
    Z.of_nat (length d) = 3.
Proof.
  destruct (dijkstra_shortest_weights (mk 3 [0; 4; 0; 0; 0; 0; 9; 2; 0]) 2 u16_max)
    as (d & H1 & H2 & _);
    [apply wfb_sound; reflexivity | unfold u16_max; lia
     | apply ShortestPath.weights_le_u16; apply wfb_sound; reflexivity
     | unfold u16_max, INT32_MAX; simpl; lia | simpl; lia |].
  exists d. split; [exact H1 | exact H2].
Defined.

End Distances.

(** ** More on the neighbour queries *)

Module NeighbourFacts.
Import AdjMat AdjMatFacts Algorithms Paths Neighbours Degrees IsolatedFacts.

Lemma seqZ_sorted_to n : 0 <= n -> StronglySorted Z.lt (seqZ 0 n).
Proof. intros. rewrite <- (Z2Nat.id n) by lia. apply seqZ_sorted_lt. Qed.

(** X17: [get_from], [get_to] and [get_neighbours] fail with the
    out-of-range error for a node at or above [n]; for a node below [n] of a
    matrix of the data model each returns its nodes in strictly increasing
    order, so without repetition. *)
Theorem neighbour_lists_ordered (m : AdjMat.t) (node : Z) (bi : bool) :
  (n_ m <= node ->
   get_from m node = throw_oor msg_node /\
   get_to m node = throw_oor msg_node /\
   get_neighbours m node bi = throw_oor msg_node) /\
  (wf m -> 0 <= node < n_ m ->
   exists fr to nb,
     get_from m node = Ret fr /\ get_to m node = Ret to /\
     get_neighbours m node bi = Ret nb /\
     StronglySorted Z.lt fr /\ StronglySorted Z.lt to /\ StronglySorted Z.lt nb).
Proof.
  split.
  - intros H. unfold get_from, get_to, get_neighbours, size.
    destruct (Z.geb_spec node (n_ m)); [done | lia].
  - intros Hwf Hnode. destruct (wf_sq m Hwf) as [Hn _].
    assert (exists nb, get_neighbours m node bi = Ret nb /\ StronglySorted Z.lt nb)
      as (nb & Hnb & Hs).
    { destruct bi.
      - change (get_neighbours m node true) with (get_from m node).
        rewrite get_from_wf by done. eexists. split; [done|].
        apply sorted_filter. by apply seqZ_sorted_to.
      - rewrite get_neighbours_wf by done. eexists. split; [done|].
        apply sorted_filter. by apply seqZ_sorted_to. }
    rewrite get_from_wf, get_to_wf by done. eexists _, _, nb.
    split; [done|]. split; [done|]. split; [done|].
    split; [|split; [|done]]; apply sorted_filter; by apply seqZ_sorted_to.
Qed.

Lemma neighbour_lists_ordered_witness :
  get_from (mk 3 [0; 4; 0; 0; 0; 0; 9; 2; 0]) 3 = throw_oor msg_node.
Proof.
  pose proof (neighbour_lists_ordered (mk 3 [0; 4; 0; 0; 0; 0; 9; 2; 0]) 3 false) as [H _].
  apply H. simpl. lia.
Defined.

(** X18: on a matrix of the data model, [v] is in the list of
    [get_from(u)] exactly if [u] is in the list of [get_to(v)]. *)
Theorem from_to_duality (m : AdjMat.t) (u v : Z) :
  wf m -> 0 <= u < n_ m -> 0 <= v < n_ m ->
  exists fr to,
    get_from m u = Ret fr /\ get_to m v = Ret to /\ (In v fr <-> In u to).
Proof.
  intros Hwf Hu Hv. rewrite get_from_wf, get_to_wf by done.
  eexists _, _. split; [done|]. split; [done|].
  rewrite !filter_In, !In_seqZ. unfold out_edge, in_edge.
  destruct (Z.eqb_spec v u); destruct (Z.eqb_spec u v); subst; simpl; try lia; tauto.
Qed.

Lemma from_to_duality_witness :
  exists fr to,
    get_from (mk 3 [0; 4; 0; 0; 0; 0; 9; 2; 0]) 2 = Ret fr /\
    get_to (mk 3 [0; 4; 0; 0; 0; 0; 9; 2; 0]) 0 = Ret to /\ (In 0 fr <-> In 2 to).
Proof.
  apply (from_to_duality (mk 3 [0; 4; 0; 0; 0; 0; 9; 2; 0]) 2 0);
    [apply wfb_sound; reflexivity | simpl; lia | simpl; lia].
Defined.

(** X19: on a symmetric matrix of the data model, [get_from], [get_to]
    and [get_neighbours] with either flag return the same list. *)
Theorem symmetric_neighbours (m : AdjMat.t) (node : Z) (bi : bool) :
  wf m -> symmetric m -> 0 <= node < n_ m ->
  get_to m node = get_from m node /\
  get_neighbours m node bi = get_from m node.
Proof.
  intros Hwf Hs Hnode.
  assert (forall i, In i (seqZ 0 (n_ m)) -> in_edge m node i = out_edge m node i) as Hio.
  { intros i Hi. apply In_seqZ in Hi. unfold in_edge, out_edge.
    rewrite (Hs i node) by lia. done. }
  split.
  - rewrite get_from_wf, get_to_wf by done. f_equal. by apply filter_ext_in.
  - destruct bi; [done|].
    rewrite get_neighbours_wf, get_from_wf by done. f_equal.
    apply filter_ext_in. intros i Hi. rewrite Hio by done. by rewrite orb_diag.
Qed.

Lemma symmetric_neighbours_witness :
  get_to (mk 3 [0; 4; 0; 4; 0; 2; 0; 2; 0]) 1
  = get_from (mk 3 [0; 4; 0; 4; 0; 2; 0; 2; 0]) 1.
Proof.
  apply (symmetric_neighbours (mk 3 [0; 4; 0; 4; 0; 2; 0; 2; 0]) 1 false);
    [apply wfb_sound; reflexivity | | simpl; lia].
  intros i j Hi Hj. simpl in Hi, Hj.
  assert (i = 0 \/ i = 1 \/ i = 2) as [->|[->| ->]] by lia;
    assert (j = 0 \/ j = 1 \/ j = 2) as [->|[->| ->]] by lia; reflexivity.
Defined.

End NeighbourFacts.

(** ** Triangles of a symmetric matrix *)

Module TriangleFacts.
Import AdjMat AdjMatFacts Algorithms Paths Neighbours Triangles Degrees.

Lemma count_directed m :
  wf m -> count_triangles m true = Ret (count_of (is_cycle m) (n_ m)).
Proof.
  intros Hwf. unfold count_triangles. cbn [negb].
  rewrite count_directed_raw by done. cbn [mbind outcome_bind].
  rewrite walks_three_per_cycle. f_equal.
  rewrite Z.mul_comm. apply Z.div_mul. lia.
Qed.

Lemma cycle_two_triangles m i j k :
  symmetric m -> 0 <= i < n_ m -> 0 <= j < n_ m -> 0 <= k < n_ m ->
  Z.b2z (is_cycle m (i, j, k))
  = Z.b2z (is_triangle m (i, j, k)) + Z.b2z (is_triangle m (i, k, j)).
Proof.
  intros Hs Hi Hj Hk. unfold is_cycle, is_cycle_walk, is_triangle, edge.
  rewrite (Hs k i), (Hs k j) by lia.
  destruct (Z.eqb_spec i j); destruct (Z.eqb_spec k i); destruct (Z.eqb_spec k j);
    destruct (Z.ltb_spec i j); destruct (Z.ltb_spec i k);
    destruct (Z.ltb_spec j k); destruct (Z.ltb_spec k j); try lia; simpl;
    destruct (cell m i j =? NO_EDGE); destruct (cell m j k =? NO_EDGE);
    destruct (cell m i k =? NO_EDGE); simpl; lia.
Qed.

Lemma sum3_swap_inner n F : sum3 n (fun i j k => F i k j) = sum3 n F.
Proof. unfold sum3. apply Zsum_ext. intros i _. apply Zsum_swap. Qed.

(** X20: on a symmetric matrix of the data model, the directed count of
    [count_triangles] is twice the undirected count: every triangle is
    walked in its two directions. *)
Theorem directed_twice_undirected (m : AdjMat.t) :
  wf m -> symmetric m ->
  exists c,
    count_triangles m false = Ret c /\
    count_triangles m true = Ret (2 * c).
Proof.
  intros Hwf Hs. rewrite count_undirected, count_directed by done.
  eexists. split; [reflexivity|]. f_equal.
  rewrite !count_of_sum3.
  rewrite (sum3_ext _ _ (fun i j k => Z.b2z (is_triangle m (i, j, k))
                                      + Z.b2z (is_triangle m (i, k, j))))
    by (intros; by apply cycle_two_triangles).
  rewrite sum3_plus.
  rewrite (sum3_swap_inner (n_ m) (fun i j k => Z.b2z (is_triangle m (i, j, k)))).
  lia.
Qed.

Lemma directed_twice_undirected_witness :
  exists c,
    count_triangles (mk 3 [0; 1; 1; 1; 0; 1; 1; 1; 0]) false = Ret c /\
    count_triangles (mk 3 [0; 1; 1; 1; 0; 1; 1; 1; 0]) true = Ret (2 * c).
Proof.
  apply (directed_twice_undirected (mk 3 [0; 1; 1; 1; 0; 1; 1; 1; 0]));
    [apply wfb_sound; reflexivity |].
  intros i j Hi Hj. simpl in Hi, Hj.
  assert (i = 0 \/ i = 1 \/ i = 2) as [->|[->| ->]] by lia;
    assert (j = 0 \/ j = 1 \/ j = 2) as [->|[->| ->]] by lia; reflexivity.
Defined.

End TriangleFacts.

(** ** The registry *)

Module RegistryFacts.
Import AdjMat AdjMatFacts Algorithms Paths Neighbours Degrees Writes.
Import GraphManager Handles Manager.

(** X21: [create] returns the current counter value as handle and stores
    a fresh matrix of the requested size under it; the handle then exists
    and is listed by [list_ids]; [destroy] on it returns [true] and removes
    it, and a second [destroy] returns [false] and changes nothing.  In
    every state [list_ids] lists each live handle once and nothing else,
    and after [atexit] it is empty while the counter keeps its value. *)
Theorem registry_round_trip (g : GraphManager.t) (size id' : Z) :
  let id := next_id_ g in
  let g1 := (create g size).2 in
  let g2 := (destroy g1 id).2 in
  (create g size).1 = Ret id /\
  exists_ g1 id = true /\ In id (list_ids g1) /\
  get_graph g1 id = Ret (make size) /\
  (destroy g1 id).1 = Ret true /\
  exists_ g2 id = false /\ ~ In id (list_ids g2) /\
  get_graph g2 id = throw_oor msg_not_found /\
  destroy g2 id = (Ret false, g2) /\
  (In id' (list_ids g) <-> exists_ g id' = true) /\
  List.NoDup (list_ids g) /\
  list_ids (atexit g) = [] /\ next_id_ (atexit g) = next_id_ g.
Proof.
  assert (forall h x, In x (list_ids h) <-> exists_ h x = true) as Hin.
  { intros h x. unfold list_ids, exists_.
    rewrite bool_decide_eq_true, <- list_elem_of_In, list_elem_of_fmap. split.
    - intros ([k y] & -> & Hy). apply elem_of_map_to_list in Hy. simpl. by eexists.
    - intros [y Hy]. exists (x, y). split; [done|]. by apply elem_of_map_to_list. }
  cbv zeta. rewrite !Hin. unfold exists_, get_graph, destroy, create. simpl.
  rewrite !lookup_insert_eq, !lookup_delete_eq, delete_delete_eq.
  repeat split; try done.
  unfold list_ids. apply NoDup_ListNoDup. apply NoDup_fst_map_to_list.
Qed.

Lemma write_keeps_others g id id' mat' :
  id' <> id ->
  registry_ (GraphManager.mk (<[id := mat']> (registry_ g)) (next_id_ g)) !! id'
  = registry_ g !! id'.
Proof. intros. simpl. by rewrite lookup_insert_ne. Qed.

(** X22: [set], [bash_set] and [destroy] on one handle, whether they
    succeed or fail, leave the graph of every other handle and the handle
    counter as they were. *)
Theorem writes_touch_one_graph (g : GraphManager.t) (id id' : Z) (l : line)
    (lines : list line) (bi : bool) :
  id' <> id ->
  registry_ (GraphManager.set g id l bi).2 !! id' = registry_ g !! id' /\
  registry_ (bash_set g id lines bi).2 !! id' = registry_ g !! id' /\
  registry_ (destroy g id).2 !! id' = registry_ g !! id' /\
  next_id_ (GraphManager.set g id l bi).2 = next_id_ g /\
  next_id_ (bash_set g id lines bi).2 = next_id_ g /\
  next_id_ (destroy g id).2 = next_id_ g.
Proof.
  intros Hne. unfold GraphManager.set, bash_set, destroy.
  destruct (registry_ g !! id) as [mat|] eqn:Hg; simpl.
  - destruct (write_line mat l bi) as [r1 m1].
    destruct (write_lines mat lines bi) as [r2 m2]. simpl.
    rewrite !lookup_insert_ne, lookup_delete_ne by done. done.
  - rewrite lookup_delete_ne by done. done.
Qed.

Lemma writes_touch_one_graph_witness :
  registry_ (GraphManager.set (create (create init 3).2 2).2 1 (mkLine 0 1 5) false).2 !! 2
  = registry_ (create (create init 3).2 2).2 !! 2.
Proof.
  apply (writes_touch_one_graph (create (create init 3).2 2).2 1 2 (mkLine 0 1 5) [] false).
  lia.
Defined.

Lemma step_below g o :
  handles_below g -> next_id_ g < 2 ^ 64 - 1 -> handles_below (step g o).1.
Proof.
  intros [H1 Hb] Hlt.
  assert (next_id_ g <= next_id_ (step g o).1) as Hmono.
  { rewrite step_next_id. destruct (is_create o); [|lia].
    unfold u64. rewrite Z.mod_small by lia. lia. }
  split; [lia|]. intros id Hid.
  destruct (step_dom g o id Hid) as [Hold|Hnew].
  - specialize (Hb id Hold). lia.
  - rewrite step_handles in Hnew. rewrite step_next_id.
    destruct (is_create o); [|done]. destruct Hnew as [<-|[]].
    unfold u64. rewrite Z.mod_small by lia. lia.
Qed.

Lemma run_below ops : forall g,
  handles_below g -> next_id_ g + creates ops < 2 ^ 64 ->
  handles_below (run g ops).1 /\ next_id_ (run g ops).1 = next_id_ g + creates ops.
Proof.
  induction ops as [|o ops IH]; intros g Hb Hlt.
  - simpl. unfold creates. simpl. split; [done | lia].
  - rewrite creates_cons in *. pose proof (creates_nonneg ops) as Hc.
    simpl. destruct (step g o) as [g1 hs1] eqn:Hs.
    destruct (run g1 ops) as [g2 hs2] eqn:Hr. simpl.
    pose proof (step_next_id g o) as Hn. rewrite Hs in Hn. simpl in Hn.
    assert (handles_below g1) as Hb1.
    { destruct (is_create o) eqn:Hcr.
      - pose proof (step_below g o Hb ltac:(lia)) as H. by rewrite Hs in H.
      - destruct Hb as [H1 Hb]. split; [lia|]. intros id Hid.
        pose proof (step_dom g o id) as Hd. rewrite Hs in Hd. simpl in Hd.
        destruct (Hd Hid) as [Hold|Hnew].
        + rewrite Hn. by apply Hb.
        + pose proof (step_handles g o) as Hh. rewrite Hs, Hcr in Hh. simpl in Hh.
          subst hs1. done. }
    assert (next_id_ g1 = next_id_ g + (if is_create o then 1 else 0)) as Hn1.
    { rewrite Hn. destruct (is_create o); [|lia].
      unfold u64. destruct Hb. rewrite Z.mod_small by lia. lia. }
    destruct (IH g1 Hb1 ltac:(lia)) as [Hb2 Hn2].
    rewrite Hr in Hb2, Hn2. simpl in Hb2, Hn2. split; [done | lia].
Qed.

(** X23: after any run of registry operations from the initial state with
    fewer than [2^64 - 1] calls of [create], every live handle is below the
    counter, the counter is one more than the number of [create] calls, and
    the next [create] takes a handle that names no live graph and leaves
    every live graph as it is. *)
Theorem create_keeps_live_graphs (ops : list op) (size : Z) :
  creates ops < 2 ^ 64 - 1 ->
  let g := (run init ops).1 in
  handles_below g /\
  next_id_ g = 1 + creates ops /\
  registry_ g !! next_id_ g = None /\
  (forall id, is_Some (registry_ g !! id) ->
     registry_ (create g size).2 !! id = registry_ g !! id).
Proof.
  intros Hlt g.
  assert (handles_below init) as H0.
  { split; [simpl; lia|]. intros id Hid. simpl in Hid.
    rewrite lookup_empty in Hid. by destruct Hid. }
  destruct (run_below ops init H0 ltac:(simpl; lia)) as [Hb Hn]. fold g in Hb, Hn.
  split; [done|]. split; [done|].
  assert (registry_ g !! next_id_ g = None) as Hfresh.
  { destruct (registry_ g !! next_id_ g) eqn:He; [|done].
    destruct Hb as [_ Hb]. specialize (Hb (next_id_ g) ltac:(by rewrite He)). lia. }
  split; [done|]. intros id Hid. simpl.
  rewrite lookup_insert_ne; [done|]. intros <-. rewrite Hfresh in Hid. by destruct Hid.
Qed.

Lemma create_keeps_live_graphs_witness :
  next_id_ (run init [Create 3; Destroy 1; Create 2]).1 = 3.
Proof.
  pose proof (create_keeps_live_graphs [Create 3; Destroy 1; Create 2] 0) as H.
  apply H. vm_compute. reflexivity.
Defined.

(** X24: for a handle that names no live graph (never created, destroyed,
    or cleared by [atexit]) every query fails with the out-of-range error
    "Graph not found", [set] and [bash_set] fail with the out-of-range
    error "Invalid graph ID" and change nothing, [exists] is [false] and
    [destroy] returns [false] and changes nothing. *)
Theorem missing_handle (g : GraphManager.t) (id node : Z) (l : line)
    (lines : list line) (b : bool) :
  registry_ g !! id = None ->
  Manager.get_degree g id node b = throw_oor msg_not_found /\
  Manager.degree_stats g id b = throw_oor msg_not_found /\
  Manager.isolated_nodes g id b = throw_oor msg_not_found /\
  Manager.count_triangles g id b = throw_oor msg_not_found /\
  Manager.shortest_path g id node b = throw_oor msg_not_found /\
  Manager.betweenness_centrality g id b = throw_oor msg_not_found /\
  Manager.get_from g id node = throw_oor msg_not_found /\
  Manager.get_to g id node = throw_oor msg_not_found /\
  Manager.get_neighbours g id node b = throw_oor msg_not_found /\
  GraphManager.set g id l b = (throw_oor msg_invalid_id, g) /\
  bash_set g id lines b = (throw_oor msg_invalid_id, g) /\
  exists_ g id = false /\
  destroy g id = (Ret false, g).
Proof.
  intros H.
  unfold Manager.get_degree, Manager.degree_stats, Manager.isolated_nodes,
    Manager.count_triangles, Manager.shortest_path, Manager.betweenness_centrality,
    Manager.get_from, Manager.get_to, Manager.get_neighbours, get_graph,
    GraphManager.set, bash_set, exists_, destroy.
  rewrite H. repeat (split; [reflexivity|]).
  destruct g as [r k]. simpl in *. by rewrite delete_id.
Qed.

Lemma missing_handle_witness :
  Manager.get_from (destroy (create init 3).2 1).2 1 0 = throw_oor msg_not_found.
Proof.
  apply (missing_handle (destroy (create init 3).2 1).2 1 0 (mkLine 0 1 5) [] false).
  reflexivity.
Defined.

Lemma write_lines_app mat l1 l2 bi mat1 :
  write_lines mat l1 bi = (Ret tt, mat1) ->
  write_lines mat (l1 ++ l2) bi = write_lines mat1 l2 bi.
Proof.
  revert mat. induction l1 as [|l l1 IH]; intros mat H; simpl in *.
  - by inversion H.
  - destruct (write_line mat l bi) as [[[]| | |] mat']; try done. by apply IH.
Qed.

(** X26: [bash_set] with a one-edge list is [set] of that edge; with an
    empty list on a live handle it succeeds and changes nothing; and if
    [bash_set] of a list succeeds, [bash_set] of that list followed by a
    second list is the first call followed by [bash_set] of the second
    list. *)
Theorem bash_set_composes (g : GraphManager.t) (id : Z) (l : line)
    (l1 l2 : list line) (bi : bool) :
  bash_set g id [l] bi = GraphManager.set g id l bi /\
  (is_Some (registry_ g !! id) -> bash_set g id [] bi = (Ret tt, g)) /\
  ((bash_set g id l1 bi).1 = Ret tt ->
   bash_set g id (l1 ++ l2) bi = bash_set (bash_set g id l1 bi).2 id l2 bi).
Proof.
  unfold bash_set, GraphManager.set. split; [|split].
  - destruct (registry_ g !! id) as [mat|]; [|done]. simpl.
    destruct (write_line mat l bi) as [[[]| | |] mat']; done.
  - intros [mat Hm]. rewrite Hm. simpl. f_equal. by apply FailingWrites.insert_same_registry.
  - destruct (registry_ g !! id) as [mat|] eqn:Hg; [|done].
    destruct (write_lines mat l1 bi) as [r mat1] eqn:Hw. simpl. intros ->.
    rewrite lookup_insert_eq. rewrite (write_lines_app _ _ _ _ _ Hw).
    destruct (write_lines mat1 l2 bi) as [r2 mat2]. simpl.
    by rewrite insert_insert_eq.
Qed.

Lemma bash_set_composes_witness :
  bash_set (create init 3).2 1 ([mkLine 0 1 5] ++ [mkLine 1 2 7]) false
  = bash_set (bash_set (create init 3).2 1 [mkLine 0 1 5] false).2 1 [mkLine 1 2 7] false.
Proof.
  pose proof (bash_set_composes (create init 3).2 1 (mkLine 0 1 5)
                [mkLine 0 1 5] [mkLine 1 2 7] false) as (_ & _ & H).
  apply H. reflexivity.
Defined.

(** X27: on a live graph that is a matrix of the data model, [set] of an
    edge [(u, v, w)] with distinct in-bounds nodes succeeds; afterwards
    [get_from(u)] holds [v] and [get_to(v)] holds [u] exactly if [w] is not
    0 (writing weight 0 removes the edge), and a bidirectional write does
    the same for the reverse edge. *)
Theorem edge_visible_after_set (g : GraphManager.t) (id : Z) (mat : AdjMat.t)
    (u v w : Z) (bi : bool) :
  registry_ g !! id = Some mat -> wf mat ->
  0 <= u < n_ mat -> 0 <= v < n_ mat -> u <> v -> 0 <= w <= u16_max ->
  let g' := (GraphManager.set g id (mkLine u v w) bi).2 in
  (GraphManager.set g id (mkLine u v w) bi).1 = Ret tt /\
  exists fr to,
    Manager.get_from g' id u = Ret fr /\ (In v fr <-> w <> 0) /\
    Manager.get_to g' id v = Ret to /\ (In u to <-> w <> 0) /\
    (bi = true ->
     exists fr', Manager.get_from g' id v = Ret fr' /\ (In u fr' <-> w <> 0)).
Proof.
  intros Hg Hwf Hu Hv Hne Hw g'. unfold g', GraphManager.set. rewrite Hg.
  unfold write_line. cbn [GraphManager.u GraphManager.v GraphManager.weight].
  set (mat' := if bi then (bi_set mat u v w).2 else (AdjMat.set mat u v w).2).
  assert ((if bi then bi_set mat u v w else AdjMat.set mat u v w) = (Ret tt, mat')) as ->.
  { unfold mat'. destruct bi.
    - by rewrite bi_set_wf_eq.
    - by rewrite set_wf_eq. }
  assert (wf mat' /\ n_ mat' = n_ mat /\ cell mat' u v = w /\
          (bi = true -> cell mat' v u = w)) as (Hwf' & Hn' & Hc & Hc').
  { unfold mat'. destruct bi.
    - destruct (bi_set_then_read_core mat u v w Hwf Hu Hv Hne Hw) as (? & ? & ? & ?).
      done.
    - destruct (set_then_read_core mat u v w Hwf Hu Hv Hne Hw) as (? & ? & ?).
      split; [done|]. split; [done|]. split; [done|]. done. }
  simpl. split; [done|].
  unfold Manager.get_from, Manager.get_to, get_graph. simpl.
  rewrite lookup_insert_eq. cbn [mbind outcome_bind].
  rewrite !get_from_wf, get_to_wf by (rewrite ?Hn'; done).
  eexists _, _. split; [reflexivity|]. split; [|split; [reflexivity|split]].
  - rewrite filter_In, In_seqZ. unfold out_edge. rewrite Hc, Hn'.
    destruct (Z.eqb_spec v u); [lia|]. unfold NO_EDGE.
    destruct (Z.eqb_spec w 0); simpl; split; try lia; try done; intros [_ ?]; done.
  - rewrite filter_In, In_seqZ. unfold in_edge. rewrite Hc, Hn'.
    destruct (Z.eqb_spec u v); [lia|]. unfold NO_EDGE.
    destruct (Z.eqb_spec w 0); simpl; split; try lia; try done; intros [_ ?]; done.
  - intros Hbi. eexists. split; [reflexivity|].
    rewrite filter_In, In_seqZ. unfold out_edge. rewrite (Hc' Hbi), Hn'.
    destruct (Z.eqb_spec u v); [lia|]. unfold NO_EDGE.
    destruct (Z.eqb_spec w 0); simpl; split; try lia; try done; intros [_ ?]; done.
Qed.

Lemma edge_visible_after_set_witness :
  (GraphManager.set (create init 3).2 1 (mkLine 0 1 5) false).1 = Ret tt.
Proof.
  apply (edge_visible_after_set (create init 3).2 1 (make 3) 0 1 5 false);
    [reflexivity | apply wfb_sound; reflexivity | | | |];
    unfold u16_max; simpl; lia.
Defined.

Lemma write_line_valid mat l bi :
  wf mat -> valid_line (n_ mat) l ->
  exists mat1,
    write_line mat l bi = (Ret tt, mat1) /\ wf mat1 /\ n_ mat1 = n_ mat /\
    forall i j, 0 <= i < n_ mat -> 0 <= j < n_ mat ->
      cell mat1 i j = if hits l bi i j then weight l else cell mat i j.
Proof.
  intros Hwf (Hu & Hv & Hne & Hw). unfold write_line, hits. destruct bi.
  - exists (bi_set mat (u l) (v l) (weight l)).2.
    destruct (bi_set_then_read_core mat _ _ _ Hwf Hu Hv Hne Hw) as (? & ? & _).
    split; [by rewrite bi_set_wf_eq|]. split; [done|]. split; [done|].
    intros i j Hi Hj. by rewrite cell_bi_set.
  - exists (AdjMat.set mat (u l) (v l) (weight l)).2.
    destruct (set_then_read_core mat _ _ _ Hwf Hu Hv Hne Hw) as (? & ? & _).
    split; [by rewrite set_wf_eq|]. split; [done|]. split; [done|].
    intros i j Hi Hj. rewrite cell_set by done. by rewrite orb_false_r.
Qed.

Lemma write_lines_valid lines bi : forall mat,
  wf mat -> Forall (valid_line (n_ mat)) lines ->
  exists mat',
    write_lines mat lines bi = (Ret tt, mat') /\ wf mat' /\ n_ mat' = n_ mat /\
    forall i j, 0 <= i < n_ mat -> 0 <= j < n_ mat ->
      cell mat' i j = written lines bi i j (cell mat i j).
Proof.
  induction lines as [|l rest IH]; intros mat Hwf Hall.
  - exists mat. done.
  - apply Forall_cons in Hall as [Hl Hrest].
    destruct (write_line_valid mat l bi Hwf Hl) as (mat1 & Hw & Hwf1 & Hn1 & Hc1).
    rewrite <- Hn1 in Hrest.
    destruct (IH mat1 Hwf1 Hrest) as (mat' & Hws & Hwf' & Hn' & Hc').
    exists mat'. cbn [write_lines written]. rewrite Hw.
    split; [done|]. split; [done|]. split; [congruence|].
    intros i j Hi Hj. rewrite Hc' by (rewrite Hn1; done). by rewrite Hc1.
Qed.

(** X25: on a live graph that is a matrix of the data model, [bash_set]
    with lines that all have distinct in-bounds nodes succeeds, keeps the
    representation invariant, and afterwards every cell reads as the weight
    of the last line that addressed it (in either direction if [bi]), or as
    before if no line did. *)
Theorem bash_set_all_valid (g : GraphManager.t) (id : Z) (mat : AdjMat.t)
    (lines : list line) (bi : bool) :
  registry_ g !! id = Some mat -> wf mat -> Forall (valid_line (n_ mat)) lines ->
  exists mat',
    bash_set g id lines bi
    = (Ret tt, GraphManager.mk (<[id := mat']> (registry_ g)) (next_id_ g)) /\
    wf mat' /\ n_ mat' = n_ mat /\
    forall i j, 0 <= i < n_ mat -> 0 <= j < n_ mat ->
      read mat' i j = Ret (written lines bi i j (cell mat i j)).
Proof.
  intros Hg Hwf Hall.
  destruct (write_lines_valid lines bi mat Hwf Hall) as (mat' & Hw & Hwf' & Hn' & Hc).
  exists mat'. unfold bash_set. rewrite Hg, Hw.
  split; [done|]. split; [done|]. split; [done|].
  intros i j Hi Hj. rewrite read_wf by (rewrite ?Hn'; done). by rewrite Hc.
Qed.

Lemma bash_set_all_valid_witness :
  exists mat',
    bash_set (create init 3).2 1 [mkLine 0 1 5; mkLine 0 1 9] true
    = (Ret tt, GraphManager.mk (<[1 := mat']> (registry_ (create init 3).2))
                 (next_id_ (create init 3).2)) /\
    read mat' 1 0 = Ret 9.
Proof.
  destruct (bash_set_all_valid (create init 3).2 1 (make 3)
              [mkLine 0 1 5; mkLine 0 1 9] true) as (mat' & H1 & _ & _ & H4);
    [reflexivity | apply wfb_sound; reflexivity | |].
  - repeat constructor; simpl; unfold u16_max; lia.
  - exists mat'. split; [exact H1|]. apply (H4 1 0); simpl; lia.
Defined.

End RegistryFacts.

(** ** The traversals of the centrality computation, and graphs without edges *)

Module BrandesMore.
Import AdjMat AdjMatFacts Algorithms Paths Neighbours Triangles PathFacts.
Import Degrees IsolatedFacts TriangleFacts.
Import Brandes BrandesSim.

Lemma load_at_list {A} (l : list A) v x :
  l !! Z.to_nat v = Some x -> 0 <= v -> load l v = Ret x.
Proof.
  intros H Hv. unfold load. destruct (Z.ltb_spec v 0); [lia|]. by rewrite H.
Qed.

Lemma bfs_phase_sim m n : forall fuel wk q wk',
  bfs_phase fuel m n wk q = Ret wk' ->
  bfs_loop fuel m n (dist wk) q = Ret (dist wk').
Proof.
  induction fuel as [|fuel IH]; intros wk q wk' H; destruct q as [|v q'];
    cbn [bfs_phase bfs_loop] in *; try done; try (by inversion H).
  destruct (foldM (bfs_visit m v) (seqZ 0 n) (push_stack wk v, q'))
    as [[wk1 q1]| | |] eqn:Hs; cbn [mbind outcome_bind] in H; try done.
  destruct (bfs_visit_scan_sim m v _ _ _ _ _ Hs) as (Hr & _).
  cbn [push_stack dist] in Hr. rewrite Hr. cbn [mbind outcome_bind]. by apply IH.
Qed.

Lemma dijkstra_phase_sim m n : forall fuel wk pq wk',
  dijkstra_phase fuel m n wk pq = Ret wk' ->
  dijkstra_loop fuel m n (dist wk) pq = Ret (dist wk').
Proof.
  induction fuel as [|fuel IH]; intros wk pq wk' H; destruct pq as [|x l];
    cbn [dijkstra_phase dijkstra_loop] in *; try done; try (by inversion H).
  destruct (pq_extract x l) as [[d v] pq'].
  destruct (load (dist wk) v) as [dv| | |]; cbn [mbind outcome_bind] in *; try done.
  destruct (d >? dv); [by apply IH|].
  destruct (foldM (dijkstra_visit m v) (seqZ 0 n) (push_stack wk v, pq'))
    as [[wk1 pq1]| | |] eqn:Hs; cbn [mbind outcome_bind] in H; try done.
  destruct (dijkstra_visit_scan_sim m v _ _ _ _ _ Hs) as (Hr & _).
  cbn [push_stack dist] in Hr. rewrite Hr. cbn [mbind outcome_bind]. by apply IH.
Qed.

Lemma traverse_sim m weighed s wk :
  traverse m weighed s = Ret wk -> shortest_path m s weighed = Ret (dist wk).
Proof.
  unfold traverse, shortest_path, init_work, size.
  destruct (store (replicate (Z.to_nat (n_ m)) INF) s 0) as [d| | |] eqn:Hst;
    cbn [mbind outcome_bind]; try done.
  assert (s < n_ m) as Hs.
  { unfold store in Hst. rewrite length_replicate in Hst.
    destruct (Z.ltb_spec s 0); [done|].
    destruct (Z.leb_spec (Z.of_nat (Z.to_nat (n_ m))) s); [done | lia]. }
  destruct (Z.geb_spec s (n_ m)); [lia|].
  destruct (store (replicate (Z.to_nat (n_ m)) 0) s 1) as [sg| | |];
    cbn [mbind outcome_bind]; try done.
  destruct weighed; cbn [negb]; intros Ht.
  - apply dijkstra_phase_sim in Ht. exact Ht.
  - apply bfs_phase_sim in Ht. exact Ht.
Qed.

(** X28: whenever the traversal that [betweenness_centrality] runs from a
    source returns, its distance vector is the vector that [shortest_path]
    returns for that source in the same mode. *)
Theorem traverse_distances (m : AdjMat.t) (weighed : bool) (s : Z) (wk : work) :
  traverse m weighed s = Ret wk ->
  shortest_path m s weighed = Ret (dist wk).
Proof. apply traverse_sim. Qed.

Lemma traverse_distances_witness :
  exists wk,
    traverse (mk 3 [0; 4; 0; 0; 0; 0; 9; 2; 0]) true 2 = Ret wk /\
    shortest_path (mk 3 [0; 4; 0; 0; 0; 0; 9; 2; 0]) 2 true = Ret (dist wk).
Proof.
  eexists. split; [vm_compute; reflexivity|].
  apply (traverse_distances (mk 3 [0; 4; 0; 0; 0; 0; 9; 2; 0]) true 2).
  vm_compute. reflexivity.
Defined.

(** *** Graphs without edges *)

Lemma filter_all {A} (p : A -> bool) l :
  (forall x, In x l -> p x = true) -> List.filter p l = l.
Proof.
  induction l as [|x l IH]; intros H; [done|]. cbn [List.filter].
  rewrite H by (by left). f_equal. apply IH. intros; apply H; by right.
Qed.

Lemma count_of_zero p n :
  (forall i j k, 0 <= i < n -> 0 <= j < n -> 0 <= k < n -> p (i, j, k) = false) ->
  count_of p n = 0.
Proof.
  intros H. rewrite count_of_sum3.
  rewrite (sum3_ext _ _ (fun _ _ _ => 0)) by (intros; by rewrite H).
  unfold sum3. apply Zsum_zero. intros i _. apply Zsum_zero. intros j _.
  by apply Zsum_zero.
Qed.

Lemma bfs_visit_no_edge m v wk q w :
  wf m -> node m v -> node m w -> no_edges m ->
  bfs_visit m v (wk, q) w = Ret (wk, q).
Proof.
  intros Hwf Hv Hw He. unfold bfs_visit. destruct (v =? w); [done|].
  rewrite read_wf by done. rewrite He by done. done.
Qed.

Lemma dijkstra_visit_no_edge m v wk pq w :
  wf m -> node m v -> node m w -> no_edges m ->
  dijkstra_visit m v (wk, pq) w = Ret (wk, pq).
Proof.
  intros Hwf Hv Hw He. unfold dijkstra_visit. destruct (v =? w); [done|].
  rewrite read_wf by done. rewrite He by done. done.
Qed.

Lemma traverse_no_edges m weighed s :
  wf m -> no_edges m -> node m s ->
  traverse m weighed s
  = Ret (mkWork (<[Z.to_nat s := 0]> (replicate (Z.to_nat (n_ m)) INF))
           (replicate (Z.to_nat (n_ m)) [])
           (<[Z.to_nat s := 1]> (replicate (Z.to_nat (n_ m)) 0))
           (replicate (Z.to_nat (n_ m)) 0%float) [s]).
Proof.
  intros Hwf He Hs. unfold traverse, init_work, size.
  rewrite !(store_at _ (n_ m)) by (rewrite ?length_replicate; unfold node in *; lia).
  cbn [mbind outcome_bind].
  destruct weighed; cbn [negb].
  - unfold dijkstra_fuel.
    destruct (Z.to_nat (n_ m * n_ m + 1)) as [|fuel] eqn:Hf; [unfold node in *; nia|].
    cbn [dijkstra_phase pq_extract dist].
    rewrite (load_at _ (n_ m)) by (rewrite ?length_insert, ?length_replicate; unfold node in *; lia).
    rewrite at_insert_eq by (rewrite length_replicate; unfold node in *; lia).
    cbn [mbind outcome_bind]. change (0 >? 0) with false. cbn iota.
    rewrite ShortestPath.foldM_id.
    + cbn [mbind outcome_bind]. by destruct fuel.
    + intros w Hw. apply In_seqZ in Hw. by apply dijkstra_visit_no_edge.
  - unfold bfs_fuel.
    destruct (Z.to_nat (n_ m)) as [|fuel] eqn:Hf; [unfold node in *; lia|].
    cbn [bfs_phase]. rewrite ShortestPath.foldM_id.
    + cbn [mbind outcome_bind]. rewrite <- Hf. by destruct fuel.
    + intros w Hw. apply In_seqZ in Hw. by apply bfs_visit_no_edge.
Qed.

Lemma source_round_no_edges m weighed c s :
  wf m -> no_edges m -> node m s -> source_round m weighed c s = Ret c.
Proof.
  intros Hwf He Hs. unfold source_round. rewrite traverse_no_edges by done.
  cbn [mbind outcome_bind preds sigma stack delta accumulate].
  rewrite (load_at_list (replicate (Z.to_nat (n_ m)) []) s []).
  - cbn [mbind outcome_bind foldM]. rewrite Z.eqb_refl. done.
  - apply lookup_replicate_2. unfold node in *. lia.
  - unfold node in *. lia.
Qed.

(** X29: on a matrix of the data model without any edge (such as a
    freshly constructed one), every node is isolated and has degree 0 in
    both modes, no triangle is counted, [shortest_path] returns 0 at the
    start node and [INT32_MAX] elsewhere, and every centrality is [0.0]. *)
Theorem graph_without_edges (m : AdjMat.t) (b : bool) :
  wf m -> no_edges m ->
  isolated_nodes m b = Ret (seqZ 0 (n_ m)) /\
  count_triangles m b = Ret 0 /\
  (forall i, 0 <= i < n_ m -> get_degree m i b = Ret (mkDegree 0 0)) /\
  (forall s, 0 <= s < n_ m ->
     shortest_path m s b
     = Ret (<[Z.to_nat s := 0]> (replicate (Z.to_nat (n_ m)) INF))) /\
  betweenness_centrality m b = Ret (replicate (Z.to_nat (n_ m)) 0%float).
Proof.
  intros Hwf He. split; [|split; [|split; [|split]]].
  - rewrite isolated_nodes_wf by done. f_equal. apply filter_all.
    intros i Hi. apply In_seqZ in Hi. apply andb_true_iff. split.
    + apply row_empty_spec. intros j Hj. apply He; lia.
    + apply orb_true_iff. right. apply col_empty_spec. intros j Hj _. apply He; lia.
  - destruct b.
    + rewrite count_directed by done. f_equal. apply count_of_zero.
      intros i j k Hi Hj Hk. unfold is_cycle, is_cycle_walk, edge.
      rewrite (He i j) by done. by rewrite andb_false_r.
    + rewrite count_undirected by done. f_equal. apply count_of_zero.
      intros i j k Hi Hj Hk. unfold is_triangle, edge.
      rewrite (He i j) by done. by rewrite !andb_false_r.
  - intros i Hi. rewrite DegreeFacts.get_degree_wf by done.
    assert (row_count m i = 0) as ->.
    { apply IsolatedFacts.count_if_zero. fold (row_empty m i).
      apply row_empty_spec. intros j Hj. apply He; lia. }
    assert (col_count m i = 0) as ->.
    { apply IsolatedFacts.count_if_zero. fold (col_empty m i).
      apply col_empty_spec. intros j Hj _. apply He; lia. }
    by destruct b.
  - intros s Hs. pose proof (traverse_no_edges m b s Hwf He Hs) as Ht.
    apply traverse_sim in Ht. exact Ht.
  - unfold betweenness_centrality, accumulate_sources, size.
    rewrite ShortestPath.foldM_id.
    + cbn [mbind outcome_bind]. rewrite BrandesFacts.halve_all_map. f_equal.
      induction (Z.to_nat (n_ m)) as [|k IH]; [done|]. simpl. by rewrite IH.
    + intros s Hs. apply In_seqZ in Hs. apply source_round_no_edges; (done || lia).
Qed.

Lemma graph_without_edges_witness :
  betweenness_centrality (make 3) true = Ret (replicate (Z.to_nat 3) 0%float).
Proof.
  apply (graph_without_edges (make 3) true); [apply wfb_sound; reflexivity|].
  intros i j Hi Hj. simpl in Hi, Hj.
  assert (i = 0 \/ i = 1 \/ i = 2) as [->|[->| ->]] by lia;
    assert (j = 0 \/ j = 1 \/ j = 2) as [->|[->| ->]] by lia; reflexivity.
Defined.

End BrandesMore.
